(** * Cycle-based compressor: a shallow embedding of
      [codes/c/cycle_based_compressor.c] and its verification.

    Conventions of the embedding.
    - A C [int] is a [Z].  Signed overflow is undefined behaviour in C, so
      the model describes the runs in which no [int] overflows.  A theorem
      about an [int] that grows with the input (the length of the text, the
      bit count of the payload, the capacity of the bit writer, a frequency)
      carries a bound that keeps it inside [INT_MIN, INT_MAX].
    - An [unsigned char] is a [Z] in [0, 256); every conversion to
      [unsigned char] is written [to_uchar].
    - An array is a [list], read with [read] and updated in place with
      [write]; indices are the C [int] indices.  Memory the program has not
      written yet is taken to hold zeros; no result depends on it.
    - A C string argument is the list of the bytes at the pointer, followed
      by an implied terminating NUL; a zero byte inside the list ends the
      string there ([strlen], [c_string]).
    - A buffer the caller passes for output ([out_text]) is an argument and
      is answered as the call leaves it.
    - [malloc]/[realloc] are assumed to succeed; the two other ways the
      program leaves through [exit(1)] are kept as the [Exit] outcome, and
      what is printed on [stderr] is kept as a value.  The line
      [compress_cycle_based] prints on [stdout] and its call of [bw_free]
      on a writer it no longer uses leave no trace in its results and are
      left out; what [main] prints is kept, line by line.
    - Loops whose bound is fixed on entry are folds over their index range
      ([seqZ]); the other loops run through [while], which carries fuel and
      answers [OutOfFuel] when it runs dry; a [break] is a flag in the loop
      state.  Every loop is proved to end within the fuel it is given. *)

From Stdlib Require Import ZArith Lia String.
From stdpp Require Import base tactics option list list_numbers sorting.

#[local] Open Scope Z_scope.

(** ** Outcomes of a run *)

(** What the program prints on [stderr]. *)
Inductive stderr_msg : Type :=
  | MoreThan255Symbols        (* "Error: more than 255 distinct symbols" *)
  | SymbolNotInLUT            (* "Internal error: symbol not found in LUT" *)
  | InvalidCompressedData     (* "Invalid compressed data" *)
  | PairNotFound (m j : Z).   (* "Pair (m=%d, j=%d) not found in code table" *)

Inductive result (A : Type) : Type :=
  | Ok (a : A)
  | Exit (status : Z) (msg : stderr_msg)
  | OutOfFuel.
Arguments Ok {A} a.
Arguments Exit {A} status msg.
Arguments OutOfFuel {A}.

#[global] Instance result_ret : MRet result := λ A a, Ok a.
#[global] Instance result_bind : MBind result := λ A B f r,
  match r with
  | Ok a => f a
  | Exit status msg => Exit status msg
  | OutOfFuel => OutOfFuel
  end.

(** ** Loops *)

Fixpoint while {S : Type} (fuel : nat) (cond : S → bool)
    (body : S → result S) (s : S) : result S :=
  if cond s then
    match fuel with
    | O => OutOfFuel
    | Datatypes.S fuel' => s' ← body s; while fuel' cond body s'
    end
  else Ok s.

(** [for (int i = lo; i < hi; i++) s = body i s] with a body that may exit. *)
Fixpoint for_each {S : Type} (body : Z → S → result S) (idx : list Z) (s : S)
    : result S :=
  match idx with
  | [] => Ok s
  | i :: idx' => s' ← body i s; for_each body idx' s'
  end.

Definition for_range {S : Type} (lo hi : Z) (body : Z → S → result S) (s : S)
    : result S :=
  for_each body (seqZ lo (hi - lo)) s.

(** ** Arrays and bytes *)

Definition read {A : Type} `{Inhabited A} (a : list A) (i : Z) : A :=
  a !!! Z.to_nat i.

Definition write {A : Type} (a : list A) (i : Z) (v : A) : list A :=
  <[Z.to_nat i := v]> a.

Definition to_uchar (z : Z) : Z := z mod 256.

Definition is_byte (z : Z) : Prop := 0 ≤ z < 256.

(** [memcpy(dst + off, src, n)] *)
Definition memcpy (dst : list Z) (off : Z) (src : list Z) (n : Z) : list Z :=
  take (Z.to_nat off) dst ++ take (Z.to_nat n) src
    ++ drop (Z.to_nat (off + n)) dst.

(** [strlen]: the bytes of [text] are followed by the terminating NUL. *)
Fixpoint strlen (text : list Z) : Z :=
  match text with
  | [] => 0
  | c :: rest => if c =? 0 then 0 else 1 + strlen rest
  end.

(** ** Constants and structures *)

Definition ALPHABET_SIZE : Z := 256.

Record CodeEntry : Type := mkCodeEntry {
  symbol : Z;   (* unsigned char symbol *)
  freq : Z;     (* int freq *)
  code_m : Z;   (* int m *)
  code_j : Z    (* int j *)
}.

#[global] Instance CodeEntry_inhabited : Inhabited CodeEntry :=
  populate (mkCodeEntry 0 0 0 0).

Record BitWriter : Type := mkBitWriter {
  data : list Z;   (* unsigned char *data *)
  capacity : Z;    (* capacity in bytes *)
  size : Z;        (* bytes actually used *)
  bit_pos : Z      (* next bit position inside the last byte *)
}.

(** ** BitWriter helpers *)

Definition bw_init (capacity : Z) : BitWriter :=
  mkBitWriter (replicate (Z.to_nat capacity) 0) capacity 0 0.

(** [bw_free]: the buffer is given back ([data = NULL], no byte behind it)
    and the three counters are reset. *)
Definition bw_free (bw : BitWriter) : BitWriter := mkBitWriter [] 0 0 0.

Definition bw_ensure_space (bw : BitWriter) : BitWriter :=
  if capacity bw <=? size bw then
    let new_cap := capacity bw * 2 in
    let new_cap := if new_cap <? 16 then 16 else new_cap in
    mkBitWriter (data bw ++ replicate (Z.to_nat (new_cap - capacity bw)) 0)
                new_cap (size bw) (bit_pos bw)
  else bw.

Definition bw_put_bit (bw : BitWriter) (bit : Z) : BitWriter :=
  let bw :=
    if (size bw =? 0) && (bit_pos bw =? 0) then
      let bw := bw_ensure_space bw in
      mkBitWriter (write (data bw) 0 0) (capacity bw) 1 (bit_pos bw)
    else bw in
  let bw :=
    if bit_pos bw =? 8 then
      let bw := bw_ensure_space bw in
      mkBitWriter (write (data bw) (size bw) 0) (capacity bw) (size bw + 1) 0
    else bw in
  let bw :=
    if negb (bit =? 0) then
      mkBitWriter
        (write (data bw) (size bw - 1)
           (to_uchar (Z.lor (read (data bw) (size bw - 1))
                            (Z.shiftl 1 (7 - bit_pos bw)))))
        (capacity bw) (size bw) (bit_pos bw)
    else bw in
  mkBitWriter (data bw) (capacity bw) (size bw) (bit_pos bw + 1).

(** Write the cycle 0^m 1^j. *)
Definition bw_put_cycle (bw : BitWriter) (m j : Z) : BitWriter :=
  let bw := foldl (λ bw _, bw_put_bit bw 0) bw (seqZ 0 m) in
  foldl (λ bw _, bw_put_bit bw 1) bw (seqZ 0 j).

(** ** Frequency counting *)

Definition count_character_frequency (text : list Z) (freq_table : list Z)
    : list Z :=
  let length := strlen text in
  foldl (λ freq_table i,
           let c := to_uchar (read text i) in
           write freq_table c (read freq_table c + 1))
        freq_table (seqZ 0 length).

(** ** Sorting by frequency (desc) and symbol (asc) *)

Definition compare_codeentry (ca cb : CodeEntry) : Z :=
  if freq cb <? freq ca then -1
  else if freq ca <? freq cb then 1
  else if symbol ca <? symbol cb then -1
  else if symbol cb <? symbol ca then 1
  else 0.

(** The order [qsort] sorts into: [a] may stand before [b]. *)
Definition entry_le (a b : CodeEntry) : Prop := compare_codeentry a b ≤ 0.

#[global] Instance entry_le_dec : RelDecision entry_le :=
  λ a b, Z_le_dec (compare_codeentry a b) 0.

(** [qsort(base, nmemb, sizeof(CodeEntry), compare_codeentry)]: the first
    [nmemb] entries are put in order, the rest of the array is left alone.
    The library routine is modelled by a merge sort; [qsort_unique] below
    shows that no other sorting routine could answer differently on the
    tables the compressor builds. *)
Definition qsort (base : list CodeEntry) (nmemb : Z) : list CodeEntry :=
  merge_sort entry_le (take (Z.to_nat nmemb) base)
    ++ drop (Z.to_nat nmemb) base.

(** ** Cycle generation (m, j) for codes *)

Definition set_m_j (codes : list CodeEntry) (i m j : Z) : list CodeEntry :=
  let e := read codes i in
  write codes i (mkCodeEntry (symbol e) (freq e) m j).

(** The inner loop: the pairs of total length [L], as long as entries remain. *)
Definition emit_cycles_of_length (K L : Z) (codes : list CodeEntry) (count : Z)
    : result (list CodeEntry * Z) :=
  '(codes, count, _) ←
    while (Z.to_nat L)
      (λ '(codes, count, m), (1 <=? m) && (count <? K))
      (λ '(codes, count, m),
         let j := L - m in
         Ok (set_m_j codes count m j, count + 1, m - 1))
      (codes, count, L - 1);
  Ok (codes, count).

Definition generate_cycles_for_codes (codes : list CodeEntry) (K : Z)
    : result (list CodeEntry) :=
  '(codes, count, _) ←
    while (Z.to_nat K)
      (λ '(codes, count, L), count <? K)
      (λ '(codes, count, L),
         '(codes, count) ← emit_cycles_of_length K L codes count;
         Ok (codes, count, L + 1))
      (codes, 0, 2);
  Ok codes.

(** ** Compression *)

Definition blank_entry : CodeEntry := mkCodeEntry 0 0 0 0.

(** One turn of the loop that builds the table of symbols with freq > 0. *)
Definition collect_symbol (freq_table : list Z) (st : list CodeEntry * Z)
    (c : Z) : list CodeEntry * Z :=
  let '(codes, K) := st in
  if 0 <? read freq_table c then
    (write codes K (mkCodeEntry (to_uchar c) (read freq_table c) 0 0), K + 1)
  else st.

(** Build the table of symbols with freq > 0. *)
Definition collect_symbols (freq_table : list Z) : list CodeEntry * Z :=
  foldl (collect_symbol freq_table)
        (replicate (Z.to_nat ALPHABET_SIZE) blank_entry, 0)
        (seqZ 0 ALPHABET_SIZE).

(** Build LUT: symbol -> index in codes. *)
Definition build_lut (codes : list CodeEntry) (K : Z) : list Z :=
  let lut := replicate (Z.to_nat ALPHABET_SIZE) (-1) in
  foldl (λ lut i, write lut (symbol (read codes i)) i) lut (seqZ 0 K).

(** Write bit payload. *)
Definition write_payload (text : list Z) (lut : list Z)
    (codes : list CodeEntry) (bw : BitWriter) : result BitWriter :=
  let len := strlen text in
  for_range 0 len
    (λ i bw,
       let c := to_uchar (read text i) in
       let idx := read lut c in
       if idx <? 0 then Exit 1 SymbolNotInLUT
       else Ok (bw_put_cycle bw (code_m (read codes idx))
                                (code_j (read codes idx))))
    bw.

(** Build final buffer: [K][symbols][payload bits]. *)
Definition build_buffer (codes : list CodeEntry) (K : Z) (bw : BitWriter)
    : list Z * Z :=
  let header_size := 1 + K in
  let out_size := header_size + size bw in
  let out_data := replicate (Z.to_nat out_size) 0 in
  let out_data := write out_data 0 (to_uchar K) in
  let out_data :=
    foldl (λ out_data i, write out_data (1 + i) (symbol (read codes i)))
          out_data (seqZ 0 K) in
  let out_data := memcpy out_data header_size (data bw) (size bw) in
  (out_data, out_size).

(** The body of [compress_cycle_based] after the frequency count. *)
Definition compress_with_freq (text : list Z) (freq_table : list Z)
    : result (list Z * Z) :=
  let '(codes, K) := collect_symbols freq_table in
  if K =? 0 then Ok ([], 0)
  else if 255 <? K then Exit 1 MoreThan255Symbols
  else
    let codes := qsort codes K in
    codes ← generate_cycles_for_codes codes K;
    let lut := build_lut codes K in
    bw ← write_payload text lut codes (bw_init 64);
    Ok (build_buffer codes K bw).

(** [compress_cycle_based text] answers the buffer and its size; the empty
    list stands for the [NULL] buffer of the empty text. *)
Definition compress_cycle_based (text : list Z) : result (list Z * Z) :=
  let freq_table := replicate (Z.to_nat ALPHABET_SIZE) 0 in
  let freq_table := count_character_frequency text freq_table in
  compress_with_freq text freq_table.

(** ** Decompression *)

(** The bit the decoder reads at [bit_index]. *)
Definition payload_bit (payload : list Z) (bit_index : Z) : Z :=
  let byte_idx := Z.quot bit_index 8 in
  let bit_in_byte := Z.rem bit_index 8 in
  Z.land (Z.shiftr (read payload byte_idx) (7 - bit_in_byte)) 1.

(** Phase A: count zeros until the first 1.  State: bit_index, m, j and
    whether the loop was left through [break]. *)
Definition count_zeros (payload : list Z) (payload_bytes : Z)
    (bit_index : Z) : result (Z * Z * Z * bool) :=
  while (Z.to_nat (payload_bytes * 8 - bit_index))
    (λ '(bit_index, m, j, brk), negb brk && (bit_index <? payload_bytes * 8))
    (λ '(bit_index, m, j, brk),
       let bit := payload_bit payload bit_index in
       let bit_index := bit_index + 1 in
       if bit =? 0 then Ok (bit_index, m + 1, j, false)
       else Ok (bit_index, m, 1, true))
    (bit_index, 0, 0, false).

(** Phase B: count consecutive 1s. *)
Definition count_ones (payload : list Z) (payload_bytes : Z)
    (bit_index j : Z) : result (Z * Z * bool) :=
  while (Z.to_nat (payload_bytes * 8 - bit_index))
    (λ '(bit_index, j, brk), negb brk && (bit_index <? payload_bytes * 8))
    (λ '(bit_index, j, brk),
       let bit := payload_bit payload bit_index in
       if bit =? 1 then Ok (bit_index + 1, j + 1, false)
       else Ok (bit_index, j, true))
    (bit_index, j, false).

(** The search of (m, j) in the code table; -1 when it is absent. *)
Fixpoint find_code (codes : list CodeEntry) (m j : Z) (idx : list Z) : Z :=
  match idx with
  | [] => -1
  | i :: idx' =>
      if (code_m (read codes i) =? m) && (code_j (read codes i) =? j) then i
      else find_code codes m j idx'
  end.

(** State of the decoding loop. *)
Record DecodeState : Type := mkDecodeState {
  ds_bit_index : Z;
  ds_out_pos : Z;
  ds_out_text : list Z;
  ds_break : bool;
  ds_stderr : option stderr_msg
}.

(** The two-phase scan of one cycle: the new bit index, m and j; j = 0
    tells a stream that ended before any 1. *)
Definition scan_cycle (payload : list Z) (payload_bytes : Z) (bit_index : Z)
    : result (Z * Z * Z) :=
  '(bit_index, m, j, _) ← count_zeros payload payload_bytes bit_index;
  if j =? 0 then Ok (bit_index, m, j)
  else
    '(bit_index, j, _) ← count_ones payload payload_bytes bit_index j;
    Ok (bit_index, m, j).

Definition decode_one (codes : list CodeEntry) (K : Z) (payload : list Z)
    (payload_bytes : Z) (st : DecodeState) : result DecodeState :=
  '(bit_index, m, j) ← scan_cycle payload payload_bytes (ds_bit_index st);
  if j =? 0 then
    Ok (mkDecodeState bit_index (ds_out_pos st) (ds_out_text st) true
                      (ds_stderr st))
  else
    let found := find_code codes m j (seqZ 0 K) in
    if found <? 0 then
      Ok (mkDecodeState bit_index (ds_out_pos st) (ds_out_text st) true
                        (Some (PairNotFound m j)))
    else
      Ok (mkDecodeState bit_index (ds_out_pos st + 1)
            (write (ds_out_text st) (ds_out_pos st)
                   (symbol (read codes found)))
            false (ds_stderr st)).

(** Recover symbols. *)
Definition recover_symbols (comp_data : list Z) (K : Z) : list CodeEntry :=
  let codes := replicate (Z.to_nat ALPHABET_SIZE) blank_entry in
  foldl (λ codes i,
           write codes i (mkCodeEntry (read comp_data (1 + i)) 0 0 0))
        codes (seqZ 0 K).

(** The condition of the decoding loop; a [break] also leaves it. *)
Definition decode_cond (payload_bytes original_len : Z) (st : DecodeState)
    : bool :=
  negb (ds_break st)
  && (ds_out_pos st <? original_len)
  && (ds_bit_index st <? payload_bytes * 8).

(** [decompress_cycle_based comp_data comp_size original_len out_text]
    answers the caller's buffer [out_text] as the call leaves it, and what
    was printed on [stderr]. *)
Definition decompress_cycle_based (comp_data : list Z) (comp_size : Z)
    (original_len : Z) (out_text : list Z)
    : result (list Z * option stderr_msg) :=
  if comp_size <=? 0 then Ok (write out_text 0 0, None)
  else
    let K := read comp_data 0 in
    if (K <=? 0) || (comp_size <? 1 + K) then
      Ok (write out_text 0 0, Some InvalidCompressedData)
    else
      let codes := recover_symbols comp_data K in
      codes ← generate_cycles_for_codes codes K;
      let payload := drop (Z.to_nat (1 + K)) comp_data in
      let payload_bytes := comp_size - (1 + K) in
      st ← while (Z.to_nat (payload_bytes * 8))
             (decode_cond payload_bytes original_len)
             (decode_one codes K payload payload_bytes)
             (mkDecodeState 0 0 out_text false None);
      Ok (write (ds_out_text st) (ds_out_pos st) 0, ds_stderr st).

(** The C string held by a buffer: its bytes before the first NUL. *)
Fixpoint c_string (buf : list Z) : list Z :=
  match buf with
  | [] => []
  | c :: rest => if c =? 0 then [] else c :: c_string rest
  end.

(** ** Simple test *)

Definition MAX_SIZE_MESSAGE : Z := 1024.

(** The bytes of a string literal. *)
Definition bytes_of_string (s : string) : list Z :=
  (λ a, Z.of_N (Ascii.N_of_ascii a)) <$> list_ascii_of_string s.

(** The conversion of an [int] to [size_t], taken to be 64 bits wide. *)
Definition to_size_t (z : Z) : Z := z mod 2 ^ 64.

(** What [main] prints, line by line; the last two go to [stderr]. *)
Inductive printed : Type :=
  | FullOriginalLength (n : Z)        (* "Full original length: %zu bytes" *)
  | TruncatedTo (S : Z)               (* "=== Truncated to %d bytes ===" *)
  | Original (S : Z) (s : list Z)     (* "Original (first %d bytes): " and the quoted string *)
  | CompressedSize (n : Z)            (* "Compressed size: %d bytes" *)
  | Recovered (s : list Z)            (* "Recovered: " and the quoted string *)
  | TargetTooLarge (S max : Z)        (* "Target size %d exceeds MAX_SIZE_MESSAGE=%d" *)
  | Reported (msg : stderr_msg).      (* what the decoder prints *)

(** The state of [main]'s loop: what was printed so far, and the bytes that
    stand in the arrays [example] and [recovered]. *)
Record MainState : Type := mkMainState {
  ms_printed : list printed;
  ms_example : list Z;
  ms_recovered : list Z
}.

(** One turn of the loop over the target sizes, for the size [S]. *)
Definition main_turn (full_text : list Z) (full_len : Z) (S : Z)
    (st : MainState) : result MainState :=
  if full_len <? to_size_t S then Ok st
  else if MAX_SIZE_MESSAGE <=? S then
    Ok (mkMainState (ms_printed st ++ [TargetTooLarge S MAX_SIZE_MESSAGE])
                    (ms_example st) (ms_recovered st))
  else
    let example := memcpy (ms_example st) 0 full_text S in
    let example := write example S 0 in
    let out :=
      ms_printed st ++ [TruncatedTo S; Original S (c_string example)] in
    '(compressed, comp_size) ← compress_cycle_based example;
    let out := out ++ [CompressedSize comp_size] in
    '(recovered, err) ←
      decompress_cycle_based compressed comp_size S (ms_recovered st);
    let out :=
      out ++ match err with Some msg => [Reported msg] | None => [] end in
    Ok (mkMainState (out ++ [Recovered (c_string recovered)])
                    example recovered).

Definition full_text : list Z := bytes_of_string
  "In wireless sensor networks, the energy cost of transmitting a single byte is often far higher than the cost of executing hundreds or even thousands of local instructions. As a consequence, lightweight compression techniques are essential for extending device lifetime and reducing network congestion. A deterministic low-overhead compressor allows embedded devices to reduce traffic without adding excessive computational complexity to firmware. Modern IoT systems often operate under strict limitations: restricted memory, low clock frequencies, intermittent connectivity, and energy budgets that must last months or years. Under these conditions, traditional compression algorithms may introduce too much overhead or require dynamic structures that are unsuitable for constrained nodes. A predictable, prefix-free, cycle-based scheme provides a promising alternative by minimizing header cost and avoiding the reconstruction of probability models during decoding.".

Definition target_sizes : list Z := [32; 64; 128; 256; 512].

(** [main], entered with any bytes in the arrays [example] and [recovered]:
    what it prints and the status it returns. *)
Definition main (example recovered : list Z) : result (list printed * Z) :=
  let full_len := strlen full_text in
  let num_sizes := Z.of_nat (length target_sizes) in
  st ← for_range 0 num_sizes
         (λ t st, main_turn full_text full_len (read target_sizes t) st)
         (mkMainState [FullOriginalLength full_len] example recovered);
  Ok (ms_printed st, 0).

(** ** Specification-side definitions

    What follows is not code of the program: the enumeration as the
    specification words it, and the predicates and measures the theorems
    are stated with. *)

(** The canonical enumeration, following the words of the specification:
    for L = 2, 3, 4, ...: for m = L-1 downTo 1: j = L - m; emit (m, j). *)
Definition cycles_of_length (L : Z) : list (Z * Z) :=
  (λ m, (m, L - m)) <$> reverse (seqZ 1 (L - 1)).

(** All the pairs of total length 2, 3, ..., L - 1. *)
Definition cycles_below (L : Z) : list (Z * Z) :=
  seqZ 2 (L - 2) ≫= cycles_of_length.

(** The first K pairs; the lengths 2 .. K+1 hold at least K of them. *)
Definition canonical_cycles (K : Z) : list (Z * Z) :=
  take (Z.to_nat K) (cycles_below (K + 2)).

(** The pair of an entry, and a table whose first entries carry given pairs. *)
Definition cycle_of (e : CodeEntry) : Z * Z := (code_m e, code_j e).

Fixpoint assign_cycles (ps : list (Z * Z)) (codes : list CodeEntry)
    : list CodeEntry :=
  match ps, codes with
  | p :: ps', e :: codes' =>
      mkCodeEntry (symbol e) (freq e) p.1 p.2 :: assign_cycles ps' codes'
  | _, _ => codes
  end.

(** The pairs of total length L with m from L-1 down to m+1: what the inner
    loop of the generator has emitted when its counter stands at m. *)
Definition cycles_above (L m : Z) : list (Z * Z) :=
  (λ m', (m', L - m')) <$> reverse (seqZ (m + 1) (L - 1 - m)).

(** The bits of a cycle, of a bit string read at an index (0 past its end),
    and the bit the decoder extracts from one byte. *)
Definition cycle_bits (p : Z * Z) : list bool :=
  replicate (Z.to_nat p.1) false ++ replicate (Z.to_nat p.2) true.

Definition bit_of (bits : list bool) (i : Z) : Z :=
  match bits !! Z.to_nat i with Some true => 1 | _ => 0 end.

Definition byte_bit (x q : Z) : Z := Z.land (Z.shiftr x (7 - q)) 1.

(** Opening the byte that takes the next bit: the first two tests of
    [bw_put_bit]. *)
Definition bw_open (bw : BitWriter) : BitWriter :=
  let bw :=
    if (size bw =? 0) && (bit_pos bw =? 0) then
      let bw := bw_ensure_space bw in
      mkBitWriter (write (data bw) 0 0) (capacity bw) 1 (bit_pos bw)
    else bw in
  if bit_pos bw =? 8 then
    let bw := bw_ensure_space bw in
    mkBitWriter (write (data bw) (size bw) 0) (capacity bw) (size bw + 1) 0
  else bw.

(** What a [BitWriter] holds after the bits [bits] were put into it. *)
Record bw_holds (bw : BitWriter) (bits : list bool) : Prop := mk_bw_holds {
  bwh_capacity : capacity bw = Z.of_nat (length (data bw));
  bwh_size : size bw = (Z.of_nat (length bits) + 7) / 8;
  bwh_fits : size bw ≤ capacity bw;
  bwh_bit_pos :
    bit_pos bw =
      if Z.of_nat (length bits) =? 0 then 0
      else Z.of_nat (length bits) - 8 * (size bw - 1);
  bwh_bits :
    ∀ i, 0 ≤ i < 8 * size bw → payload_bit (data bw) i = bit_of bits i
}.

(** A cycle 0^m 1^j stands in the payload at bit [s]: m zeros, j ones, then
    a zero or the end of the payload. *)
Definition cycle_at (payload : list Z) (payload_bytes s m j : Z) : Prop :=
  0 ≤ s ∧ 0 ≤ m ∧ 1 ≤ j ∧ s + m + j ≤ payload_bytes * 8 ∧
  Forall (λ t, payload_bit payload (s + t) = 0) (seqZ 0 m) ∧
  Forall (λ t, payload_bit payload (s + t) = 1) (seqZ m j) ∧
  (s + m + j < payload_bytes * 8 → payload_bit payload (s + m + j) = 0).

(** The cycles [ps] stand in the payload one after the other from bit [s]. *)
Fixpoint cycles_at (payload : list Z) (payload_bytes s : Z)
    (ps : list (Z * Z)) : Prop :=
  match ps with
  | [] => True
  | p :: ps' =>
      cycle_at payload payload_bytes s p.1 p.2 ∧
      cycles_at payload payload_bytes (s + p.1 + p.2) ps'
  end.

(** The symbols the decoder writes for the cycles [ps]. *)
Definition symbols_of (codes : list CodeEntry) (K : Z) (ps : list (Z * Z))
    : list Z :=
  (λ p, symbol (read codes (find_code codes p.1 p.2 (seqZ 0 K)))) <$> ps.

(** The two-phase scan run [n] times in a row: the pairs it recovers. *)
Fixpoint scan_cycles (n : nat) (payload : list Z) (payload_bytes s : Z)
    : result (list (Z * Z)) :=
  match n with
  | O => Ok []
  | Datatypes.S n' =>
      '(s', m, j) ← scan_cycle payload payload_bytes s;
      ps ← scan_cycles n' payload payload_bytes s';
      Ok ((m, j) :: ps)
  end.

(** How often a byte occurs in a message, and the message's distinct bytes. *)
Definition occurrences (c : Z) (msg : list Z) : Z :=
  Z.of_nat (length (filter (λ x, x = c) msg)).

Definition distinct_bytes (msg : list Z) : list Z := remove_dups msg.

(** The table the decoder works with: the symbols of the header, the
    canonical pairs. *)
Definition decoder_table (comp_data : list Z) (K : Z) : list CodeEntry :=
  assign_cycles (canonical_cycles K) (recover_symbols comp_data K).

(** The pair of rank [r] among [K]. *)
Definition rank_cycle (K r : Z) : Z * Z := canonical_cycles K !!! Z.to_nat r.

(** The entries the compressor collects from a frequency table, looking at
    the byte values [cs]. *)
Definition entries_of (freq_table : list Z) (cs : list Z) : list CodeEntry :=
  (λ c, mkCodeEntry c (read freq_table c) 0 0)
    <$> filter (λ c, 0 < read freq_table c) cs.

(** Rank order on symbols: more occurrences first, ties by symbol value. *)
Definition rank_before (msg : list Z) (a b : Z) : Prop :=
  occurrences b msg < occurrences a msg
  ∨ (occurrences a msg = occurrences b msg ∧ a < b).

(** The position of a byte in a list of symbols. *)
Fixpoint index_of (c : Z) (syms : list Z) : Z :=
  match syms with
  | [] => 0
  | x :: syms' => if x =? c then 0 else 1 + index_of c syms'
  end.

(** The order of the enumeration: by total length, then by decreasing m. *)
Definition cycle_lt (p q : Z * Z) : Prop :=
  p.1 + p.2 < q.1 + q.2 ∨ (p.1 + p.2 = q.1 + q.2 ∧ q.1 < p.1).

(** The range of a C [int] on the platforms the program is built for
    (32 bits, two's complement): the constants of [limits.h]. *)
Definition INT_MAX : Z := 2147483647.
Definition INT_MIN : Z := -2147483648.

(** What one turn of [main] prints when the recovered text is the truncated
    original. *)
Definition report (text : list Z) (S comp_size : Z) : list printed :=
  [TruncatedTo S; Original S (take (Z.to_nat S) text);
   CompressedSize comp_size; Recovered (take (Z.to_nat S) text)].

(** ** Generic facts: loops and arrays *)

Section loops.
Context {S : Type}.

(** The invariant-and-variant rule for [while]. *)
Lemma while_rule (Inv : S → Prop) (V : S → nat) (cond : S → bool)
    (body : S → result S) :
  (∀ s, Inv s → cond s = true →
     ∃ s', body s = Ok s' ∧ Inv s' ∧ (V s' < V s)%nat) →
  ∀ fuel s, Inv s → (V s ≤ fuel)%nat →
    ∃ s', while fuel cond body s = Ok s' ∧ Inv s' ∧ cond s' = false.
Proof.
  intros Hstep fuel. induction fuel as [|fuel IH]; intros s Hs Hv.
  - simpl. destruct (cond s) eqn:Hc.
    + destruct (Hstep s Hs Hc) as (s' & _ & _ & Hlt). lia.
    + eauto.
  - simpl. destruct (cond s) eqn:Hc.
    + destruct (Hstep s Hs Hc) as (s' & -> & Hs' & Hlt). simpl.
      apply IH; [done | lia].
    + eauto.
Qed.

Lemma while_step fuel (cond : S → bool) body s s' :
  cond s = true → body s = Ok s' →
  while (Datatypes.S fuel) cond body s = while fuel cond body s'.
Proof. intros Hc Hb. simpl. by rewrite Hc, Hb. Qed.

Lemma while_done fuel (cond : S → bool) body s :
  cond s = false → while fuel cond body s = Ok s.
Proof. intros Hc. destruct fuel; simpl; by rewrite Hc. Qed.

Lemma for_each_fmap (h : Z → S → result S) (g : Z → Z) idx (s : S) :
  for_each (λ i s, h (g i) s) idx s = for_each h (g <$> idx) s.
Proof.
  revert s. induction idx as [|i idx IH]; intros s; simpl; [done|].
  destruct (h (g i) s); simpl; auto.
Qed.

Lemma for_each_ok_in (h : Z → S → result S) (f : S → Z → S) idx (s : S) :
  Forall (λ i, ∀ s, h i s = Ok (f s i)) idx →
  for_each h idx s = Ok (foldl f s idx).
Proof.
  intros Hall. revert s. induction Hall as [|i idx Hi _ IH]; intros s; simpl;
    [done|].
  rewrite Hi. simpl. apply IH.
Qed.
End loops.

Section arrays.
Context {A : Type} `{Inhabited A}.
Implicit Types (a : list A) (i j : Z) (v : A).

Lemma length_write a i v : length (write a i v) = length a.
Proof. apply length_insert. Qed.

Lemma lookup_read a i :
  0 ≤ i < Z.of_nat (length a) → a !! Z.to_nat i = Some (read a i).
Proof. intros Hi. apply list_lookup_lookup_total_lt. lia. Qed.

Lemma read_write_eq a i v :
  0 ≤ i < Z.of_nat (length a) → read (write a i v) i = v.
Proof. intros Hi. apply list_lookup_total_insert_eq. lia. Qed.

Lemma read_write_ne a i j v :
  0 ≤ i → 0 ≤ j → i ≠ j → read (write a i v) j = read a j.
Proof. intros Hi Hj Hne. apply list_lookup_total_insert_ne. lia. Qed.

Lemma read_app_l a1 a2 i :
  0 ≤ i < Z.of_nat (length a1) → read (a1 ++ a2) i = read a1 i.
Proof. intros Hi. apply lookup_total_app_l. lia. Qed.

Lemma read_app_r a1 a2 i :
  Z.of_nat (length a1) ≤ i →
  read (a1 ++ a2) i = read a2 (i - Z.of_nat (length a1)).
Proof.
  intros Hi. unfold read. rewrite lookup_total_app_r by lia.
  f_equal. lia.
Qed.

Lemma write_app_r a1 a2 i v :
  Z.of_nat (length a1) ≤ i →
  write (a1 ++ a2) i v = a1 ++ write a2 (i - Z.of_nat (length a1)) v.
Proof.
  intros Hi. unfold write. rewrite insert_app_r_alt by lia.
  do 2 f_equal. lia.
Qed.

Lemma write_next (decoded out0 : list A) x :
  (length decoded < length out0)%nat →
  write (decoded ++ drop (length decoded) out0) (Z.of_nat (length decoded)) x
  = (decoded ++ [x]) ++ drop (length (decoded ++ [x])) out0.
Proof.
  intros Hlen. rewrite write_app_r, Z.sub_diag by lia.
  destruct (lookup_lt_is_Some_2 out0 (length decoded) Hlen) as [y Hy].
  rewrite (drop_S _ _ _ Hy). unfold write. simpl.
  rewrite <- app_assoc, length_app. simpl.
  by rewrite Nat.add_1_r.
Qed.

(** A loop that fills the cells [off], [off + 1], ... in turn. *)
Lemma foldl_write_seqZ (g : Z → Z) (f : Z → A) a (off : Z) (n : nat) :
  (∀ i, g i = off + i) →
  0 ≤ off → off + Z.of_nat n ≤ Z.of_nat (length a) →
  foldl (λ a i, write a (g i) (f i)) a (seqZ 0 (Z.of_nat n))
  = take (Z.to_nat off) a ++ (f <$> seqZ 0 (Z.of_nat n))
      ++ drop (Z.to_nat off + n) a.
Proof.
  intros Hg Hoff. induction n as [|n IH]; intros Hlen.
  - simpl. by rewrite Nat.add_0_r, take_drop.
  - rewrite seqZ_S, foldl_snoc, fmap_app, IH by lia. simpl.
    rewrite Hg.
    assert (Hn : (Z.to_nat off + n < length a)%nat) by lia.
    destruct (lookup_lt_is_Some_2 a _ Hn) as [y Hy].
    rewrite (drop_S _ _ _ Hy).
    rewrite write_app_r by (rewrite length_take; lia).
    rewrite write_app_r.
    2: { rewrite length_take, length_fmap, length_seqZ. lia. }
    rewrite length_take, length_fmap, length_seqZ.
    replace (off + (0 + Z.of_nat n) - Z.of_nat (Z.to_nat off `min` length a)
             - Z.of_nat (Z.to_nat (Z.of_nat n))) with 0 by lia.
    unfold write. simpl. rewrite <- !app_assoc. simpl.
    by replace (Z.to_nat off + S n)%nat with (S (Z.to_nat off + n)) by lia.
Qed.

(** Reading a stretch of an array cell by cell gives the stretch. *)
Lemma fmap_read_seqZ (g : Z → Z) (pre a suf : list A) :
  (∀ i, g i = Z.of_nat (length pre) + i) →
  (λ i, read (pre ++ a ++ suf) (g i)) <$> seqZ 0 (Z.of_nat (length a)) = a.
Proof.
  intros Hg. apply list_eq. intros n. rewrite list_lookup_fmap.
  destruct (decide (n < length a)%nat) as [Hn|Hn].
  - rewrite lookup_seqZ_lt by lia. simpl. rewrite Hg.
    rewrite read_app_r by lia. rewrite read_app_l by lia.
    symmetry. rewrite <- (Nat2Z.id n) at 1.
    replace (Z.of_nat (length pre) + (0 + Z.of_nat n) - Z.of_nat (length pre))
      with (Z.of_nat n) by lia.
    apply lookup_read. lia.
  - rewrite lookup_seqZ_ge by lia. simpl. symmetry. apply lookup_ge_None. lia.
Qed.
End arrays.

(** ** The code table *)

Section code_table.
Implicit Types (ps qs : list (Z * Z)) (codes : list CodeEntry) (K L m : Z).

Lemma length_assign_cycles ps codes :
  length (assign_cycles ps codes) = length codes.
Proof.
  revert codes. induction ps as [|p ps IH]; intros [|e codes]; simpl; auto.
Qed.

Lemma assign_cycles_snoc ps codes m j :
  Z.of_nat (length ps) < Z.of_nat (length codes) →
  set_m_j (assign_cycles ps codes) (Z.of_nat (length ps)) m j
  = assign_cycles (ps ++ [(m, j)]) codes.
Proof.
  unfold set_m_j, read, write. rewrite Nat2Z.id.
  revert codes. induction ps as [|p ps IH]; intros [|e codes] Hlen;
    simpl in *; try lia.
  - done.
  - f_equal. apply IH. lia.
Qed.

Lemma cycles_above_start L : cycles_above L (L - 1) = [].
Proof. unfold cycles_above. by rewrite seqZ_nil by lia. Qed.

Lemma cycles_above_step L m :
  1 ≤ m ≤ L - 1 →
  cycles_above L (m - 1) = cycles_above L m ++ [(m, L - m)].
Proof.
  intros Hm. unfold cycles_above.
  rewrite (seqZ_cons (m - 1 + 1)) by lia.
  rewrite reverse_cons, fmap_app. simpl.
  replace (Z.succ (m - 1 + 1)) with (m + 1) by lia.
  replace (Z.pred (L - 1 - (m - 1))) with (L - 1 - m) by lia.
  by replace (m - 1 + 1) with m by lia.
Qed.

Lemma cycles_above_end L : cycles_above L 0 = cycles_of_length L.
Proof.
  unfold cycles_above, cycles_of_length.
  by replace (L - 1 - 0) with (L - 1) by lia.
Qed.

Lemma cycles_above_prefix L m :
  0 ≤ m ≤ L - 1 → cycles_above L m `prefix_of` cycles_of_length L.
Proof.
  intros Hm. unfold cycles_above, cycles_of_length.
  exists ((λ m', (m', L - m')) <$> reverse (seqZ 1 m)).
  rewrite <- fmap_app, <- reverse_app. do 2 f_equal.
  replace (L - 1) with (m + (L - 1 - m)) at 1 by lia.
  rewrite seqZ_app by lia. do 2 f_equal. lia.
Qed.

Lemma cycles_below_succ L :
  2 ≤ L → cycles_below (L + 1) = cycles_below L ++ cycles_of_length L.
Proof.
  intros HL. unfold cycles_below.
  replace (L + 1 - 2) with ((L - 2) + 1) by lia.
  rewrite seqZ_app by lia. rewrite bind_app.
  replace (2 + (L - 2)) with L by lia.
  change (seqZ L 1) with [0 + L]. by rewrite bind_singleton.
Qed.

Lemma length_cycles_of_length L : length (cycles_of_length L) = Z.to_nat (L - 1).
Proof.
  unfold cycles_of_length. by rewrite length_fmap, length_reverse, length_seqZ.
Qed.

Lemma cycles_below_2 : cycles_below 2 = [].
Proof. reflexivity. Qed.

Lemma cycles_below_add L (n : nat) :
  2 ≤ L → cycles_below L `prefix_of` cycles_below (L + Z.of_nat n).
Proof.
  intros HL. induction n as [|n IH].
  - by rewrite Z.add_0_r.
  - replace (L + Z.of_nat (S n)) with (L + Z.of_nat n + 1) by lia.
    rewrite cycles_below_succ by lia.
    by apply prefix_app_r.
Qed.

Lemma cycles_below_mono L L' :
  2 ≤ L ≤ L' → cycles_below L `prefix_of` cycles_below L'.
Proof.
  intros HL. replace L' with (L + Z.of_nat (Z.to_nat (L' - L))) by lia.
  apply cycles_below_add. lia.
Qed.

Lemma length_cycles_below_ge (n : nat) :
  (n ≤ length (cycles_below (2 + Z.of_nat n)))%nat.
Proof.
  induction n as [|n IH]; [simpl; lia|].
  replace (2 + Z.of_nat (S n)) with (2 + Z.of_nat n + 1) by lia.
  rewrite cycles_below_succ, length_app, length_cycles_of_length by lia. lia.
Qed.

Lemma take_prefix_of {A} (l1 l2 : list A) (n : nat) :
  l1 `prefix_of` l2 → (n ≤ length l1)%nat → take n l2 = take n l1.
Proof. intros [k ->] Hn. by rewrite take_app_le. Qed.

(** Any stage of the enumeration that holds K pairs starts with the
    canonical ones. *)
Lemma take_cycles_below K L :
  2 ≤ L → (Z.to_nat K ≤ length (cycles_below L))%nat →
  take (Z.to_nat K) (cycles_below L) = canonical_cycles K.
Proof.
  intros HL Hlen. unfold canonical_cycles.
  destruct (decide (0 ≤ K)) as [HK0|HK0];
    [|by replace (Z.to_nat K) with 0%nat by lia].
  assert (Hc : (Z.to_nat K ≤ length (cycles_below (K + 2)))%nat).
  { destruct (decide (0 ≤ K)) as [HK|HK]; [|lia].
    pose proof (length_cycles_below_ge (Z.to_nat K)) as Hge.
    replace (2 + Z.of_nat (Z.to_nat K)) with (K + 2) in Hge by lia. done. }
  destruct (decide (L ≤ K + 2)) as [Hle|Hgt].
  - symmetry. apply take_prefix_of; [apply cycles_below_mono; lia | done].
  - apply take_prefix_of; [apply cycles_below_mono; lia | done].
Qed.

Lemma length_canonical_cycles K :
  0 ≤ K → Z.of_nat (length (canonical_cycles K)) = K.
Proof.
  intros HK. unfold canonical_cycles. rewrite length_take.
  pose proof (length_cycles_below_ge (Z.to_nat K)) as Hge.
  replace (2 + Z.of_nat (Z.to_nat K)) with (K + 2) in Hge by lia. lia.
Qed.

Lemma emit_cycles_of_length_spec codes0 K L :
  2 ≤ L →
  Z.of_nat (length (cycles_below L)) < K ≤ Z.of_nat (length codes0) →
  let ps := take (Z.to_nat K) (cycles_below (L + 1)) in
  emit_cycles_of_length K L (assign_cycles (cycles_below L) codes0)
    (Z.of_nat (length (cycles_below L)))
  = Ok (assign_cycles ps codes0, Z.of_nat (length ps)).
Proof.
  intros HL HK ps. unfold emit_cycles_of_length.
  set (E := cycles_below L) in *.
  edestruct (while_rule
    (λ '(codes, count, m),
       0 ≤ m ≤ L - 1 ∧
       codes = assign_cycles (E ++ cycles_above L m) codes0 ∧
       count = Z.of_nat (length (E ++ cycles_above L m)) ∧ count ≤ K)
    (λ '(_, _, m), Z.to_nat m)) as ([[codes' count'] m'] & -> & Hinv & Hc).
  - intros [[codes count] m] (Hm & -> & -> & Hle) Hcond.
    apply andb_true_iff in Hcond as [Hm1 Hlt].
    apply Z.leb_le in Hm1. apply Z.ltb_lt in Hlt.
    eexists. split; [reflexivity|].
    rewrite assign_cycles_snoc by lia.
    rewrite cycles_above_step, app_assoc by lia.
    repeat split; try lia.
    rewrite (length_app _ [_]). simpl. lia.
  - simpl. rewrite cycles_above_start, app_nil_r. repeat split; lia.
  - simpl. lia.
  - simpl. destruct Hinv as (Hm & -> & -> & Hle).
    assert (Hps : ps = E ++ cycles_above L m'); [|by rewrite Hps].
    unfold ps. rewrite cycles_below_succ by lia. fold E.
    apply andb_false_iff in Hc as [Hc|Hc].
    + apply Z.leb_gt in Hc. replace m' with 0 by lia.
      rewrite cycles_above_end. apply take_ge.
      replace m' with 0 in Hle by lia. rewrite cycles_above_end in Hle. lia.
    + apply Z.ltb_ge in Hc.
      destruct (cycles_above_prefix L m') as [k Hk]; [lia|].
      rewrite Hk, app_assoc. apply take_app_length'. lia.
Qed.

Lemma generate_cycles_for_codes_spec codes K :
  K ≤ Z.of_nat (length codes) →
  generate_cycles_for_codes codes K
  = Ok (assign_cycles (canonical_cycles K) codes).
Proof.
  intros HK. unfold generate_cycles_for_codes.
  edestruct (while_rule
    (λ '(codes', count, L),
       2 ≤ L ∧
       codes' = assign_cycles (take (Z.to_nat K) (cycles_below L)) codes ∧
       count = Z.of_nat (length (take (Z.to_nat K) (cycles_below L))))
    (λ '(_, count, _), Z.to_nat (K - count)))
    as ([[codes' count'] L'] & -> & Hinv & Hc).
  - intros [[codes' count] L] (HL & -> & ->) Hcond.
    apply Z.ltb_lt in Hcond. rewrite length_take in Hcond.
    rewrite take_ge by lia.
    rewrite emit_cycles_of_length_spec by lia. simpl.
    eexists. split; [reflexivity|]. split; [auto with lia|].
    rewrite length_take, cycles_below_succ, length_app,
      length_cycles_of_length by lia. lia.
  - simpl. by rewrite cycles_below_2, take_nil.
  - simpl. lia.
  - simpl. destruct Hinv as (HL & -> & ->). apply Z.ltb_ge in Hc.
    rewrite length_take in Hc. rewrite take_cycles_below by lia. done.
Qed.
Lemma StronglySorted_lookup {A} (R : relation A) (l : list A) (i j : nat) x y :
  StronglySorted R l → l !! i = Some x → l !! j = Some y → (i < j)%nat → R x y.
Proof.
  intros Hl. revert i j. induction Hl as [|z l Hl IH Hz]; intros i j Hi Hj Hij.
  - done.
  - destruct j as [|j]; [lia|]. destruct i as [|i]; simpl in *.
    + simplify_eq. rewrite Forall_forall in Hz. eapply Hz, list_elem_of_lookup_2, Hj.
    + eapply IH; eauto with lia.
Qed.

Lemma elem_of_cycles_above L m p :
  p ∈ cycles_above L m ↔ m < p.1 ≤ L - 1 ∧ p.2 = L - p.1.
Proof.
  unfold cycles_above. rewrite list_elem_of_fmap. split.
  - intros (m' & -> & Hm'). apply elem_of_reverse, elem_of_seqZ in Hm'.
    simpl. lia.
  - intros [Hm Hp]. exists p.1. split.
    + destruct p; simpl in *; by subst.
    + apply elem_of_reverse, elem_of_seqZ. lia.
Qed.

Lemma elem_of_cycles_of_length L p :
  p ∈ cycles_of_length L ↔ 1 ≤ p.1 ≤ L - 1 ∧ p.2 = L - p.1.
Proof. rewrite <- cycles_above_end, elem_of_cycles_above. lia. Qed.

Lemma elem_of_cycles_below L p :
  p ∈ cycles_below L ↔ 1 ≤ p.1 ∧ 1 ≤ p.2 ∧ p.1 + p.2 < L.
Proof.
  unfold cycles_below. rewrite list_elem_of_bind. split.
  - intros (L' & Hp & HL'). apply elem_of_cycles_of_length in Hp.
    apply elem_of_seqZ in HL'. lia.
  - intros Hp. exists (p.1 + p.2). split.
    + apply elem_of_cycles_of_length. lia.
    + apply elem_of_seqZ. lia.
Qed.

Lemma cycles_above_sorted L m :
  0 ≤ m → StronglySorted cycle_lt (cycles_above L m).
Proof.
  intros Hm. destruct (decide (m ≤ L - 1)) as [Hle|Hgt].
  2: { unfold cycles_above. rewrite seqZ_nil by lia. constructor. }
  replace m with (L - 1 - Z.of_nat (Z.to_nat (L - 1 - m))) by lia.
  assert (Hn : Z.of_nat (Z.to_nat (L - 1 - m)) ≤ L - 1) by lia.
  revert Hn. generalize (Z.to_nat (L - 1 - m)) as n. clear.
  induction n as [|n IH]; intros Hn.
  - rewrite Z.sub_0_r, cycles_above_start. constructor.
  - replace (L - 1 - Z.of_nat (S n)) with (L - 1 - Z.of_nat n - 1) by lia.
    rewrite cycles_above_step by lia.
    apply StronglySorted_app_2; [|apply IH; lia|repeat constructor].
    intros p q Hp Hq. apply elem_of_cycles_above in Hp.
    apply list_elem_of_singleton in Hq as ->. unfold cycle_lt. simpl. lia.
Qed.

Lemma cycles_below_sorted L : StronglySorted cycle_lt (cycles_below L).
Proof.
  destruct (decide (2 ≤ L)) as [HL|HL].
  2: { unfold cycles_below. rewrite seqZ_nil by lia. constructor. }
  replace L with (2 + Z.of_nat (Z.to_nat (L - 2))) by lia.
  generalize (Z.to_nat (L - 2)) as n. clear.
  induction n as [|n IH]; [constructor|].
  replace (2 + Z.of_nat (S n)) with (2 + Z.of_nat n + 1) by lia.
  rewrite cycles_below_succ by lia.
  apply StronglySorted_app_2; [|done|].
  - intros p q Hp Hq. apply elem_of_cycles_below in Hp.
    apply elem_of_cycles_of_length in Hq. unfold cycle_lt. lia.
  - rewrite <- cycles_above_end. by apply cycles_above_sorted.
Qed.

Lemma canonical_cycles_sorted K : StronglySorted cycle_lt (canonical_cycles K).
Proof.
  unfold canonical_cycles.
  eapply StronglySorted_app_1_l. rewrite take_drop. apply cycles_below_sorted.
Qed.

Lemma canonical_cycles_positive K p :
  p ∈ canonical_cycles K → 1 ≤ p.1 ∧ 1 ≤ p.2.
Proof.
  intros Hp. unfold canonical_cycles in Hp.
  apply elem_of_take in Hp as (i & Hi & _).
  apply list_elem_of_lookup_2, elem_of_cycles_below in Hi. lia.
Qed.

Lemma cycle_lt_irrefl p : ¬ cycle_lt p p.
Proof. unfold cycle_lt. lia. Qed.

Lemma canonical_cycles_lookup_lt K (r1 r2 : nat) p q :
  canonical_cycles K !! r1 = Some p → canonical_cycles K !! r2 = Some q →
  (r1 < r2)%nat → cycle_lt p q.
Proof. apply StronglySorted_lookup, canonical_cycles_sorted. Qed.

Lemma canonical_cycles_NoDup K : NoDup (canonical_cycles K).
Proof.
  apply NoDup_alt. intros r1 r2 p H1 H2.
  destruct (Nat.lt_trichotomy r1 r2) as [Hlt|[?|Hlt]]; [|done|].
  - destruct (cycle_lt_irrefl p). eauto using canonical_cycles_lookup_lt.
  - destruct (cycle_lt_irrefl p). eauto using canonical_cycles_lookup_lt.
Qed.

(** The table after [assign_cycles]. *)
Lemma cycles_of_assign_cycles ps codes :
  (length ps ≤ length codes)%nat →
  cycle_of <$> take (length ps) (assign_cycles ps codes) = ps.
Proof.
  revert codes. induction ps as [|[m j] ps IH]; intros [|e codes] Hlen;
    simpl in *; try done; try lia.
  f_equal. apply IH. lia.
Qed.

Lemma symbols_of_assign_cycles ps codes :
  symbol <$> assign_cycles ps codes = symbol <$> codes.
Proof.
  revert codes. induction ps as [|p ps IH]; intros [|e codes]; simpl; try done.
  f_equal. apply IH.
Qed.

Lemma canonical_cycles_read codes K r :
  K ≤ Z.of_nat (length codes) → 0 ≤ r < K →
  canonical_cycles K !! Z.to_nat r
  = Some (cycle_of (read (assign_cycles (canonical_cycles K) codes) r)).
Proof.
  intros HK Hr.
  pose proof (length_canonical_cycles K ltac:(lia)) as Hlen.
  pose proof (cycles_of_assign_cycles (canonical_cycles K) codes
                ltac:(lia)) as Hcyc.
  apply (f_equal (.!! Z.to_nat r)) in Hcyc. rewrite <- Hcyc.
  rewrite list_lookup_fmap, lookup_take_lt by lia.
  rewrite lookup_read; [done|]. rewrite length_assign_cycles. lia.
Qed.

End code_table.

(** ** The bit writer *)

Section bits.
Implicit Types (bits : list bool) (bw : BitWriter) (x p q i : Z).

Lemma byte_bit_testbit x q :
  0 ≤ q ≤ 7 → byte_bit x q = Z.b2z (Z.testbit x (7 - q)).
Proof.
  intros Hq. unfold byte_bit. change 1 with (Z.ones 1).
  rewrite Z.land_ones by lia. change (2 ^ 1) with 2.
  rewrite <- Z.bit0_mod, Z.shiftr_spec by lia. done.
Qed.

Lemma byte_bit_0 q : byte_bit 0 q = 0.
Proof. unfold byte_bit. by rewrite Z.shiftr_0_l. Qed.

Lemma byte_bit_set x p q :
  0 ≤ p ≤ 7 → 0 ≤ q ≤ 7 →
  byte_bit (to_uchar (Z.lor x (Z.shiftl 1 (7 - p)))) q
  = if q =? p then 1 else byte_bit x q.
Proof.
  intros Hp Hq. rewrite !byte_bit_testbit by done. unfold to_uchar.
  change 256 with (2 ^ 8). rewrite Z.mod_pow2_bits_low by lia.
  rewrite Z.lor_spec, Z.shiftl_1_l, Z.pow2_bits_eqb by lia.
  destruct (Z.eqb_spec q p) as [->|Hne].
  - rewrite Z.eqb_refl, orb_true_r. done.
  - destruct (Z.eqb_spec (7 - p) (7 - q)); [lia|]. by rewrite orb_false_r.
Qed.

Lemma payload_bit_eq (payload : list Z) i :
  0 ≤ i → payload_bit payload i = byte_bit (read payload (i / 8)) (i mod 8).
Proof.
  intros Hi. unfold payload_bit, byte_bit.
  by rewrite Z.quot_div_nonneg, Z.rem_mod_nonneg by lia.
Qed.

Lemma bit_of_app_l bits1 bits2 i :
  0 ≤ i < Z.of_nat (length bits1) → bit_of (bits1 ++ bits2) i = bit_of bits1 i.
Proof. intros Hi. unfold bit_of. by rewrite lookup_app_l by lia. Qed.

Lemma bit_of_app_r bits1 bits2 i :
  Z.of_nat (length bits1) ≤ i →
  bit_of (bits1 ++ bits2) i = bit_of bits2 (i - Z.of_nat (length bits1)).
Proof.
  intros Hi. unfold bit_of. rewrite lookup_app_r by lia.
  by replace (Z.to_nat i - length bits1)%nat
    with (Z.to_nat (i - Z.of_nat (length bits1))) by lia.
Qed.

Lemma bit_of_ge bits i : Z.of_nat (length bits) ≤ i → bit_of bits i = 0.
Proof. intros Hi. unfold bit_of. by rewrite lookup_ge_None_2 by lia. Qed.

Lemma bit_of_snoc bits (b : bool) :
  bit_of (bits ++ [b]) (Z.of_nat (length bits)) = if b then 1 else 0.
Proof.
  rewrite bit_of_app_r, Z.sub_diag by lia. by destruct b.
Qed.

Lemma bw_init_holds cap : 0 ≤ cap → bw_holds (bw_init cap) [].
Proof.
  intros Hcap. split; simpl; try done; try lia.
  rewrite length_replicate. lia.
Qed.

Lemma bw_ensure_space_data bw :
  capacity bw = Z.of_nat (length (data bw)) → 0 ≤ size bw ≤ capacity bw →
  let bw' := bw_ensure_space bw in
  capacity bw' = Z.of_nat (length (data bw')) ∧ size bw' = size bw ∧
  bit_pos bw' = bit_pos bw ∧ size bw < capacity bw' ∧
  ∀ k, 0 ≤ k < size bw → read (data bw') k = read (data bw) k.
Proof.
  intros Hcap Hsz. unfold bw_ensure_space.
  destruct (Z.leb_spec (capacity bw) (size bw)) as [Hle|Hlt]; simpl.
  - split_and!; try done.
    + rewrite length_app, length_replicate.
      destruct (Z.ltb_spec (capacity bw * 2) 16); lia.
    + destruct (Z.ltb_spec (capacity bw * 2) 16); lia.
    + intros k Hk. apply read_app_l. lia.
  - split_and!; try done.
Qed.

Lemma payload_bit_write_ne (d : list Z) k v i :
  0 ≤ i → 0 ≤ k → i / 8 ≠ k → payload_bit (write d k v) i = payload_bit d i.
Proof.
  intros Hi Hk Hne. rewrite !payload_bit_eq by done.
  rewrite read_write_ne; [done|lia|..]; try lia.
  apply Z.div_pos; lia.
Qed.

Lemma payload_bit_write_eq (d : list Z) k v i :
  0 ≤ i → 0 ≤ k < Z.of_nat (length d) → i / 8 = k →
  payload_bit (write d k v) i = byte_bit v (i mod 8).
Proof.
  intros Hi Hk Heq. rewrite payload_bit_eq by done. subst k.
  by rewrite read_write_eq.
Qed.

Lemma payload_bit_ext (d d' : list Z) i n :
  (∀ k, 0 ≤ k < n → read d' k = read d k) → 0 ≤ i < 8 * n →
  payload_bit d' i = payload_bit d i.
Proof.
  intros Hd Hi. rewrite !payload_bit_eq by lia. rewrite Hd; [done|].
  split; [apply Z.div_pos; lia | apply Z.div_lt_upper_bound; lia].
Qed.

Lemma bw_open_holds bw bits :
  bw_holds bw bits →
  let n := Z.of_nat (length bits) in
  let bw' := bw_open bw in
  capacity bw' = Z.of_nat (length (data bw')) ∧
  size bw' = n / 8 + 1 ∧ size bw' ≤ capacity bw' ∧
  bit_pos bw' = n mod 8 ∧
  ∀ i, 0 ≤ i < 8 * size bw' → payload_bit (data bw') i = bit_of bits i.
Proof.
  intros [Hcap Hsz Hfit Hpos Hbits] n bw'. fold n in Hsz, Hpos.
  assert (Hn : 0 ≤ n) by (unfold n; lia).
  destruct (bw_ensure_space_data bw Hcap) as (Hcap' & Hsz' & Hpos' & Hlt & Hrd).
  { split; [|done]. rewrite Hsz. apply Z.div_pos; lia. }
  unfold bw', bw_open.
  destruct (Z.eqb_spec n 0) as [Hn0|Hn0].
  - (* nothing written yet *)
    rewrite Hn0 in *. change ((0 + 7) / 8) with 0 in Hsz.
    rewrite Hsz, Hpos. simpl. rewrite Hpos', Hpos. simpl.
    rewrite length_write. split_and!; try done; try lia.
    intros i Hi. rewrite payload_bit_write_eq, byte_bit_0; try lia.
    + symmetry. apply bit_of_ge. lia.
    + apply Z.div_small. lia.
  - assert (Hsz1 : 1 ≤ size bw) by (rewrite Hsz; Z.div_mod_to_equations; lia).
    destruct (Z.eqb_spec (size bw) 0) as [?|_]; [lia|]. simpl.
    destruct (Z.eqb_spec (bit_pos bw) 8) as [Hp8|Hp8]; simpl.
    + (* the last byte is full *)
      rewrite length_write, Hsz'. split_and!; try done; try lia.
      * rewrite Hsz. Z.div_mod_to_equations; lia.
      * rewrite Hsz in Hpos. Z.div_mod_to_equations; lia.
      * intros i Hi. destruct (decide (i / 8 = size bw)) as [Heq|Hne].
        -- rewrite payload_bit_write_eq, byte_bit_0; try lia.
           symmetry. apply bit_of_ge. fold n.
           rewrite Hsz in Hpos, Heq. Z.div_mod_to_equations; lia.
        -- rewrite payload_bit_write_ne by lia.
           assert (0 ≤ i < 8 * size bw) by (Z.div_mod_to_equations; lia).
           rewrite (payload_bit_ext (data bw) _ i (size bw)) by done.
           by apply Hbits.
    + split_and!; try done.
      * rewrite Hsz in Hpos |- *. Z.div_mod_to_equations; lia.
      * rewrite Hsz in Hpos. Z.div_mod_to_equations; lia.
Qed.

Lemma bw_put_bit_open bw bit :
  bw_put_bit bw bit =
    let bw := bw_open bw in
    let bw :=
      if negb (bit =? 0) then
        mkBitWriter
          (write (data bw) (size bw - 1)
             (to_uchar (Z.lor (read (data bw) (size bw - 1))
                              (Z.shiftl 1 (7 - bit_pos bw)))))
          (capacity bw) (size bw) (bit_pos bw)
      else bw in
    mkBitWriter (data bw) (capacity bw) (size bw) (bit_pos bw + 1).
Proof. reflexivity. Qed.

Lemma bw_put_bit_holds bw bits bit :
  bw_holds bw bits → bw_holds (bw_put_bit bw bit) (bits ++ [negb (bit =? 0)]).
Proof.
  intros Hbw. rewrite bw_put_bit_open.
  destruct (bw_open_holds bw bits Hbw) as (Hcap & Hsz & Hfit & Hpos & Hbits).
  set (n := Z.of_nat (length bits)) in *.
  assert (Hn : 0 ≤ n) by (unfold n; lia).
  assert (Hlen : ∀ b : bool, Z.of_nat (length (bits ++ [b])) = n + 1).
  { intros b. rewrite length_app. simpl. lia. }
  generalize dependent (bw_open bw). intros bw1 Hcap Hsz Hfit Hpos Hbits.
  assert (Hbit : ∀ (b : bool) i, 0 ≤ i < 8 * size bw1 → i ≠ n →
            bit_of (bits ++ [b]) i = bit_of bits i).
  { intros b i Hi Hne. destruct (decide (i < n)).
    - apply bit_of_app_l. lia.
    - rewrite !bit_of_ge; [done|rewrite ?Hlen; lia..]. }
  destruct (Z.eqb_spec bit 0) as [Hb|Hb]; simpl.
  - split; simpl; rewrite ?Hlen; try done.
    + rewrite Hsz. Z.div_mod_to_equations; lia.
    + destruct (Z.eqb_spec (n + 1) 0); [lia|].
      rewrite Hpos, Hsz. Z.div_mod_to_equations; lia.
    + intros i Hi. destruct (decide (i = n)) as [->|Hne].
      * rewrite Hbits by done. rewrite bit_of_snoc. apply bit_of_ge. lia.
      * rewrite Hbits, Hbit by done. done.
  - split; simpl; rewrite ?Hlen, ?length_write; try done.
    + rewrite Hsz. Z.div_mod_to_equations; lia.
    + destruct (Z.eqb_spec (n + 1) 0); [lia|].
      rewrite Hpos, Hsz. Z.div_mod_to_equations; lia.
    + intros i Hi. destruct (decide (i / 8 = size bw1 - 1)) as [Heq|Hne].
      * rewrite payload_bit_write_eq by lia.
        rewrite byte_bit_set by (rewrite ?Hpos; Z.div_mod_to_equations; lia).
        destruct (Z.eqb_spec (i mod 8) (bit_pos bw1)) as [He|He].
        -- replace i with n by (rewrite Hsz, Hpos in *; Z.div_mod_to_equations; lia).
           by rewrite bit_of_snoc.
        -- assert (i ≠ n)
             by (rewrite Hsz, Hpos in *; Z.div_mod_to_equations; lia).
           by rewrite <- Heq, <- payload_bit_eq, Hbits, Hbit by lia.
      * assert (i ≠ n) by (rewrite Hsz in *; Z.div_mod_to_equations; lia).
        rewrite payload_bit_write_ne by lia. by rewrite Hbits, Hbit by done.
Qed.

Lemma bw_put_bits_holds bw bits bit (idx : list Z) :
  bw_holds bw bits →
  bw_holds (foldl (λ bw _, bw_put_bit bw bit) bw idx)
           (bits ++ replicate (length idx) (negb (bit =? 0))).
Proof.
  revert bw bits. induction idx as [|i idx IH]; intros bw bits Hbw; simpl.
  - by rewrite app_nil_r.
  - rewrite cons_middle, app_assoc. apply IH. by apply bw_put_bit_holds.
Qed.

Lemma bw_put_cycle_holds bw bits m j :
  bw_holds bw bits → bw_holds (bw_put_cycle bw m j) (bits ++ cycle_bits (m, j)).
Proof.
  intros Hbw. unfold bw_put_cycle, cycle_bits. simpl.
  rewrite app_assoc.
  rewrite <- (length_seqZ 0 m), <- (length_seqZ 0 j).
  apply (bw_put_bits_holds _ _ 1), (bw_put_bits_holds _ _ 0), Hbw.
Qed.

End bits.

(** ** The two-phase scan *)

Section scan.
Context (payload : list Z) (payload_bytes : Z).
Implicit Types (s m j t : Z).

Lemma payload_bit_01 (d : list Z) i : payload_bit d i = 0 ∨ payload_bit d i = 1.
Proof.
  unfold payload_bit.
  generalize (Z.shiftr (read d (i `quot` 8)) (7 - i `rem` 8)). intros x.
  replace (Z.land x 1) with (x mod 2).
  - Z.div_mod_to_equations; lia.
  - change 1 with (Z.ones 1). by rewrite Z.land_ones by lia.
Qed.

Lemma count_zeros_cycle s m :
  0 ≤ s → 0 ≤ m → s + m < payload_bytes * 8 →
  Forall (λ t, payload_bit payload (s + t) = 0) (seqZ 0 m) →
  payload_bit payload (s + m) = 1 →
  count_zeros payload payload_bytes s = Ok (s + m + 1, m, 1, true).
Proof.
  intros Hs Hm Hlt Hzeros Hone. unfold count_zeros.
  rewrite Forall_seqZ in Hzeros.
  edestruct (while_rule
    (λ '(bi, m', j', brk),
       (brk = false ∧ j' = 0 ∧ 0 ≤ m' ≤ m ∧ bi = s + m') ∨
       (brk = true ∧ j' = 1 ∧ m' = m ∧ bi = s + m + 1))
    (λ '(bi, m', j', brk),
       if brk : bool then 0%nat else Z.to_nat (1 + m - m')))
    as ([[[bi m'] j'] brk] & -> & Hinv & Hc).
  - intros [[[bi m'] j'] brk] Hinv Hc.
    destruct Hinv as [(-> & -> & Hm' & ->)|(-> & _)]; [|done].
    destruct (decide (m' = m)) as [->|Hne].
    + rewrite Hone. simpl. eexists. split; [done|]. split; [right|]; lia.
    + rewrite Hzeros by lia. simpl. eexists. split; [done|].
      split; [left|]; lia.
  - simpl. left. split_and!; try done; lia.
  - simpl. lia.
  - destruct Hinv as [(-> & -> & Hm' & ->)|(-> & -> & -> & ->)]; [|done].
    simpl in Hc. apply Z.ltb_ge in Hc. lia.
Qed.

Lemma count_ones_run s j0 e :
  0 ≤ s → 0 ≤ e → s + e ≤ payload_bytes * 8 →
  Forall (λ t, payload_bit payload (s + t) = 1) (seqZ 0 e) →
  (s + e < payload_bytes * 8 → payload_bit payload (s + e) = 0) →
  ∃ brk, count_ones payload payload_bytes s j0 = Ok (s + e, j0 + e, brk).
Proof.
  intros Hs He Hle Hones Hend. unfold count_ones.
  rewrite Forall_seqZ in Hones.
  edestruct (while_rule
    (λ '(bi, j', brk),
       ∃ t, 0 ≤ t ≤ e ∧ bi = s + t ∧ j' = j0 + t ∧ (brk = true → t = e))
    (λ '(bi, j', brk),
       if brk : bool then 0%nat else Z.to_nat (payload_bytes * 8 - bi)))
    as ([[bi j'] brk] & -> & Hinv & Hc).
  - intros [[bi j'] brk] (t & Ht & -> & -> & Hbrk) Hc.
    apply andb_true_iff in Hc as [Hb Hc]. apply Z.ltb_lt in Hc.
    destruct brk; [done|]. clear Hb Hbrk.
    destruct (decide (t = e)) as [->|Hne].
    + rewrite Hend by done. simpl. eexists. split; [done|].
      split; [exists e; split_and!; auto with lia | lia].
    + rewrite Hones by lia. simpl. eexists. split; [done|].
      split; [exists (t + 1); split_and!; auto with lia | lia].
  - simpl. exists 0. split_and!; auto with lia.
  - simpl. lia.
  - destruct Hinv as (t & Ht & -> & -> & Hbrk). exists brk.
    assert (t = e) as ->; [|done].
    destruct brk; [auto|]. simpl in Hc. apply Z.ltb_ge in Hc. lia.
Qed.

Lemma scan_cycle_at s m j :
  cycle_at payload payload_bytes s m j →
  scan_cycle payload payload_bytes s = Ok (s + m + j, m, j).
Proof.
  intros (Hs & Hm & Hj & Hle & Hzeros & Hones & Hend). unfold scan_cycle.
  rewrite Forall_seqZ in Hones.
  rewrite (count_zeros_cycle s m) by (auto with lia). simpl.
  destruct (count_ones_run (s + m + 1) 1 (j - 1)) as [brk Hrun]; try lia.
  - apply Forall_seqZ. intros t Ht.
    replace (s + m + 1 + t) with (s + (m + 1 + t)) by lia. apply Hones. lia.
  - replace (s + m + 1 + (j - 1)) with (s + m + j) by lia. done.
  - rewrite Hrun. simpl.
    replace (s + m + 1 + (j - 1)) with (s + m + j) by lia.
    destruct (Z.eqb_spec (1 + (j - 1)) 0); [lia|].
    by replace (1 + (j - 1)) with j by lia.
Qed.

(** A payload with no 1 from bit [s] on: the scan ends with j = 0. *)
Lemma scan_cycle_zeros s :
  0 ≤ s ≤ payload_bytes * 8 →
  Forall (λ t, payload_bit payload (s + t) = 0)
         (seqZ 0 (payload_bytes * 8 - s)) →
  scan_cycle payload payload_bytes s
  = Ok (payload_bytes * 8, payload_bytes * 8 - s, 0).
Proof.
  intros Hs Hzeros. unfold scan_cycle, count_zeros.
  rewrite Forall_seqZ in Hzeros.
  edestruct (while_rule
    (λ '(bi, m', j', brk),
       brk = false ∧ j' = 0 ∧ 0 ≤ m' ∧ bi = s + m' ∧ bi ≤ payload_bytes * 8)
    (λ '(bi, m', j', brk), Z.to_nat (payload_bytes * 8 - bi)))
    as ([[[bi m'] j'] brk] & -> & Hinv & Hc).
  - intros [[[bi m'] j'] brk] (-> & -> & Hm' & -> & Hle) Hc.
    simpl in Hc. apply Z.ltb_lt in Hc.
    rewrite Hzeros by lia. simpl. eexists. split; [done|].
    split_and!; auto with lia.
  - simpl. split_and!; auto with lia.
  - simpl. lia.
  - destruct Hinv as (-> & -> & Hm' & -> & Hle). simpl in *.
    apply Z.ltb_ge in Hc. repeat f_equal; lia.
Qed.
End scan.

Section scan_any.
Context (payload : list Z) (payload_bytes : Z).
Implicit Types (s m j t : Z).

(** From any bit on, the payload shows a first bit of the other kind or
    runs unchanged for the [n] bits looked at. *)
Lemma first_bit_other (b : Z) s (n : nat) :
  (∃ e, 0 ≤ e < Z.of_nat n ∧
        Forall (λ t, payload_bit payload (s + t) = b) (seqZ 0 e) ∧
        payload_bit payload (s + e) ≠ b)
  ∨ Forall (λ t, payload_bit payload (s + t) = b) (seqZ 0 (Z.of_nat n)).
Proof.
  induction n as [|n [(e & He & Hrun & Hend)|Hrun]].
  - right. constructor.
  - left. exists e. split_and!; auto with lia.
  - destruct (decide (payload_bit payload (s + Z.of_nat n) = b)) as [Hb|Hb].
    + right. rewrite seqZ_S, Forall_app. split; [done|]. by repeat constructor.
    + left. exists (Z.of_nat n). split_and!; auto with lia.
Qed.

Lemma scan_cycle_cases s :
  0 ≤ s < payload_bytes * 8 →
  (∃ m j, cycle_at payload payload_bytes s m j)
  ∨ Forall (λ t, payload_bit payload (s + t) = 0)
           (seqZ 0 (payload_bytes * 8 - s)).
Proof.
  intros Hs.
  destruct (first_bit_other 0 s (Z.to_nat (payload_bytes * 8 - s)))
    as [(m & Hm & Hzeros & Hone)|Hzeros].
  2: { right. by rewrite Z2Nat.id in Hzeros by lia. }
  left. exists m.
  assert (Hone' : payload_bit payload (s + m) = 1)
    by (destruct (payload_bit_01 payload (s + m)); [done|lia]).
  destruct (first_bit_other 1 (s + m) (Z.to_nat (payload_bytes * 8 - (s + m))))
    as [(j & Hj & Hones & Hzero)|Hones].
  - assert (j ≠ 0) by (intros ->; rewrite Z.add_0_r in Hzero; done).
    exists j. unfold cycle_at. split_and!; auto with lia.
    + rewrite Forall_seqZ in Hones |- *. intros t Ht.
      replace (s + t) with (s + m + (t - m)) by lia. apply Hones. lia.
    + intros _.
      destruct (payload_bit_01 payload (s + m + j)); [done|lia].
  - rewrite Z2Nat.id in Hones by lia.
    exists (payload_bytes * 8 - (s + m)). unfold cycle_at.
    split_and!; auto with lia.
    rewrite Forall_seqZ in Hones |- *. intros t Ht.
    replace (s + t) with (s + m + (t - m)) by lia. apply Hones. lia.
Qed.

(** The scan always ends, past the bit it started at. *)
Lemma scan_cycle_total s :
  0 ≤ s < payload_bytes * 8 →
  ∃ bi m j, scan_cycle payload payload_bytes s = Ok (bi, m, j) ∧
    s < bi ≤ payload_bytes * 8 ∧
    (j = 0 ∨ (cycle_at payload payload_bytes s m j ∧ bi = s + m + j)).
Proof.
  intros Hs. destruct (scan_cycle_cases s Hs) as [(m & j & Hat)|Hzeros].
  - exists (s + m + j), m, j. split; [by apply scan_cycle_at|].
    unfold cycle_at in Hat. split; [lia|]. by right.
  - eexists _, _, _. split; [apply scan_cycle_zeros; [lia|done]|].
    split; [lia|]. by left.
Qed.
End scan_any.

Section find.
Implicit Types (codes : list CodeEntry) (m j K r : Z).

Lemma find_code_from codes m j lo (n : nat) :
  0 ≤ lo →
  let found := find_code codes m j (seqZ lo (Z.of_nat n)) in
  (found = -1 ∧
   ∀ r, lo ≤ r < lo + Z.of_nat n → cycle_of (read codes r) ≠ (m, j))
  ∨ (lo ≤ found < lo + Z.of_nat n ∧ cycle_of (read codes found) = (m, j) ∧
     ∀ r, lo ≤ r < found → cycle_of (read codes r) ≠ (m, j)).
Proof.
  revert lo. induction n as [|n IH]; intros lo Hlo; simpl.
  - left. split; [done|]. lia.
  - rewrite seqZ_cons by lia. simpl.
    replace (Z.pred (Z.of_nat (S n))) with (Z.of_nat n) by lia.
    destruct (Z.eqb_spec (code_m (read codes lo)) m) as [Hm|Hm];
      [destruct (Z.eqb_spec (code_j (read codes lo)) j) as [Hj|Hj]|]; simpl.
    + right. split_and!; [lia|lia|by unfold cycle_of; subst|lia].
    + destruct (IH (Z.succ lo) ltac:(lia)) as [[-> Hno]|(Hr & Hf & Hno)].
      * left. split; [done|]. intros r Hr.
        destruct (decide (r = lo)) as [->|]; [|apply Hno; lia].
        unfold cycle_of. congruence.
      * right. split_and!; [lia|lia|done|]. intros r Hr'.
        destruct (decide (r = lo)) as [->|]; [|apply Hno; lia].
        unfold cycle_of. congruence.
    + destruct (IH (Z.succ lo) ltac:(lia)) as [[-> Hno]|(Hr & Hf & Hno)].
      * left. split; [done|]. intros r Hr.
        destruct (decide (r = lo)) as [->|]; [|apply Hno; lia].
        unfold cycle_of. congruence.
      * right. split_and!; [lia|lia|done|]. intros r Hr'.
        destruct (decide (r = lo)) as [->|]; [|apply Hno; lia].
        unfold cycle_of. congruence.
Qed.

Lemma find_code_cases codes m j K :
  let found := find_code codes m j (seqZ 0 K) in
  (found = -1 ∧ ∀ r, 0 ≤ r < K → cycle_of (read codes r) ≠ (m, j))
  ∨ (0 ≤ found < K ∧ cycle_of (read codes found) = (m, j) ∧
     ∀ r, 0 ≤ r < found → cycle_of (read codes r) ≠ (m, j)).
Proof.
  destruct (decide (0 ≤ K)) as [HK|HK].
  - pose proof (find_code_from codes m j 0 (Z.to_nat K) ltac:(lia)) as Hf.
    by rewrite Z2Nat.id in Hf by lia.
  - rewrite seqZ_nil by lia. left. split; [done|]. lia.
Qed.

(** In a table whose pairs are distinct the search finds the rank. *)
Lemma find_code_rank codes K r :
  0 ≤ r < K →
  (∀ r1 r2, 0 ≤ r1 < K → 0 ≤ r2 < K →
     cycle_of (read codes r1) = cycle_of (read codes r2) → r1 = r2) →
  find_code codes (code_m (read codes r)) (code_j (read codes r)) (seqZ 0 K)
  = r.
Proof.
  intros Hr Hinj.
  destruct (find_code_cases codes (code_m (read codes r))
              (code_j (read codes r)) K) as [[_ Hno]|(Hf & Heq & _)].
  - by destruct (Hno r Hr).
  - apply Hinj; [lia|lia|done].
Qed.

Lemma find_code_absent codes m j K :
  (∀ r, 0 ≤ r < K → cycle_of (read codes r) ≠ (m, j)) →
  find_code codes m j (seqZ 0 K) = -1.
Proof.
  intros Hno.
  destruct (find_code_cases codes m j K) as [[-> _]|(Hf & Heq & _)]; [done|].
  by destruct (Hno _ Hf).
Qed.
End find.

Section tables.
Implicit Types (codes : list CodeEntry) (K r : Z) (p : Z * Z).

Lemma length_recover_symbols comp_data K :
  0 ≤ K ≤ 256 → length (recover_symbols comp_data K) = 256%nat.
Proof.
  intros HK. unfold recover_symbols, ALPHABET_SIZE.
  rewrite <- (Z2Nat.id K) by lia.
  rewrite (foldl_write_seqZ (λ i, i) _ _ 0) by (intros; rewrite ?length_replicate; simpl; lia).
  rewrite !length_app, length_take, length_fmap, length_seqZ, length_drop,
    length_replicate. simpl. lia.
Qed.

Section with_table.
Context (codes0 : list CodeEntry) (K : Z).
Context (HK : 0 ≤ K ≤ Z.of_nat (length codes0)).

#[local] Abbreviation table := (assign_cycles (canonical_cycles K) codes0).

Lemma table_symbol r :
  0 ≤ r < K → symbol (read table r) = symbol (read codes0 r).
Proof.
  intros Hr.
  pose proof (symbols_of_assign_cycles (canonical_cycles K) codes0) as Hs.
  apply (f_equal (.!! Z.to_nat r)) in Hs.
  rewrite !list_lookup_fmap, !lookup_read in Hs
    by (rewrite ?length_assign_cycles; lia).
  by simplify_eq/=.
Qed.

Lemma table_injective r1 r2 :
  0 ≤ r1 < K → 0 ≤ r2 < K →
  cycle_of (read table r1) = cycle_of (read table r2) → r1 = r2.
Proof.
  intros Hr1 Hr2 Heq.
  pose proof (canonical_cycles_read codes0 K r1 ltac:(lia) Hr1) as H1.
  pose proof (canonical_cycles_read codes0 K r2 ltac:(lia) Hr2) as H2.
  rewrite <- Heq in H2.
  pose proof (NoDup_lookup _ _ _ _ (canonical_cycles_NoDup K) H1 H2). lia.
Qed.

Lemma table_find_rank r :
  0 ≤ r < K →
  find_code table (code_m (read table r)) (code_j (read table r)) (seqZ 0 K)
  = r.
Proof.
  intros Hr. apply find_code_rank; [done|]. apply table_injective.
Qed.

Lemma table_find_absent p :
  p ∉ canonical_cycles K → find_code table p.1 p.2 (seqZ 0 K) = -1.
Proof.
  intros Hp. apply find_code_absent. intros r Hr Heq.
  apply Hp. rewrite <- surjective_pairing in Heq. rewrite <- Heq.
  eapply list_elem_of_lookup_2, canonical_cycles_read; [lia|done].
Qed.

End with_table.
End tables.

(** ** The decoding loop *)

Section decode.
Context (codes : list CodeEntry) (K : Z) (payload : list Z)
  (payload_bytes original_len : Z).
Implicit Types (st : DecodeState) (ps : list (Z * Z)) (s m j : Z).

#[local] Abbreviation body := (decode_one codes K payload payload_bytes).
#[local] Abbreviation cond := (decode_cond payload_bytes original_len).

Lemma decode_one_found st m j :
  cycle_at payload payload_bytes (ds_bit_index st) m j →
  0 ≤ find_code codes m j (seqZ 0 K) →
  body st = Ok (mkDecodeState (ds_bit_index st + m + j) (ds_out_pos st + 1)
                  (write (ds_out_text st) (ds_out_pos st)
                     (symbol (read codes (find_code codes m j (seqZ 0 K)))))
                  false (ds_stderr st)).
Proof.
  intros Hat Hf. unfold decode_one. rewrite (scan_cycle_at _ _ _ _ _ Hat).
  simpl. destruct Hat as (_ & _ & Hj & _).
  destruct (Z.eqb_spec j 0); [lia|].
  by destruct (Z.ltb_spec (find_code codes m j (seqZ 0 K)) 0); [lia|].
Qed.

Lemma decode_one_absent st m j :
  cycle_at payload payload_bytes (ds_bit_index st) m j →
  find_code codes m j (seqZ 0 K) < 0 →
  body st = Ok (mkDecodeState (ds_bit_index st + m + j) (ds_out_pos st)
                  (ds_out_text st) true (Some (PairNotFound m j))).
Proof.
  intros Hat Hf. unfold decode_one. rewrite (scan_cycle_at _ _ _ _ _ Hat).
  simpl. destruct Hat as (_ & _ & Hj & _).
  destruct (Z.eqb_spec j 0); [lia|].
  by destruct (Z.ltb_spec (find_code codes m j (seqZ 0 K)) 0); [|lia].
Qed.

Lemma cycles_at_app s ps qs :
  cycles_at payload payload_bytes s (ps ++ qs) ↔
  cycles_at payload payload_bytes s ps ∧
  cycles_at payload payload_bytes
    (s + foldr (λ p n, p.1 + p.2 + n) 0 ps) qs.
Proof.
  revert s. induction ps as [|p ps IH]; intros s; simpl.
  - rewrite Z.add_0_r. tauto.
  - rewrite IH.
    replace (s + p.1 + p.2 + foldr (λ p n, p.1 + p.2 + n) 0 ps)
      with (s + (p.1 + p.2 + foldr (λ p n, p.1 + p.2 + n) 0 ps)) by lia.
    tauto.
Qed.

Lemma cycles_at_bound s ps :
  0 ≤ s ≤ payload_bytes * 8 → cycles_at payload payload_bytes s ps →
  s + Z.of_nat (length ps) ≤ payload_bytes * 8 ∧
  Z.of_nat (length ps) ≤ foldr (λ p n, p.1 + p.2 + n) 0 ps.
Proof.
  revert s. induction ps as [|p ps IH]; intros s Hs Hat; simpl in *; [lia|].
  destruct Hat as [Hp Hat]. pose proof Hp as (? & ? & ? & ? & _).
  destruct (IH (s + p.1 + p.2)) as [? ?]; [lia|done|]. lia.
Qed.

(** A run of the loop over cycles that stand in the payload and in the
    table: one turn per cycle. *)
Lemma decode_run ps : ∀ fuel st decoded out0,
  cycles_at payload payload_bytes (ds_bit_index st) ps →
  Forall (λ p, 0 ≤ find_code codes p.1 p.2 (seqZ 0 K)) ps →
  ds_break st = false →
  ds_out_text st = decoded ++ drop (length decoded) out0 →
  ds_out_pos st = Z.of_nat (length decoded) →
  Z.of_nat (length decoded + length ps) ≤ original_len →
  (length decoded + length ps ≤ length out0)%nat →
  while (length ps + fuel) cond body st
  = while fuel cond body
      (mkDecodeState
         (ds_bit_index st + foldr (λ p n, p.1 + p.2 + n) 0 ps)
         (Z.of_nat (length (decoded ++ symbols_of codes K ps)))
         ((decoded ++ symbols_of codes K ps)
            ++ drop (length (decoded ++ symbols_of codes K ps)) out0)
         false (ds_stderr st)).
Proof.
  induction ps as [|[m j] ps IH];
    intros fuel st decoded out0 Hat Hfound Hbrk Hout Hpos Hlen Hroom.
  - simpl. rewrite Z.add_0_r, app_nil_r, <- Hout, <- Hpos, <- Hbrk.
    by destruct st.
  - simpl in Hat. destruct Hat as [Hp Hat].
    apply Forall_cons in Hfound as [Hf Hfound]. simpl in Hf, Hp.
    pose proof Hp as (Hs & Hm & Hj & Hle & _).
    simpl length in *. simpl Nat.add.
    erewrite while_step; [|
      unfold decode_cond; rewrite Hbrk; simpl;
      apply andb_true_iff; split; [apply Z.ltb_lt|apply Z.ltb_lt]; lia |
      by apply decode_one_found ].
    rewrite Hout, Hpos, write_next by lia.
    erewrite (IH fuel _ (decoded ++ [_]) out0); simpl; try done.
    + rewrite <- !app_assoc. simpl. do 2 f_equal. lia.
    + rewrite length_app. simpl. lia.
    + rewrite length_app. simpl. lia.
    + rewrite length_app. simpl. lia.
Qed.
End decode.

Section decode_end.
Context (codes : list CodeEntry) (K : Z) (payload : list Z)
  (payload_bytes original_len : Z).
Implicit Types (st : DecodeState) (ps : list (Z * Z)) (s m j : Z).

#[local] Abbreviation body := (decode_one codes K payload payload_bytes).
#[local] Abbreviation cond := (decode_cond payload_bytes original_len).

(** All the cycles of the message stand in the payload: the loop decodes
    them all and stops on the symbol count. *)
Lemma decode_all ps out0 :
  0 ≤ payload_bytes →
  cycles_at payload payload_bytes 0 ps →
  Forall (λ p, 0 ≤ find_code codes p.1 p.2 (seqZ 0 K)) ps →
  Z.of_nat (length ps) = original_len →
  (length ps ≤ length out0)%nat →
  ∃ bi,
    while (Z.to_nat (payload_bytes * 8)) cond body
      (mkDecodeState 0 0 out0 false None)
    = Ok (mkDecodeState bi (Z.of_nat (length ps))
            (symbols_of codes K ps ++ drop (length ps) out0) false None).
Proof.
  intros Hpb Hat Hfound Hlen Hroom.
  destruct (cycles_at_bound payload payload_bytes 0 ps) as [Hb _]; [lia|done|].
  replace (Z.to_nat (payload_bytes * 8))
    with (length ps + (Z.to_nat (payload_bytes * 8) - length ps))%nat by lia.
  rewrite (decode_run _ _ _ _ _ ps _ _ [] out0); simpl; try done; try lia.
  eexists. rewrite while_done.
  - unfold symbols_of. by rewrite length_fmap.
  - unfold decode_cond. simpl. unfold symbols_of. rewrite length_fmap.
    destruct (Z.ltb_spec (Z.of_nat (length ps)) original_len); [lia|done].
Qed.

(** After cycles that are in the table stands one that is not: the loop
    stops there, with the output so far, and reports the pair. *)
Lemma decode_until_absent ps m j out0 :
  0 ≤ payload_bytes →
  cycles_at payload payload_bytes 0 (ps ++ [(m, j)]) →
  Forall (λ p, 0 ≤ find_code codes p.1 p.2 (seqZ 0 K)) ps →
  find_code codes m j (seqZ 0 K) < 0 →
  Z.of_nat (length ps) < original_len →
  (length ps ≤ length out0)%nat →
  ∃ bi,
    while (Z.to_nat (payload_bytes * 8)) cond body
      (mkDecodeState 0 0 out0 false None)
    = Ok (mkDecodeState bi (Z.of_nat (length ps))
            (symbols_of codes K ps ++ drop (length ps) out0) true
            (Some (PairNotFound m j))).
Proof.
  intros Hpb Hat Hfound Habs Hlen Hroom.
  destruct (cycles_at_bound payload payload_bytes 0 (ps ++ [(m, j)]))
    as [Hb _]; [lia|done|].
  rewrite length_app in Hb. simpl in Hb.
  apply cycles_at_app in Hat as [Hat [Hlast _]]. simpl in Hlast.
  replace (Z.to_nat (payload_bytes * 8))
    with (length ps + S (Z.to_nat (payload_bytes * 8) - length ps - 1))%nat
    by lia.
  rewrite (decode_run _ _ _ _ _ ps _ _ [] out0) by (simpl; try done; lia).
  simpl app. simpl ds_bit_index. simpl ds_stderr.
  pose proof Hlast as (Hs & Hm & Hj & Hle & _).
  erewrite while_step; [| |by apply decode_one_absent].
  - eexists. rewrite while_done by done. simpl.
    unfold symbols_of. by rewrite length_fmap.
  - unfold decode_cond, symbols_of. simpl. rewrite length_fmap.
    apply andb_true_iff. split; apply Z.ltb_lt; lia.
Qed.

(** Whatever the payload holds, the loop ends: with a prefix of the
    caller's buffer overwritten by at most [original_len] symbols, and with
    nothing on [stderr] or the pair that was not in the table. *)
Lemma decode_total out0 :
  Z.max 0 original_len ≤ Z.of_nat (length out0) →
  ∃ st decoded,
    while (Z.to_nat (payload_bytes * 8)) cond body
      (mkDecodeState 0 0 out0 false None) = Ok st ∧
    ds_out_text st = decoded ++ drop (length decoded) out0 ∧
    ds_out_pos st = Z.of_nat (length decoded) ∧
    Z.of_nat (length decoded) ≤ Z.max 0 original_len ∧
    (ds_stderr st = None ∨
     ∃ m j, ds_stderr st = Some (PairNotFound m j) ∧
            find_code codes m j (seqZ 0 K) < 0).
Proof.
  intros Hroom.
  edestruct (while_rule
    (λ st, 0 ≤ ds_bit_index st ∧
       ∃ decoded,
         ds_out_text st = decoded ++ drop (length decoded) out0 ∧
         ds_out_pos st = Z.of_nat (length decoded) ∧
         Z.of_nat (length decoded) ≤ Z.max 0 original_len ∧
         (ds_stderr st = None ∨
          ∃ m j, ds_stderr st = Some (PairNotFound m j) ∧
                 find_code codes m j (seqZ 0 K) < 0))
    (λ st, if ds_break st then 0%nat
           else Z.to_nat (payload_bytes * 8 - ds_bit_index st)))
    as (st & Hrun & (_ & decoded & Hinv) & _).
  4: { exists st, decoded. split; [exact Hrun|exact Hinv]. }
  - intros st (Hbi & decoded & Hout & Hpos & Hlen & Herr) Hc.
    unfold decode_cond in Hc.
    apply andb_true_iff in Hc as [Hc Hc3].
    apply andb_true_iff in Hc as [Hc1 Hc2].
    apply negb_true_iff in Hc1. apply Z.ltb_lt in Hc2, Hc3.
    destruct (scan_cycle_total payload payload_bytes (ds_bit_index st))
      as (bi & m & j & Hscan & Hbi' & Hj); [lia|].
    destruct Hj as [->|[Hat ->]].
    + unfold decode_one. rewrite Hscan. simpl.
      eexists. split; [done|]. simpl.
      split; [|rewrite Hc1; lia]. split; [lia|]. by exists decoded.
    + destruct (Z.ltb_spec (find_code codes m j (seqZ 0 K)) 0) as [Hf|Hf].
      * rewrite (decode_one_absent _ _ _ _ _ _ _ Hat Hf).
        eexists. split; [done|]. simpl.
        split; [|rewrite Hc1; lia]. split; [lia|].
        exists decoded. split_and!; try done. right. by exists m, j.
      * rewrite (decode_one_found _ _ _ _ _ _ _ Hat Hf).
        eexists. split; [done|]. simpl.
        split; [|rewrite Hc1; lia]. split; [lia|].
        rewrite Hout, Hpos, write_next by lia.
        eexists. split_and!; try done; rewrite length_app; simpl; lia.
  - simpl. split; [done|]. exists []. simpl. split_and!; auto with lia.
  - simpl. lia.
Qed.
End decode_end.

Section bits_to_cycles.
Implicit Types (ps : list (Z * Z)) (p : Z * Z) (s t : Z).

Lemma length_cycle_bits p :
  0 ≤ p.1 → 0 ≤ p.2 → Z.of_nat (length (cycle_bits p)) = p.1 + p.2.
Proof.
  intros H1 H2. unfold cycle_bits. rewrite length_app, !length_replicate. lia.
Qed.

Lemma bit_of_cycle_bits_zero p (rest : list bool) t :
  0 ≤ t < p.1 → bit_of (cycle_bits p ++ rest) t = 0.
Proof.
  intros Ht. unfold bit_of, cycle_bits.
  rewrite <- app_assoc, lookup_app_l by (rewrite length_replicate; lia).
  by rewrite lookup_replicate_2 by lia.
Qed.

Lemma bit_of_cycle_bits_one p (rest : list bool) t :
  0 ≤ p.1 → p.1 ≤ t < p.1 + p.2 → bit_of (cycle_bits p ++ rest) t = 1.
Proof.
  intros Hp Ht. unfold bit_of, cycle_bits.
  rewrite <- app_assoc, lookup_app_r by (rewrite length_replicate; lia).
  rewrite lookup_app_l by (rewrite !length_replicate; lia).
  by rewrite lookup_replicate_2 by (rewrite length_replicate; lia).
Qed.

Lemma bit_of_cycles_first ps :
  Forall (λ p, 1 ≤ p.1 ∧ 1 ≤ p.2) ps → bit_of (ps ≫= cycle_bits) 0 = 0.
Proof.
  intros Hps. destruct Hps as [|p ps [Hp _] _]; [done|].
  rewrite bind_cons. apply bit_of_cycle_bits_zero. lia.
Qed.

Lemma cycles_at_of_bits payload payload_bytes ps : ∀ s,
  0 ≤ s →
  Forall (λ p, 1 ≤ p.1 ∧ 1 ≤ p.2) ps →
  s + Z.of_nat (length (ps ≫= cycle_bits)) ≤ payload_bytes * 8 →
  (∀ i, 0 ≤ i → s + i < payload_bytes * 8 →
     payload_bit payload (s + i) = bit_of (ps ≫= cycle_bits) i) →
  cycles_at payload payload_bytes s ps.
Proof.
  induction ps as [|p ps IH]; intros s Hs Hpos Hlen Hbits; [done|].
  apply Forall_cons in Hpos as [[Hm Hj] Hpos].
  rewrite bind_cons in Hlen, Hbits.
  rewrite length_app in Hlen.
  pose proof (length_cycle_bits p ltac:(lia) ltac:(lia)) as Hcb.
  simpl. split.
  - unfold cycle_at. split_and!; try lia.
    + apply Forall_seqZ. intros t Ht.
      rewrite Hbits by lia. apply bit_of_cycle_bits_zero. lia.
    + apply Forall_seqZ. intros t Ht.
      rewrite Hbits by lia. apply bit_of_cycle_bits_one; lia.
    + intros Hlt. replace (s + p.1 + p.2) with (s + (p.1 + p.2)) by lia.
      rewrite Hbits by lia. rewrite bit_of_app_r by lia.
      rewrite Hcb, Z.sub_diag. by apply bit_of_cycles_first.
  - apply IH; [lia|done|lia|]. intros i Hi Hlt.
    replace (s + p.1 + p.2 + i) with (s + (p.1 + p.2 + i)) by lia.
    rewrite Hbits by lia. rewrite bit_of_app_r by lia.
    f_equal. lia.
Qed.

Lemma scan_cycles_at payload payload_bytes ps : ∀ s,
  cycles_at payload payload_bytes s ps →
  scan_cycles (length ps) payload payload_bytes s = Ok ps.
Proof.
  induction ps as [|[m j] ps IH]; intros s Hat; [done|].
  destruct Hat as [Hp Hat]. simpl in *.
  rewrite (scan_cycle_at _ _ _ _ _ Hp). simpl.
  by rewrite (IH _ Hat).
Qed.

(** The bytes of a writer, cut at its size, spell the bits put into it and
    zeros after them. *)
Lemma bw_holds_payload bw bits i :
  bw_holds bw bits →
  0 ≤ i < size bw * 8 →
  payload_bit (take (Z.to_nat (size bw)) (data bw)) i = bit_of bits i.
Proof.
  intros Hbw Hi. rewrite <- (bwh_bits _ _ Hbw) by lia.
  apply (payload_bit_ext _ _ _ (size bw)); [|lia].
  intros k Hk. unfold read. apply lookup_total_take_lt. lia.
Qed.

Lemma bw_holds_length bw bits :
  bw_holds bw bits →
  Z.of_nat (length bits) ≤ size bw * 8 ∧
  length (take (Z.to_nat (size bw)) (data bw)) = Z.to_nat (size bw) ∧
  0 ≤ size bw.
Proof.
  intros [Hcap Hsz Hfit _ _]. rewrite length_take. split_and!; [|lia|].
  - rewrite Hsz. Z.div_mod_to_equations; lia.
  - rewrite Hsz. Z.div_mod_to_equations; lia.
Qed.

Lemma bw_put_cycles_holds codes (rs : list Z) : ∀ bw bits,
  bw_holds bw bits →
  bw_holds
    (foldl (λ bw r, bw_put_cycle bw (code_m (read codes r))
                                    (code_j (read codes r))) bw rs)
    (bits ++ (rs ≫= λ r, cycle_bits (cycle_of (read codes r)))).
Proof.
  induction rs as [|r rs IH]; intros bw bits Hbw.
  - simpl. by rewrite app_nil_r.
  - rewrite bind_cons, app_assoc. simpl foldl. apply IH.
    by apply bw_put_cycle_holds.
Qed.
End bits_to_cycles.

(** ** Decompression of well-formed buffers *)

Section decompress.
Implicit Types (comp_data syms payload out_text rs : list Z) (K : Z).

(** With a well-formed header the call comes down to the decoding loop over
    the decoder's table. *)
Lemma decompress_valid_header comp_data comp_size original_len out_text :
  let K := read comp_data 0 in
  1 ≤ K ≤ 255 → 1 + K ≤ comp_size →
  decompress_cycle_based comp_data comp_size original_len out_text
  = st ← while (Z.to_nat ((comp_size - (1 + K)) * 8))
           (decode_cond (comp_size - (1 + K)) original_len)
           (decode_one (decoder_table comp_data K) K
              (drop (Z.to_nat (1 + K)) comp_data) (comp_size - (1 + K)))
           (mkDecodeState 0 0 out_text false None);
    Ok (write (ds_out_text st) (ds_out_pos st) 0, ds_stderr st).
Proof.
  intros K HK Hsize. unfold decompress_cycle_based. fold K.
  destruct (Z.leb_spec comp_size 0); [lia|].
  destruct (Z.leb_spec K 0); [lia|].
  destruct (Z.ltb_spec comp_size (1 + K)); [lia|]. simpl.
  rewrite generate_cycles_for_codes_spec
    by (rewrite length_recover_symbols; lia).
  done.
Qed.

Lemma recover_symbols_header K syms payload :
  0 ≤ K ≤ 256 → Z.of_nat (length syms) = K →
  recover_symbols (K :: syms ++ payload) K
  = ((λ c, mkCodeEntry c 0 0 0) <$> syms)
      ++ replicate (256 - length syms) blank_entry.
Proof.
  intros HK Hlen. unfold recover_symbols, ALPHABET_SIZE.
  set (comp_data := K :: syms ++ payload). rewrite <- Hlen.
  rewrite (foldl_write_seqZ (λ i, i) _ _ 0)
    by (intros; rewrite ?length_replicate; simpl; lia).
  change (Z.to_nat 0) with 0%nat. rewrite drop_replicate, take_0.
  cbn [app Nat.add]. f_equal.
  etrans; [apply (list_fmap_compose (λ i, read comp_data (1 + i))
                    (λ c, mkCodeEntry c 0 0 0))|].
  f_equal. apply (fmap_read_seqZ (λ i, 1 + i) [K] syms payload).
  intros i. simpl. lia.
Qed.

Lemma decoder_table_symbol K syms payload r :
  1 ≤ K ≤ 255 → Z.of_nat (length syms) = K → 0 ≤ r < K →
  symbol (read (decoder_table (K :: syms ++ payload) K) r) = read syms r.
Proof.
  intros HK Hlen Hr. unfold decoder_table.
  rewrite table_symbol by (rewrite ?length_recover_symbols; lia).
  rewrite recover_symbols_header by lia.
  rewrite read_app_l by (rewrite length_fmap; lia).
  unfold read. by rewrite (list_lookup_total_fmap (λ c, mkCodeEntry c 0 0 0)) by lia.
Qed.

Lemma table_cycle (codes0 : list CodeEntry) K r :
  0 ≤ K ≤ Z.of_nat (length codes0) → 0 ≤ r < K →
  cycle_of (read (assign_cycles (canonical_cycles K) codes0) r)
  = rank_cycle K r.
Proof.
  intros HK Hr. symmetry. apply list_lookup_total_correct.
  apply canonical_cycles_read; lia.
Qed.

Lemma rank_cycle_positive K r :
  0 ≤ r < K → 1 ≤ (rank_cycle K r).1 ∧ 1 ≤ (rank_cycle K r).2.
Proof.
  intros Hr. apply (canonical_cycles_positive K).
  apply list_elem_of_lookup_total_2.
  pose proof (length_canonical_cycles K ltac:(lia)). lia.
Qed.

(** The payload a writer holds for the ranks [rs] decodes to the symbols
    the header lists at those ranks. *)
Lemma decode_ranks K syms rs bw out_text :
  1 ≤ K ≤ 255 → Z.of_nat (length syms) = K →
  Forall (λ r, 0 ≤ r < K) rs →
  (length rs < length out_text)%nat →
  bw_holds bw (rs ≫= λ r, cycle_bits (rank_cycle K r)) →
  let payload := take (Z.to_nat (size bw)) (data bw) in
  cycles_at payload (size bw) 0 (rank_cycle K <$> rs) ∧
  decompress_cycle_based (K :: syms ++ payload) (1 + K + size bw)
    (Z.of_nat (length rs)) out_text
  = Ok (((λ r, read syms r) <$> rs) ++ 0 :: drop (S (length rs)) out_text,
        None).
Proof.
  intros HK Hlen Hrs Hroom Hbw payload.
  destruct (bw_holds_length _ _ Hbw) as (Hbits & Hpl & Hsz).
  assert (Hat : cycles_at payload (size bw) 0 (rank_cycle K <$> rs)).
  { apply cycles_at_of_bits; [lia| | |].
    - apply Forall_fmap. eapply Forall_impl; [exact Hrs|].
      intros r Hr. by apply rank_cycle_positive.
    - rewrite list_fmap_bind. simpl. exact Hbits.
    - intros i Hi Hlt. rewrite list_fmap_bind. simpl.
      by apply bw_holds_payload. }
  split; [done|].
  set (comp_data := K :: syms ++ payload).
  assert (HK0 : read comp_data 0 = K) by done.
  rewrite decompress_valid_header; rewrite HK0; [|lia..].
  replace (1 + K + size bw - (1 + K)) with (size bw) by lia.
  replace (drop (Z.to_nat (1 + K)) comp_data) with payload.
  2: { unfold comp_data. replace (Z.to_nat (1 + K)) with (S (length syms)) by lia.
       simpl. by rewrite drop_app_length. }
  set (T := decoder_table comp_data K).
  assert (HT : ∀ r, 0 ≤ r < K →
            find_code T (rank_cycle K r).1 (rank_cycle K r).2 (seqZ 0 K) = r).
  { intros r Hr. unfold T, decoder_table.
    rewrite <- (table_cycle (recover_symbols comp_data K))
      by (rewrite ?length_recover_symbols; lia).
    apply table_find_rank; rewrite ?length_recover_symbols; lia. }
  destruct (decode_all T K payload (size bw) (Z.of_nat (length rs))
              (rank_cycle K <$> rs) out_text) as [bi ->];
    rewrite ?length_fmap; try done; try lia.
  { apply Forall_fmap. eapply Forall_impl; [exact Hrs|].
    intros r Hr. simpl in *. rewrite HT; lia. }
  simpl.
  assert (Hsyms : symbols_of T K (rank_cycle K <$> rs)
                  = (λ r, read syms r) <$> rs).
  { unfold symbols_of. rewrite <- list_fmap_compose.
    apply Forall_fmap_ext_1. eapply Forall_impl; [exact Hrs|].
    intros r Hr. simpl in *. rewrite HT by lia.
    unfold T. by apply decoder_table_symbol. }
  rewrite Hsyms.
  pose proof (write_next ((λ r, read syms r) <$> rs) out_text 0) as Hw.
  rewrite length_app, !length_fmap in Hw. simpl in Hw.
  rewrite Hw by lia. rewrite <- app_assoc. simpl.
  by rewrite Nat.add_1_r.
Qed.
End decompress.

(** ** Decompression of corrupt buffers *)

Section corrupt.
Implicit Types (comp_data syms payload out_text rs : list Z) (K : Z).

Lemma decompress_invalid_header comp_data comp_size original_len out_text :
  0 < comp_size →
  read comp_data 0 ≤ 0 ∨ comp_size < 1 + read comp_data 0 →
  decompress_cycle_based comp_data comp_size original_len out_text
  = Ok (write out_text 0 0, Some InvalidCompressedData).
Proof.
  intros Hsize Hbad. unfold decompress_cycle_based.
  destruct (Z.leb_spec comp_size 0); [lia|].
  destruct (Z.leb_spec (read comp_data 0) 0); [done|].
  destruct (Z.ltb_spec comp_size (1 + read comp_data 0)); [done|lia].
Qed.

Lemma c_string_write_0 out_text :
  out_text ≠ [] → c_string (write out_text 0 0) = [].
Proof. by destruct out_text. Qed.

Lemma decompress_pair_not_found K syms payload rs m j original_len out_text :
  1 ≤ K ≤ 255 → Z.of_nat (length syms) = K →
  Forall (λ r, 0 ≤ r < K) rs →
  cycles_at payload (Z.of_nat (length payload)) 0
            ((rank_cycle K <$> rs) ++ [(m, j)]) →
  (m, j) ∉ canonical_cycles K →
  Z.of_nat (length rs) < original_len →
  (length rs < length out_text)%nat →
  decompress_cycle_based (K :: syms ++ payload)
    (1 + K + Z.of_nat (length payload)) original_len out_text
  = Ok (((λ r, read syms r) <$> rs) ++ 0 :: drop (S (length rs)) out_text,
        Some (PairNotFound m j)).
Proof.
  intros HK Hlen Hrs Hat Habs Hol Hroom.
  set (comp_data := K :: syms ++ payload).
  assert (HK0 : read comp_data 0 = K) by done.
  rewrite decompress_valid_header; rewrite HK0; [|lia..].
  replace (1 + K + Z.of_nat (length payload) - (1 + K))
    with (Z.of_nat (length payload)) by lia.
  replace (drop (Z.to_nat (1 + K)) comp_data) with payload.
  2: { unfold comp_data. replace (Z.to_nat (1 + K)) with (S (length syms)) by lia.
       simpl. by rewrite drop_app_length. }
  set (T := decoder_table comp_data K).
  assert (HT : ∀ r, 0 ≤ r < K →
            find_code T (rank_cycle K r).1 (rank_cycle K r).2 (seqZ 0 K) = r).
  { intros r Hr. unfold T, decoder_table.
    rewrite <- (table_cycle (recover_symbols comp_data K))
      by (rewrite ?length_recover_symbols; lia).
    apply table_find_rank; rewrite ?length_recover_symbols; lia. }
  destruct (decode_until_absent T K payload (Z.of_nat (length payload))
              original_len (rank_cycle K <$> rs) m j out_text) as [bi ->];
    rewrite ?length_fmap; try done; try lia.
  { apply Forall_fmap. eapply Forall_impl; [exact Hrs|].
    intros r Hr. simpl in *. rewrite HT; lia. }
  { assert (HK' : 0 ≤ K ≤ Z.of_nat (length (recover_symbols comp_data K)))
      by (rewrite length_recover_symbols; lia).
    pose proof (table_find_absent _ _ HK' (m, j) Habs) as Hfa.
    unfold T, decoder_table. simpl in Hfa. rewrite Hfa. lia. }
  simpl.
  assert (Hsyms : symbols_of T K (rank_cycle K <$> rs)
                  = (λ r, read syms r) <$> rs).
  { unfold symbols_of. rewrite <- list_fmap_compose.
    apply Forall_fmap_ext_1. eapply Forall_impl; [exact Hrs|].
    intros r Hr. simpl in *. rewrite HT by lia.
    unfold T. by apply decoder_table_symbol. }
  rewrite Hsyms.
  pose proof (write_next ((λ r, read syms r) <$> rs) out_text 0) as Hw.
  rewrite length_app, !length_fmap in Hw. simpl in Hw.
  rewrite Hw by lia. rewrite <- app_assoc. simpl.
  by rewrite Nat.add_1_r.
Qed.

Lemma decompress_total comp_data comp_size original_len out_text :
  Forall is_byte comp_data →
  comp_size ≤ Z.of_nat (length comp_data) →
  Z.max 0 original_len < Z.of_nat (length out_text) →
  ∃ decoded err,
    decompress_cycle_based comp_data comp_size original_len out_text
    = Ok (decoded ++ 0 :: drop (S (length decoded)) out_text, err) ∧
    Z.of_nat (length decoded) ≤ Z.max 0 original_len.
Proof.
  intros Hbytes Hsize Hroom.
  assert (Hw0 : write out_text 0 0 = [] ++ 0 :: drop 1 out_text).
  { destruct out_text; simpl in *; [lia|]. by rewrite drop_0. }
  destruct (decide (comp_size ≤ 0)) as [Hle|Hgt].
  { exists [], None. split; [|simpl; lia]. unfold decompress_cycle_based.
    destruct (Z.leb_spec comp_size 0); [|lia]. by rewrite Hw0. }
  set (K := read comp_data 0).
  destruct (decide (K ≤ 0 ∨ comp_size < 1 + K)) as [Hbad|Hok].
  { exists [], (Some InvalidCompressedData). split; [|simpl; lia].
    rewrite decompress_invalid_header by (done || lia). by rewrite Hw0. }
  assert (HK : is_byte K).
  { unfold K, read. eapply Forall_lookup_1; [exact Hbytes|].
    apply list_lookup_lookup_total_lt. lia. }
  unfold is_byte in HK.
  rewrite decompress_valid_header; fold K; [|lia..].
  destruct (decode_total (decoder_table comp_data K) K
              (drop (Z.to_nat (1 + K)) comp_data) (comp_size - (1 + K))
              original_len out_text ltac:(lia))
    as (st & decoded & -> & Hout & Hpos & Hlen & _).
  exists decoded, (ds_stderr st). split; [|done]. simpl.
  rewrite Hout, Hpos, write_next by lia.
  rewrite <- app_assoc, length_app. simpl. by rewrite Nat.add_1_r.
Qed.

End corrupt.

(** ** Compression: the frequency table *)

Section strings.
Implicit Types (text msg : list Z) (c : Z).

Lemma to_uchar_byte c : is_byte c → to_uchar c = c.
Proof. unfold is_byte, to_uchar. intros Hc. by apply Z.mod_small. Qed.

Lemma strlen_c_string text : strlen text = Z.of_nat (length (c_string text)).
Proof.
  induction text as [|c text IH]; simpl; [done|].
  destruct (c =? 0); simpl; lia.
Qed.

Lemma c_string_prefix text : c_string text `prefix_of` text.
Proof.
  induction text as [|c text IH]; simpl; [done|].
  destruct (c =? 0); [apply prefix_nil|by apply prefix_cons].
Qed.

Lemma c_string_no_nul text : Forall (λ c, c ≠ 0) (c_string text).
Proof.
  induction text as [|c text IH]; simpl; [constructor|].
  destruct (Z.eqb_spec c 0); constructor; done.
Qed.

Lemma c_string_id msg : Forall (λ c, c ≠ 0) msg → c_string msg = msg.
Proof.
  induction 1 as [|c msg Hc _ IH]; simpl; [done|].
  destruct (Z.eqb_spec c 0); [done|]. by rewrite IH.
Qed.

Lemma c_string_bytes text : Forall is_byte text → Forall is_byte (c_string text).
Proof.
  intros Hb. destruct (c_string_prefix text) as [suf Hsuf].
  rewrite Hsuf in Hb. by apply Forall_app in Hb as [? _].
Qed.

(** Reading the text up to [strlen] gives its C string. *)
Lemma read_c_string text :
  (λ i, read text i) <$> seqZ 0 (strlen text) = c_string text.
Proof.
  destruct (c_string_prefix text) as [suf Hsuf].
  rewrite strlen_c_string.
  pose proof (fmap_read_seqZ (λ i, i) [] (c_string text) suf) as Hrd.
  simpl in Hrd. rewrite <- Hsuf in Hrd. apply Hrd. intros i. lia.
Qed.

Lemma occurrences_cons c x msg :
  occurrences c (x :: msg)
  = (if decide (x = c) then 1 else 0) + occurrences c msg.
Proof.
  unfold occurrences. rewrite filter_cons.
  destruct (decide (x = c)); simpl; lia.
Qed.

Lemma occurrences_nonneg c msg : 0 ≤ occurrences c msg.
Proof. unfold occurrences. lia. Qed.

Lemma occurrences_pos c msg : 0 < occurrences c msg ↔ c ∈ msg.
Proof.
  induction msg as [|x msg IH]; [by rewrite elem_of_nil|].
  rewrite occurrences_cons, elem_of_cons.
  pose proof (occurrences_nonneg c msg).
  destruct (decide (x = c)) as [->|Hne]; [split; [by left|lia]|].
  rewrite Z.add_0_l, IH. split; [by right|]. by intros [->|?].
Qed.

(** The frequency table after the count. *)
Lemma count_frequency msg : ∀ freq_table,
  length freq_table = 256%nat → Forall is_byte msg →
  let freq_table' :=
    foldl (λ ft c, write ft (to_uchar c) (read ft (to_uchar c) + 1))
          freq_table msg in
  length freq_table' = 256%nat ∧
  ∀ c, is_byte c → read freq_table' c = read freq_table c + occurrences c msg.
Proof.
  induction msg as [|x msg IH]; intros ft Hlen Hb; simpl.
  - split; [done|]. intros c _. unfold occurrences. simpl. lia.
  - apply Forall_cons in Hb as [Hx Hb]. rewrite to_uchar_byte by done.
    destruct (IH (write ft x (read ft x + 1))) as [Hlen' Hrd];
      [by rewrite length_write|done|].
    split; [done|]. intros c Hc. rewrite Hrd by done.
    rewrite occurrences_cons. unfold is_byte in *.
    destruct (decide (x = c)) as [->|Hne].
    + rewrite read_write_eq by lia. lia.
    + rewrite read_write_ne by lia. lia.
Qed.

Lemma count_character_frequency_spec text :
  Forall is_byte text →
  let freq_table :=
    count_character_frequency text (replicate (Z.to_nat ALPHABET_SIZE) 0) in
  length freq_table = 256%nat ∧
  ∀ c, is_byte c → read freq_table c = occurrences c (c_string text).
Proof.
  intros Hb. unfold count_character_frequency.
  rewrite <- (foldl_fmap (λ ft c, write ft (to_uchar c)
                                   (read ft (to_uchar c) + 1))
                _ _ (λ i, read text i)).
  rewrite read_c_string.
  destruct (count_frequency (c_string text)
              (replicate (Z.to_nat ALPHABET_SIZE) 0)) as [Hlen Hrd];
    [by rewrite length_replicate|by apply c_string_bytes|].
  split; [done|]. intros c Hc. rewrite Hrd by done.
  unfold read, is_byte in *. rewrite lookup_total_replicate_2; [lia|].
  unfold ALPHABET_SIZE. lia.
Qed.
End strings.

(** ** Compression: the symbols of the message *)

Section collect.
Implicit Types (freq_table text msg cs : list Z) (c : Z).

Lemma length_entries_of freq_table cs :
  (length (entries_of freq_table cs) ≤ length cs)%nat.
Proof. unfold entries_of. rewrite length_fmap. apply length_filter. Qed.

Lemma entries_of_snoc freq_table cs c :
  entries_of freq_table (cs ++ [c])
  = entries_of freq_table cs
      ++ (if decide (0 < read freq_table c)
          then [mkCodeEntry c (read freq_table c) 0 0] else []).
Proof.
  unfold entries_of. rewrite filter_app, fmap_app. f_equal.
  rewrite filter_cons, filter_nil. by destruct (decide _).
Qed.

Lemma collect_symbols_upto freq_table (n : nat) :
  (n ≤ 256)%nat →
  let ents := entries_of freq_table (seqZ 0 (Z.of_nat n)) in
  foldl (collect_symbol freq_table) (replicate 256 blank_entry, 0)
        (seqZ 0 (Z.of_nat n))
  = (ents ++ replicate (256 - length ents) blank_entry,
     Z.of_nat (length ents)).
Proof.
  induction n as [|n IH]; intros Hn; [done|].
  rewrite seqZ_S, foldl_snoc, IH, Z.add_0_l by lia. clear IH.
  cbv zeta. rewrite entries_of_snoc.
  pose proof (length_entries_of freq_table (seqZ 0 (Z.of_nat n))) as Hlen.
  rewrite length_seqZ in Hlen.
  set (ents := entries_of freq_table (seqZ 0 (Z.of_nat n))) in *.
  unfold collect_symbol.
  destruct (Z.ltb_spec 0 (read freq_table (Z.of_nat n))) as [Hpos|Hpos];
    destruct (decide (0 < read freq_table (Z.of_nat n))); try lia.
  - rewrite to_uchar_byte by (unfold is_byte; lia).
    rewrite write_app_r, Z.sub_diag by lia.
    replace (256 - length ents)%nat with (S (256 - length ents - 1)) by lia.
    unfold write. simpl. rewrite <- app_assoc, length_app. simpl.
    f_equal; [|lia]. do 3 f_equal. lia.
  - by rewrite app_nil_r.
Qed.

Lemma collect_symbols_spec freq_table :
  let ents := entries_of freq_table (seqZ 0 256) in
  collect_symbols freq_table
  = (ents ++ replicate (256 - length ents) blank_entry,
     Z.of_nat (length ents)).
Proof. apply (collect_symbols_upto freq_table 256). lia. Qed.

(** The bytes that occur in a message, in increasing order. *)
Lemma present_bytes freq_table msg c :
  Forall is_byte msg →
  (∀ c, is_byte c → read freq_table c = occurrences c msg) →
  c ∈ filter (λ c, 0 < read freq_table c) (seqZ 0 256) ↔ c ∈ msg.
Proof.
  intros Hb Hft. rewrite list_elem_of_filter, elem_of_seqZ. split.
  - intros [Hpos Hc]. apply occurrences_pos. rewrite <- Hft; [done|].
    unfold is_byte. lia.
  - intros Hc. rewrite Forall_forall in Hb. pose proof (Hb c Hc) as Hbyte.
    rewrite Hft by done. split; [by apply occurrences_pos|].
    unfold is_byte in Hbyte. lia.
Qed.

Lemma present_bytes_NoDup freq_table :
  NoDup (filter (λ c, 0 < read freq_table c) (seqZ 0 256)).
Proof. apply NoDup_filter, NoDup_seqZ. Qed.

Lemma symbols_entries_of freq_table cs :
  symbol <$> entries_of freq_table cs
  = filter (λ c, 0 < read freq_table c) cs.
Proof.
  unfold entries_of. rewrite <- list_fmap_compose. apply list_fmap_id.
Qed.

(** K counts the distinct bytes of the message. *)
Lemma length_entries_distinct freq_table msg :
  Forall is_byte msg →
  (∀ c, is_byte c → read freq_table c = occurrences c msg) →
  length (entries_of freq_table (seqZ 0 256)) = length (distinct_bytes msg).
Proof.
  intros Hb Hft. rewrite <- (length_fmap symbol), symbols_entries_of.
  apply Permutation_length, NoDup_Permutation.
  - apply present_bytes_NoDup.
  - apply NoDup_remove_dups.
  - intros c. unfold distinct_bytes.
    by rewrite elem_of_remove_dups, present_bytes.
Qed.

(** Byte 0 never stands in a C string, so at most 255 symbols are present. *)
Lemma length_entries_le_255 freq_table msg :
  Forall is_byte msg → Forall (λ c, c ≠ 0) msg →
  (∀ c, is_byte c → read freq_table c = occurrences c msg) →
  (length (entries_of freq_table (seqZ 0 256)) ≤ 255)%nat.
Proof.
  intros Hb Hnz Hft. rewrite <- (length_fmap symbol), symbols_entries_of.
  change 255%nat with (Z.to_nat 255). rewrite <- (length_seqZ 1 255).
  apply submseteq_length, NoDup_submseteq; [apply present_bytes_NoDup|].
  intros c Hc. pose proof Hc as Hc'.
  apply list_elem_of_filter in Hc' as [_ Hrange].
  apply elem_of_seqZ in Hrange.
  apply (present_bytes _ msg) in Hc; [|done..].
  rewrite Forall_forall in Hnz. pose proof (Hnz c Hc).
  apply elem_of_seqZ. lia.
Qed.

Lemma length_entries_pos freq_table msg :
  Forall is_byte msg → msg ≠ [] →
  (∀ c, is_byte c → read freq_table c = occurrences c msg) →
  (0 < length (entries_of freq_table (seqZ 0 256)))%nat.
Proof.
  intros Hb Hne Hft. rewrite <- (length_fmap symbol), symbols_entries_of.
  destruct msg as [|c msg]; [done|].
  assert (Hc : c ∈ filter (λ c, 0 < read freq_table c) (seqZ 0 256)).
  { apply (present_bytes _ (c :: msg)); [done..|]. by left. }
  destruct (filter _ _); [by apply elem_of_nil in Hc|simpl; lia].
Qed.
End collect.

(** ** Compression: the rank order *)

Section sorting.
Implicit Types (a b e : CodeEntry) (ents : list CodeEntry) (msg : list Z).

Lemma entry_le_iff a b :
  entry_le a b ↔ freq b < freq a ∨ (freq a = freq b ∧ symbol a ≤ symbol b).
Proof.
  unfold entry_le, compare_codeentry.
  destruct (Z.ltb_spec (freq b) (freq a)); [lia|].
  destruct (Z.ltb_spec (freq a) (freq b)); [lia|].
  destruct (Z.ltb_spec (symbol a) (symbol b)); [lia|].
  destruct (Z.ltb_spec (symbol b) (symbol a)); lia.
Qed.

#[global] Instance entry_le_total : Total entry_le.
Proof. intros a b. rewrite !entry_le_iff. lia. Qed.

#[global] Instance entry_le_trans : Transitive entry_le.
Proof. intros a b c. rewrite !entry_le_iff. lia. Qed.

(** Entries that compare equal carry the same symbol and frequency. *)
Lemma entry_le_antisym a b :
  entry_le a b → entry_le b a → freq a = freq b ∧ symbol a = symbol b.
Proof. rewrite !entry_le_iff. lia. Qed.

Lemma qsort_collected ents (n : nat) :
  qsort (ents ++ replicate n blank_entry) (Z.of_nat (length ents))
  = merge_sort entry_le ents ++ replicate n blank_entry.
Proof.
  unfold qsort. rewrite Nat2Z.id.
  by rewrite take_app_length, drop_app_length.
Qed.

Lemma entries_of_elem freq_table cs e :
  e ∈ entries_of freq_table cs →
  e = mkCodeEntry (symbol e) (read freq_table (symbol e)) 0 0 ∧
  symbol e ∈ cs ∧ 0 < freq e.
Proof.
  unfold entries_of. intros (c & -> & Hc)%list_elem_of_fmap.
  apply list_elem_of_filter in Hc as [Hpos Hc]. done.
Qed.

(** No sorting routine could order the collected entries differently: the
    comparison is a total order on them. *)
Lemma qsort_unique freq_table cs (sorted : list CodeEntry) :
  sorted ≡ₚ entries_of freq_table cs → Sorted entry_le sorted →
  sorted = merge_sort entry_le (entries_of freq_table cs).
Proof.
  intros Hperm Hsorted.
  apply (Sorted_unique_strong entry_le); [|done|apply Sorted_merge_sort; apply _|].
  - intros e1 e2 He1 He2 H12 H21.
    rewrite Hperm in He1. rewrite merge_sort_Permutation in He2.
    apply entries_of_elem in He1 as (-> & _). apply entries_of_elem in He2 as (-> & _).
    apply entry_le_antisym in H12 as [_ Hs]; [|done]. simpl in Hs.
    by rewrite Hs.
  - by rewrite merge_sort_Permutation.
Qed.

Lemma sorted_symbols freq_table msg :
  Forall is_byte msg →
  (∀ c, is_byte c → read freq_table c = occurrences c msg) →
  let syms :=
    symbol <$> merge_sort entry_le (entries_of freq_table (seqZ 0 256)) in
  syms ≡ₚ distinct_bytes msg ∧ NoDup syms ∧
  StronglySorted (rank_before msg) syms.
Proof.
  intros Hb Hft syms.
  set (ents := entries_of freq_table (seqZ 0 256)) in *.
  assert (Hperm : syms ≡ₚ filter (λ c, 0 < read freq_table c) (seqZ 0 256)).
  { unfold syms. rewrite merge_sort_Permutation. unfold ents.
    by rewrite symbols_entries_of. }
  assert (Hnd : NoDup syms) by (rewrite Hperm; apply present_bytes_NoDup).
  split_and!; [|done|].
  - rewrite Hperm. apply NoDup_Permutation.
    + apply present_bytes_NoDup.
    + apply NoDup_remove_dups.
    + intros c. unfold distinct_bytes.
      by rewrite elem_of_remove_dups, present_bytes.
  - assert (Hin : ∀ e, e ∈ merge_sort entry_le ents →
              freq e = occurrences (symbol e) msg).
    { intros e He. rewrite merge_sort_Permutation in He.
      apply entries_of_elem in He as (He & Hc & _).
      rewrite He at 1. simpl. apply Hft.
      apply elem_of_seqZ in Hc. unfold is_byte. lia. }
    pose proof (StronglySorted_merge_sort entry_le ents) as Hss.
    unfold syms in *. clear Hperm.
    induction Hss as [|e l Hl IH He]; simpl; [constructor|].
    simpl in Hnd. apply NoDup_cons in Hnd as [Hnotin Hnd].
    constructor.
    + apply IH; [done|]. intros e' He'. apply Hin. by right.
    + apply Forall_fmap, Forall_forall. intros e' He'.
      rewrite Forall_forall in He. specialize (He e' He').
      apply entry_le_iff in He.
      assert (symbol e ≠ symbol e').
      { intros Heq. apply Hnotin. rewrite Heq. by apply list_elem_of_fmap_2. }
      unfold rank_before. simpl.
      rewrite <- !Hin by (by left || by right). lia.
Qed.
End sorting.

(** ** Compression: the lookup table, the payload, the buffer *)

Section lut.
Implicit Types (syms msg : list Z) (codes : list CodeEntry) (c K r : Z).

Lemma index_of_spec c syms :
  c ∈ syms →
  0 ≤ index_of c syms < Z.of_nat (length syms) ∧
  read syms (index_of c syms) = c.
Proof.
  induction syms as [|x syms IH]; intros Hc; [by apply elem_of_nil in Hc|].
  simpl. destruct (Z.eqb_spec x c) as [->|Hne].
  - split; [lia|done].
  - apply elem_of_cons in Hc as [->|Hc]; [done|].
    destruct (IH Hc) as [Hr Hrd]. split; [lia|].
    unfold read in *.
    replace (Z.to_nat (1 + index_of c syms))
      with (S (Z.to_nat (index_of c syms))) by lia.
    done.
Qed.

Lemma index_of_read syms r :
  NoDup syms → 0 ≤ r < Z.of_nat (length syms) →
  index_of (read syms r) syms = r.
Proof.
  intros Hnd Hr.
  assert (Hin : read syms r ∈ syms).
  { apply list_elem_of_lookup_total_2. lia. }
  destruct (index_of_spec _ _ Hin) as [Hi Hrd].
  pose proof (NoDup_lookup syms (Z.to_nat (index_of (read syms r) syms))
                (Z.to_nat r) (read syms r) Hnd) as Hinj.
  rewrite !lookup_read in Hinj by lia. rewrite Hrd in Hinj.
  specialize (Hinj eq_refl eq_refl). lia.
Qed.

Lemma build_lut_upto codes syms (n : nat) :
  NoDup syms → Forall is_byte syms →
  (n ≤ length syms)%nat →
  (∀ r, 0 ≤ r < Z.of_nat (length syms) → symbol (read codes r) = read syms r) →
  let lut :=
    foldl (λ lut i, write lut (symbol (read codes i)) i)
          (replicate 256 (-1)) (seqZ 0 (Z.of_nat n)) in
  length lut = 256%nat ∧
  ∀ r, 0 ≤ r < Z.of_nat n → read lut (read syms r) = r.
Proof.
  intros Hnd Hb Hn Hsym. induction n as [|n IH]; cbv zeta.
  - split; [done|]. simpl. lia.
  - destruct IH as [Hlen Hrd]; [lia|].
    rewrite seqZ_S, foldl_snoc, Z.add_0_l.
    split; [by rewrite length_write|].
    intros r Hr. rewrite Hsym by lia.
    assert (Hbn : is_byte (read syms (Z.of_nat n))).
    { rewrite Forall_forall in Hb. apply Hb, list_elem_of_lookup_total_2. lia. }
    assert (Hbr : is_byte (read syms r)).
    { rewrite Forall_forall in Hb. apply Hb, list_elem_of_lookup_total_2. lia. }
    unfold is_byte in *.
    destruct (decide (r = Z.of_nat n)) as [->|Hne].
    + rewrite read_write_eq by lia. done.
    + rewrite read_write_ne; [apply Hrd; lia|lia|lia|].
      intros Heq. apply Hne.
      rewrite <- (index_of_read syms r), <- (index_of_read syms (Z.of_nat n))
        by (done || lia).
      by rewrite Heq.
Qed.

Lemma build_lut_spec codes syms c :
  NoDup syms → Forall is_byte syms →
  (∀ r, 0 ≤ r < Z.of_nat (length syms) → symbol (read codes r) = read syms r) →
  c ∈ syms →
  read (build_lut codes (Z.of_nat (length syms))) c = index_of c syms.
Proof.
  intros Hnd Hb Hsym Hc. unfold build_lut.
  destruct (build_lut_upto codes syms (length syms) Hnd Hb ltac:(lia) Hsym)
    as [_ Hrd].
  destruct (index_of_spec c syms Hc) as [Hi Hc'].
  rewrite <- Hc' at 1. by apply Hrd.
Qed.
End lut.

Section buffer.
Implicit Types (text syms msg : list Z) (codes : list CodeEntry) (c K r : Z).

Lemma write_payload_spec text lut codes syms bw :
  Forall is_byte text →
  Forall (λ c, c ∈ syms ∧ read lut c = index_of c syms) (c_string text) →
  write_payload text lut codes bw
  = Ok (foldl (λ bw c,
                 bw_put_cycle bw (code_m (read codes (index_of c syms)))
                                 (code_j (read codes (index_of c syms))))
              bw (c_string text)).
Proof.
  intros Hb Hlut. unfold write_payload, for_range. rewrite Z.sub_0_r.
  set (h := λ (c : Z) (bw : BitWriter),
         let c := to_uchar c in
         let idx := read lut c in
         if idx <? 0 then Exit 1 SymbolNotInLUT
         else Ok (bw_put_cycle bw (code_m (read codes idx))
                                  (code_j (read codes idx)))).
  trans (for_each h ((λ i, read text i) <$> seqZ 0 (strlen text)) bw);
    [apply (for_each_fmap h (λ i, read text i))|].
  rewrite read_c_string. apply for_each_ok_in.
  pose proof (c_string_bytes text Hb) as Hb'.
  rewrite Forall_forall in Hlut, Hb' |- *. intros c Hc bw'.
  destruct (Hlut c Hc) as [Hin Hidx]. unfold h. cbv zeta.
  rewrite to_uchar_byte by auto. rewrite Hidx.
  destruct (index_of_spec c syms Hin) as [Hi _].
  by destruct (Z.ltb_spec (index_of c syms) 0); [lia|].
Qed.

Lemma build_buffer_spec codes syms bw :
  1 ≤ Z.of_nat (length syms) ≤ 255 →
  (∀ r, 0 ≤ r < Z.of_nat (length syms) → symbol (read codes r) = read syms r) →
  0 ≤ size bw ≤ Z.of_nat (length (data bw)) →
  build_buffer codes (Z.of_nat (length syms)) bw
  = (Z.of_nat (length syms) :: syms ++ take (Z.to_nat (size bw)) (data bw),
     1 + Z.of_nat (length syms) + size bw).
Proof.
  intros HK Hsym Hsz. unfold build_buffer. f_equal.
  set (K := Z.of_nat (length syms)) in *.
  rewrite to_uchar_byte by (unfold is_byte; lia).
  assert (Hsyms : (λ i, symbol (read codes i)) <$> seqZ 0 K = syms).
  { trans ((λ i, read syms i) <$> seqZ 0 K).
    - apply Forall_fmap_ext_1, Forall_seqZ. intros r Hr. apply Hsym. lia.
    - pose proof (fmap_read_seqZ (λ i, i) [] syms []) as Hrd.
      simpl in Hrd. rewrite app_nil_r in Hrd. apply Hrd. intros i. lia. }
  unfold K at 3.
  rewrite (foldl_write_seqZ (λ i, 1 + i) _ _ 1)
    by (intros; rewrite ?length_write, ?length_replicate; lia).
  fold K. rewrite Hsyms.
  replace (Z.to_nat (1 + K + size bw)) with (S (Z.to_nat (K + size bw))) by lia.
  unfold write at 1 2. simpl take. simpl drop.
  unfold memcpy.
  replace (Z.to_nat (1 + K)) with (length ([K] ++ syms))
    by (rewrite length_app; simpl; lia).
  rewrite take_0, (app_assoc [K] syms), take_app_length.
  rewrite drop_ge; [by rewrite app_nil_r, <- app_assoc|].
  rewrite !length_app, length_drop, length_replicate. simpl. lia.
Qed.
End buffer.

(** ** Compression: the whole call *)

Section compress.
Implicit Types (text syms msg : list Z) (codes : list CodeEntry) (c K r : Z).

(** The empty text: no symbol is collected and the buffer is empty. *)
Lemma compress_empty text :
  Forall is_byte text → c_string text = [] →
  compress_cycle_based text = Ok ([], 0).
Proof.
  intros Hb Hmsg. unfold compress_cycle_based.
  destruct (count_character_frequency_spec text Hb) as [Hlen Hft].
  rewrite Hmsg in Hft.
  set (ft := count_character_frequency _ _) in *.
  unfold compress_with_freq. rewrite collect_symbols_spec.
  pose proof (length_entries_distinct ft [] ltac:(constructor) Hft) as HK.
  simpl in HK. rewrite HK. done.
Qed.

(** What the compressor answers on a text whose C string is not empty. *)
Lemma compress_spec text :
  Forall is_byte text → c_string text ≠ [] →
  let msg := c_string text in
  ∃ syms bw,
    let K := Z.of_nat (length syms) in
    compress_cycle_based text
    = Ok (K :: syms ++ take (Z.to_nat (size bw)) (data bw),
          1 + K + size bw) ∧
    1 ≤ K ≤ 255 ∧
    syms ≡ₚ distinct_bytes msg ∧ NoDup syms ∧
    StronglySorted (rank_before msg) syms ∧
    bw_holds bw (msg ≫= λ c, cycle_bits (rank_cycle K (index_of c syms))).
Proof.
  intros Hb Hne msg.
  destruct (count_character_frequency_spec text Hb) as [Hlen Hft]. fold msg in Hft.
  pose proof (c_string_bytes text Hb) as Hbm. fold msg in Hbm.
  pose proof (c_string_no_nul text) as Hnz. fold msg in Hnz.
  unfold compress_cycle_based.
  set (ft := count_character_frequency _ _) in *.
  unfold compress_with_freq. rewrite collect_symbols_spec.
  set (ents := entries_of ft (seqZ 0 256)).
  pose proof (length_entries_pos ft msg Hbm Hne Hft) as Hpos.
  pose proof (length_entries_le_255 ft msg Hbm Hnz Hft) as Hle.
  fold ents in Hpos, Hle.
  destruct (sorted_symbols ft msg Hbm Hft) as (Hperm & Hnd & Hss).
  fold ents in Hperm, Hnd, Hss.
  set (sorted := merge_sort entry_le ents) in *.
  set (syms := symbol <$> sorted) in *.
  assert (Hlens : length syms = length ents).
  { unfold syms, sorted. rewrite length_fmap.
    apply Permutation_length, merge_sort_Permutation. }
  destruct (Z.eqb_spec (Z.of_nat (length ents)) 0); [lia|].
  destruct (Z.ltb_spec 255 (Z.of_nat (length ents))); [lia|].
  rewrite qsort_collected. fold sorted.
  set (codes0 := sorted ++ replicate (256 - length ents) blank_entry).
  assert (Hlen0 : length codes0 = 256%nat).
  { unfold codes0. rewrite length_app, length_replicate.
    unfold syms in Hlens. rewrite length_fmap in Hlens. lia. }
  rewrite generate_cycles_for_codes_spec by lia. simpl.
  set (T := assign_cycles _ codes0).
  rewrite <- Hlens.
  assert (HT : ∀ r, 0 ≤ r < Z.of_nat (length syms) →
            symbol (read T r) = read syms r).
  { intros r Hr. unfold T. rewrite table_symbol by lia.
    unfold codes0. rewrite read_app_l
      by (unfold syms in Hr; rewrite length_fmap in Hr; lia).
    unfold read, syms. rewrite (list_lookup_total_fmap symbol); [done|].
    unfold syms in Hr. rewrite length_fmap in Hr. lia. }
  assert (Hbs : Forall is_byte syms).
  { rewrite Hperm. unfold distinct_bytes. apply Forall_forall. intros c Hc.
    rewrite elem_of_remove_dups in Hc.
    rewrite Forall_forall in Hbm. by apply Hbm. }
  assert (Hin : ∀ c, c ∈ msg → c ∈ syms).
  { intros c Hc. rewrite Hperm. by apply elem_of_remove_dups. }
  assert (Hlut : Forall (λ c, c ∈ syms ∧
            read (build_lut T (Z.of_nat (length syms))) c = index_of c syms)
          (c_string text)).
  { apply Forall_forall. intros c Hc. split; [by apply Hin|].
    apply build_lut_spec; auto. }
  rewrite (write_payload_spec text _ T syms _ Hb Hlut).
  simpl. fold msg.
  set (bw := foldl _ (bw_init 64) msg).
  assert (Hbw : bw_holds bw
     (msg ≫= λ c, cycle_bits (rank_cycle (Z.of_nat (length syms))
                                          (index_of c syms)))).
  { unfold bw.
    rewrite <- (foldl_fmap (λ bw r, bw_put_cycle bw (code_m (read T r))
                                       (code_j (read T r)))
                  (bw_init 64) msg (λ c, index_of c syms)).
    pose proof (bw_put_cycles_holds T ((λ c, index_of c syms) <$> msg)
                  (bw_init 64) [] (bw_init_holds 64 ltac:(lia))) as Hh.
    simpl in Hh. rewrite list_fmap_bind in Hh.
    rewrite (Forall_bind_ext _
       (λ c, cycle_bits (rank_cycle (Z.of_nat (length syms))
                                    (index_of c syms)))) in Hh; [done|].
    apply Forall_forall. intros c Hc. simpl. f_equal.
    destruct (index_of_spec c syms (Hin c Hc)) as [Hi _].
    unfold T. rewrite Hlens. apply table_cycle; lia. }
  exists syms, bw. split_and!; try done; try lia.
  destruct (bw_holds_length _ _ Hbw) as (_ & _ & Hsz).
  pose proof (bwh_capacity _ _ Hbw). pose proof (bwh_fits _ _ Hbw).
  rewrite build_buffer_spec by (done || lia). done.
Qed.
End compress.

(** ** The round trip *)

Section codec.
Implicit Types (text syms msg out_text : list Z) (c K r : Z).

Lemma c_string_app_nul msg rest :
  Forall (λ c, c ≠ 0) msg → c_string (msg ++ 0 :: rest) = msg.
Proof.
  induction 1 as [|c msg Hc _ IH]; simpl; [done|].
  destruct (Z.eqb_spec c 0); [done|]. by rewrite IH.
Qed.

(** Compressing a text and decompressing the answer with the text's length
    gives back the text's C string. *)
Lemma compress_then_decompress text out_text :
  Forall is_byte text →
  (length (c_string text) < length out_text)%nat →
  let msg := c_string text in
  ∃ data size,
    compress_cycle_based text = Ok (data, size) ∧
    size = Z.of_nat (length data) ∧
    decompress_cycle_based data size (Z.of_nat (length msg)) out_text
    = Ok (msg ++ 0 :: drop (S (length msg)) out_text, None).
Proof.
  intros Hb Hroom msg. destruct (decide (msg = [])) as [Hnil|Hne].
  - exists [], 0. rewrite compress_empty by done. split_and!; [done..|].
    fold msg in Hroom. rewrite Hnil in *. simpl.
    destruct out_text; simpl in *; [lia|]. by rewrite drop_0.
  - destruct (compress_spec text Hb Hne)
      as (syms & bw & Hcomp & HK & Hperm & Hnd & _ & Hbw).
    fold msg in Hperm, Hbw.
    set (K := Z.of_nat (length syms)) in *.
    assert (Hin : ∀ c, c ∈ msg → c ∈ syms).
    { intros c Hc. rewrite Hperm. by apply elem_of_remove_dups. }
    set (rs := (λ c, index_of c syms) <$> msg).
    assert (Hrs : Forall (λ r, 0 ≤ r < K) rs).
    { apply Forall_fmap, Forall_forall. intros c Hc. simpl.
      by destruct (index_of_spec c syms (Hin c Hc)). }
    assert (Hbw' : bw_holds bw (rs ≫= λ r, cycle_bits (rank_cycle K r))).
    { unfold rs. by rewrite list_fmap_bind. }
    destruct (decode_ranks K syms rs bw out_text HK eq_refl Hrs
                ltac:(unfold rs; rewrite length_fmap; done) Hbw')
      as [_ Hdec].
    destruct (bw_holds_length _ _ Hbw) as (_ & Hlen & Hsz).
    eexists _, _. split; [exact Hcomp|]. split.
    + simpl. rewrite length_app, Hlen. lia.
    + unfold rs in Hdec. rewrite length_fmap in Hdec. rewrite Hdec.
      do 3 f_equal. rewrite <- list_fmap_compose.
      rewrite <- (list_fmap_id msg) at 2. apply Forall_fmap_ext_1.
      apply Forall_forall. intros c Hc. simpl.
      by destruct (index_of_spec c syms (Hin c Hc)).
Qed.

Lemma nonzero_bytes msg :
  Forall (λ c, 1 ≤ c ≤ 255) msg →
  Forall is_byte msg ∧ Forall (λ c, c ≠ 0) msg.
Proof.
  intros H. split; (eapply Forall_impl; [exact H|]); unfold is_byte;
    simpl; intros; lia.
Qed.
End codec.

(** ** The ways out of the compressor *)

Section failure.
Implicit Types (text syms msg out_text freq_table : list Z) (c K r : Z).

Lemma for_each_no_exit {S} (h : Z → S → result S) status (err : stderr_msg)
    idx (s : S) :
  (∀ i s, h i s ≠ Exit status err) → for_each h idx s ≠ Exit status err.
Proof.
  intros Hh. revert s. induction idx as [|i idx IH]; intros s; simpl; [done|].
  destruct (h i s) as [s'| |] eqn:Hi; simpl; [apply IH| |done].
  rewrite <- Hi. apply Hh.
Qed.

Lemma write_payload_no_exit text lut codes bw :
  write_payload text lut codes bw ≠ Exit 1 MoreThan255Symbols.
Proof.
  unfold write_payload, for_range. apply for_each_no_exit. intros i s.
  cbv zeta. by destruct (_ <? 0).
Qed.

(** The exit of the oversized alphabet is taken exactly when more than 255
    symbols were collected. *)
Lemma compress_with_freq_exit text freq_table :
  compress_with_freq text freq_table = Exit 1 MoreThan255Symbols
  ↔ 255 < (collect_symbols freq_table).2.
Proof.
  unfold compress_with_freq. rewrite collect_symbols_spec. simpl.
  set (ents := entries_of freq_table (seqZ 0 256)).
  pose proof (length_entries_of freq_table (seqZ 0 256)) as Hlen.
  rewrite length_seqZ in Hlen. fold ents in Hlen.
  destruct (Z.eqb_spec (Z.of_nat (length ents)) 0) as [H0|H0];
    [split; [done|lia]|].
  destruct (Z.ltb_spec 255 (Z.of_nat (length ents))) as [Hgt|Hle]; [done|].
  split; [|lia]. intros Hexit. exfalso.
  rewrite qsort_collected in Hexit.
  rewrite generate_cycles_for_codes_spec in Hexit.
  2: { rewrite length_app, length_replicate.
       pose proof (Permutation_length (merge_sort_Permutation entry_le ents)).
       lia. }
  simpl in Hexit.
  destruct (write_payload text _ _ _) eqn:Hw; simpl in Hexit; [done| |done].
  injection Hexit as -> ->. by apply write_payload_no_exit in Hw.
Qed.

Lemma collected_le_255 text :
  Forall is_byte text →
  (collect_symbols
     (count_character_frequency text (replicate (Z.to_nat ALPHABET_SIZE) 0))).2
  ≤ 255.
Proof.
  intros Hb. destruct (count_character_frequency_spec text Hb) as [_ Hft].
  rewrite collect_symbols_spec. cbn [snd].
  pose proof (length_entries_le_255 _ _ (c_string_bytes text Hb)
                (c_string_no_nul text) Hft). lia.
Qed.

Lemma compress_returns text :
  Forall is_byte text →
  ∃ out_data out_size, compress_cycle_based text = Ok (out_data, out_size).
Proof.
  intros Hb. destruct (decide (c_string text = [])) as [Hnil|Hne].
  - exists [], 0. by apply compress_empty.
  - destruct (compress_spec text Hb Hne) as (syms & bw & Hc & _). eauto.
Qed.

End failure.

(** ** Further facts about the bit writer *)

Section writer.
Implicit Types (bits : list bool) (bw : BitWriter) (x y q i : Z).

Lemma bw_put_bit_list_holds (bs : list Z) : ∀ bw bits,
  bw_holds bw bits →
  bw_holds (foldl bw_put_bit bw bs) (bits ++ ((λ b, negb (b =? 0)) <$> bs)).
Proof.
  induction bs as [|b bs IH]; intros bw bits Hbw; simpl.
  - by rewrite app_nil_r.
  - rewrite cons_middle, app_assoc. apply IH. by apply bw_put_bit_holds.
Qed.

Lemma bw_free_holds bw : bw_holds (bw_free bw) [].
Proof. split; simpl; try done; lia. Qed.

Lemma bit_of_fmap (bs : list Z) i :
  0 ≤ i < Z.of_nat (length bs) →
  bit_of ((λ b, negb (b =? 0)) <$> bs) i = if read bs i =? 0 then 0 else 1.
Proof.
  intros Hi. unfold bit_of. rewrite list_lookup_fmap, lookup_read by lia.
  simpl. by destruct (read bs i =? 0).
Qed.

(** What a writer that holds the bits of [bs] shows to a reader. *)
Lemma bw_holds_view bw (bs : list Z) :
  bw_holds bw ((λ b, negb (b =? 0)) <$> bs) →
  let n := Z.of_nat (length bs) in
  size bw = (n + 7) / 8 ∧
  bit_pos bw = (if n =? 0 then 0 else n - 8 * (size bw - 1)) ∧
  size bw ≤ capacity bw ∧ capacity bw = Z.of_nat (length (data bw)) ∧
  (∀ i, 0 ≤ i < n →
     payload_bit (data bw) i = if read bs i =? 0 then 0 else 1) ∧
  (∀ i, n ≤ i < 8 * size bw → payload_bit (data bw) i = 0).
Proof.
  intros [Hcap Hsz Hfit Hpos Hbits] n. rewrite length_fmap in *. fold n in Hsz, Hpos.
  assert (Hn : 0 ≤ n) by (unfold n; lia).
  split_and!; try done.
  - intros i Hi. rewrite Hbits by (rewrite Hsz; Z.div_mod_to_equations; lia).
    by apply bit_of_fmap.
  - intros i Hi. rewrite Hbits by lia. apply bit_of_ge.
    rewrite length_fmap. lia.
Qed.

Lemma bw_ensure_space_bytes bw :
  Forall is_byte (data bw) → Forall is_byte (data (bw_ensure_space bw)).
Proof.
  intros Hb. unfold bw_ensure_space. destruct (_ <=? _); simpl; [|done].
  apply Forall_app. split; [done|]. apply Forall_replicate.
  unfold is_byte. lia.
Qed.

Lemma to_uchar_is_byte x : is_byte (to_uchar x).
Proof. unfold is_byte, to_uchar. apply Z.mod_pos_bound. lia. Qed.

Lemma bw_put_bit_bytes bw bit :
  Forall is_byte (data bw) → Forall is_byte (data (bw_put_bit bw bit)).
Proof.
  intros Hb. assert (H0 : is_byte 0) by (unfold is_byte; lia).
  unfold bw_put_bit.
  repeat match goal with
  | |- context [if ?c then _ else _] => destruct c
  end; simpl; unfold write;
    repeat first [ apply Forall_insert | apply bw_ensure_space_bytes
                 | apply to_uchar_is_byte | done ].
Qed.

Lemma bw_put_bits_bytes (bs : list Z) : ∀ bw,
  Forall is_byte (data bw) → Forall is_byte (data (foldl bw_put_bit bw bs)).
Proof.
  induction bs as [|b bs IH]; intros bw Hb; simpl; [done|].
  by apply IH, bw_put_bit_bytes.
Qed.

(** A byte is told by its eight bits. *)
Lemma byte_bits_inj x y :
  is_byte x → is_byte y →
  (∀ q, 0 ≤ q ≤ 7 → byte_bit x q = byte_bit y q) → x = y.
Proof.
  unfold is_byte. intros Hx Hy Hq. apply Z.bits_inj'. intros n Hn.
  destruct (decide (n ≤ 7)) as [Hle|Hgt].
  - specialize (Hq (7 - n) ltac:(lia)).
    rewrite !byte_bit_testbit in Hq by lia.
    replace (7 - (7 - n)) with n in Hq by lia.
    by destruct (Z.testbit x n), (Z.testbit y n).
  - rewrite <- (Z.mod_small x (2 ^ 8)), <- (Z.mod_small y (2 ^ 8)) by lia.
    by rewrite !Z.mod_pow2_bits_high by lia.
Qed.

(** Two writers that hold the same bits hold the same bytes. *)
Lemma bw_holds_same_bytes bw1 bw2 bits :
  bw_holds bw1 bits → bw_holds bw2 bits →
  Forall is_byte (data bw1) → Forall is_byte (data bw2) →
  size bw1 = size bw2 ∧ bit_pos bw1 = bit_pos bw2 ∧
  take (Z.to_nat (size bw1)) (data bw1) = take (Z.to_nat (size bw2)) (data bw2).
Proof.
  intros H1 H2 Hb1 Hb2.
  assert (Hsz : size bw1 = size bw2)
    by (by rewrite (bwh_size _ _ H1), (bwh_size _ _ H2)).
  split; [done|]. split.
  { by rewrite (bwh_bit_pos _ _ H1), (bwh_bit_pos _ _ H2), Hsz. }
  destruct (bw_holds_length _ _ H1) as (_ & Hl1 & Hs1).
  destruct (bw_holds_length _ _ H2) as (_ & Hl2 & Hs2).
  apply list_eq_same_length with (Z.to_nat (size bw1)); [lia|lia|].
  intros k x y Hk Hx Hy.
  rewrite lookup_take_lt in Hx, Hy by lia.
  rewrite Forall_lookup in Hb1, Hb2.
  apply byte_bits_inj; [by eapply Hb1|by eapply Hb2|]. intros q Hq.
  pose proof (bwh_bits _ _ H1 (8 * Z.of_nat k + q) ltac:(lia)) as E1.
  pose proof (bwh_bits _ _ H2 (8 * Z.of_nat k + q) ltac:(lia)) as E2.
  rewrite payload_bit_eq in E1, E2 by lia.
  replace ((8 * Z.of_nat k + q) / 8) with (Z.of_nat k) in E1, E2
    by (Z.div_mod_to_equations; lia).
  replace ((8 * Z.of_nat k + q) mod 8) with q in E1, E2
    by (Z.div_mod_to_equations; lia).
  unfold read in E1, E2. rewrite Nat2Z.id in E1, E2.
  rewrite (list_lookup_total_correct _ _ _ Hx) in E1.
  rewrite (list_lookup_total_correct _ _ _ Hy) in E2.
  congruence.
Qed.
End writer.

Lemma bw_put_bit_capacity bw bit : capacity bw ≤ capacity (bw_put_bit bw bit).
Proof.
  assert (He : ∀ bw, capacity bw ≤ capacity (bw_ensure_space bw)).
  { intros bw'. unfold bw_ensure_space.
    destruct (Z.leb_spec (capacity bw') (size bw')); simpl; [|lia].
    destruct (Z.ltb_spec (capacity bw' * 2) 16); lia. }
  unfold bw_put_bit.
  repeat match goal with
  | |- context [if ?c then _ else _] => destruct c
  end; simpl; try lia;
  repeat match goal with
  | |- context [bw_ensure_space ?b] =>
      lazymatch goal with
      | _ : capacity b ≤ capacity (bw_ensure_space b) |- _ => fail
      | _ => pose proof (He b)
      end
  end; simpl in *; lia.
Qed.

Lemma bw_put_bits_capacity (bs : list Z) : ∀ bw,
  capacity bw ≤ capacity (foldl bw_put_bit bw bs).
Proof.
  induction bs as [|b bs IH]; intros bw; simpl; [lia|].
  etrans; [apply (bw_put_bit_capacity bw b)|apply IH].
Qed.

(** ** Further facts about the code table *)

Section more_tables.
Implicit Types (codes : list CodeEntry) (ps : list (Z * Z)) (K : Z).

Lemma freqs_of_assign_cycles ps codes :
  freq <$> assign_cycles ps codes = freq <$> codes.
Proof.
  revert codes. induction ps as [|p ps IH]; intros [|e codes]; simpl; try done.
  by rewrite IH.
Qed.

Lemma drop_assign_cycles ps codes :
  drop (length ps) (assign_cycles ps codes) = drop (length ps) codes.
Proof.
  revert codes. induction ps as [|p ps IH]; intros [|e codes]; simpl; try done.
Qed.
End more_tables.

Section closed_form.
Implicit Types (K L d r : Z) (p : Z * Z).

Lemma length_cycles_below (n : nat) :
  Z.of_nat (length (cycles_below (2 + Z.of_nat n))) * 2
  = Z.of_nat n * (Z.of_nat n + 1).
Proof.
  induction n as [|n IH]; [done|].
  replace (2 + Z.of_nat (S n)) with (2 + Z.of_nat n + 1) by lia.
  rewrite cycles_below_succ, length_app, length_cycles_of_length by lia. nia.
Qed.

Lemma lookup_cycles_of_length L d :
  0 ≤ d < L - 1 →
  cycles_of_length L !! Z.to_nat d = Some (L - 1 - d, 1 + d).
Proof.
  intros Hd. unfold cycles_of_length.
  rewrite list_lookup_fmap, reverse_lookup by (rewrite length_seqZ; lia).
  rewrite length_seqZ.
  replace (Z.to_nat (L - 1) - S (Z.to_nat d))%nat with (Z.to_nat (L - 2 - d))
    by lia.
  rewrite lookup_seqZ_lt by lia. simpl. f_equal. f_equal; lia.
Qed.

(** The pair of rank [r]: with [r] the [d]-th rank among those of length
    [L], it is [(L - 1 - d, 1 + d)]. *)
Lemma rank_cycle_closed_form K L d :
  2 ≤ L → 0 ≤ d < L - 1 →
  let r := (L - 1) * (L - 2) / 2 + d in
  r < K → rank_cycle K r = (L - 1 - d, 1 + d).
Proof.
  intros HL Hd r Hr.
  pose proof (length_cycles_below (Z.to_nat (L - 2))) as Hlen.
  replace (2 + Z.of_nat (Z.to_nat (L - 2))) with L in Hlen by lia.
  rewrite Z2Nat.id in Hlen by lia.
  assert (Hlen' : Z.of_nat (length (cycles_below L)) = (L - 1) * (L - 2) / 2).
  { replace ((L - 1) * (L - 2)) with ((L - 2) * (L - 2 + 1)) by lia.
    rewrite <- Hlen. by rewrite Z.div_mul. }
  assert (Hr0 : 0 ≤ r) by (unfold r; lia).
  assert (Hin : cycles_below (L + 1) !! Z.to_nat r = Some (L - 1 - d, 1 + d)).
  { rewrite cycles_below_succ by done.
    rewrite lookup_app_r by (unfold r; lia).
    replace (Z.to_nat r - length (cycles_below L))%nat with (Z.to_nat d)
      by (unfold r; lia).
    by apply lookup_cycles_of_length. }
  unfold rank_cycle. apply list_lookup_total_correct.
  unfold canonical_cycles. rewrite lookup_take_lt by lia.
  destruct (decide (L + 1 ≤ K + 2)) as [Hle|Hgt].
  - eapply prefix_lookup_Some; [exact Hin|]. apply cycles_below_mono. lia.
  - pose proof (length_cycles_below_ge (Z.to_nat K)) as Hge.
    replace (2 + Z.of_nat (Z.to_nat K)) with (K + 2) in Hge by lia.
    destruct (lookup_lt_is_Some_2 (cycles_below (K + 2)) (Z.to_nat r))
      as [q Hq]; [lia|].
    rewrite Hq. f_equal.
    assert (Hq' : cycles_below (L + 1) !! Z.to_nat r = Some q).
    { eapply prefix_lookup_Some; [exact Hq|]. apply cycles_below_mono. lia. }
    congruence.
Qed.

Lemma rank_cycle_elem K r :
  0 ≤ r < K → rank_cycle K r ∈ canonical_cycles K.
Proof.
  intros Hr. apply list_elem_of_lookup_total_2.
  pose proof (length_canonical_cycles K ltac:(lia)). lia.
Qed.

Lemma rank_cycle_lookup K r :
  0 ≤ r < K → canonical_cycles K !! Z.to_nat r = Some (rank_cycle K r).
Proof.
  intros Hr. apply list_lookup_lookup_total_lt.
  pose proof (length_canonical_cycles K ltac:(lia)). lia.
Qed.

(** With at most 255 symbols no code is longer than 24 bits. *)
Lemma rank_cycle_length K r :
  K ≤ 255 → 0 ≤ r < K →
  2 ≤ (rank_cycle K r).1 + (rank_cycle K r).2 ≤ 24.
Proof.
  intros HK Hr. pose proof (rank_cycle_elem K r Hr) as Hin.
  rewrite <- (take_cycles_below K 25) in Hin.
  - apply elem_of_take in Hin as (i & Hi & _).
    apply list_elem_of_lookup_2, elem_of_cycles_below in Hi. lia.
  - lia.
  - pose proof (length_cycles_below 23) as Hlen.
    change (2 + Z.of_nat 23) with 25 in Hlen. lia.
Qed.

Lemma rank_cycle_mono K r1 r2 :
  0 ≤ r1 → r1 ≤ r2 → r2 < K →
  (rank_cycle K r1).1 + (rank_cycle K r1).2
  ≤ (rank_cycle K r2).1 + (rank_cycle K r2).2.
Proof.
  intros H0 H12 H2. destruct (decide (r1 = r2)) as [->|Hne]; [lia|].
  pose proof (canonical_cycles_lookup_lt K (Z.to_nat r1) (Z.to_nat r2) _ _
                (rank_cycle_lookup K r1 ltac:(lia))
                (rank_cycle_lookup K r2 ltac:(lia)) ltac:(lia)) as Hlt.
  unfold cycle_lt in Hlt. lia.
Qed.
End closed_form.

Section lut_inverse.
Implicit Types (codes : list CodeEntry) (c K r : Z).

Lemma build_lut_steps codes (n : nat) :
  (∀ r, 0 ≤ r < Z.of_nat n → is_byte (symbol (read codes r))) →
  (∀ r1 r2, 0 ≤ r1 < Z.of_nat n → 0 ≤ r2 < Z.of_nat n →
     symbol (read codes r1) = symbol (read codes r2) → r1 = r2) →
  let lut :=
    foldl (λ lut i, write lut (symbol (read codes i)) i)
          (replicate 256 (-1)) (seqZ 0 (Z.of_nat n)) in
  length lut = 256%nat ∧
  (∀ r, 0 ≤ r < Z.of_nat n → read lut (symbol (read codes r)) = r) ∧
  (∀ c, is_byte c →
     (∀ r, 0 ≤ r < Z.of_nat n → symbol (read codes r) ≠ c) → read lut c = -1).
Proof.
  induction n as [|n IH]; intros Hb Hinj; cbv zeta.
  - split_and!; [done|lia|]. intros c Hc _. unfold read, is_byte in *.
    apply lookup_total_replicate_2. lia.
  - destruct IH as (Hlen & Hrd & Hno).
    { intros r Hr. apply Hb. lia. }
    { intros r1 r2 H1 H2. apply Hinj; lia. }
    rewrite seqZ_S, foldl_snoc, Z.add_0_l.
    pose proof (Hb (Z.of_nat n) ltac:(lia)) as Hbn. unfold is_byte in Hbn.
    split_and!.
    + by rewrite length_write.
    + intros r Hr. pose proof (Hb r Hr) as Hbr. unfold is_byte in Hbr.
      destruct (decide (r = Z.of_nat n)) as [->|Hne].
      * rewrite read_write_eq by lia. done.
      * rewrite read_write_ne; [apply Hrd; lia|lia|lia|].
        intros Heq. apply Hne. symmetry. apply Hinj; [lia|lia|done].
    + intros c Hc Habs. unfold is_byte in Hc.
      rewrite read_write_ne; [|lia|lia|apply Habs; lia].
      apply Hno; [done|]. intros r Hr. apply Habs. lia.
Qed.
End lut_inverse.

Lemma StronglySorted_filter {A} (R : relation A) (P : A → Prop)
    `{∀ x, Decision (P x)} (l : list A) :
  StronglySorted R l → StronglySorted R (filter P l).
Proof.
  induction 1 as [|x l Hl IH Hx]; [constructor|].
  rewrite filter_cons. destruct (decide (P x)); [|done].
  constructor; [done|]. apply Forall_forall. intros y Hy.
  apply list_elem_of_filter in Hy as [_ Hy].
  rewrite Forall_forall in Hx. by apply Hx.
Qed.

Lemma seqZ_sorted (lo : Z) (n : nat) : StronglySorted Z.lt (seqZ lo (Z.of_nat n)).
Proof.
  revert lo. induction n as [|n IH]; intros lo; [constructor|].
  rewrite seqZ_cons by lia. constructor.
  - replace (Z.pred (Z.of_nat (S n))) with (Z.of_nat n) by lia. apply IH.
  - apply Forall_forall. intros x Hx. apply elem_of_seqZ in Hx. lia.
Qed.

(** ** Further facts about the compressor *)

Section text_only.
Implicit Types (text msg : list Z).

Lemma c_string_idemp text : c_string (c_string text) = c_string text.
Proof. apply c_string_id, c_string_no_nul. Qed.

Lemma count_character_frequency_c_string text freq_table :
  count_character_frequency text freq_table
  = foldl (λ ft c, write ft (to_uchar c) (read ft (to_uchar c) + 1))
          freq_table (c_string text).
Proof.
  unfold count_character_frequency.
  rewrite <- (foldl_fmap (λ ft c, write ft (to_uchar c)
                                   (read ft (to_uchar c) + 1))
                _ _ (λ i, read text i)).
  by rewrite read_c_string.
Qed.

Lemma write_payload_c_string text lut codes bw :
  write_payload text lut codes bw
  = for_each (λ c bw,
                let c := to_uchar c in
                let idx := read lut c in
                if idx <? 0 then Exit 1 SymbolNotInLUT
                else Ok (bw_put_cycle bw (code_m (read codes idx))
                                         (code_j (read codes idx))))
             (c_string text) bw.
Proof.
  unfold write_payload, for_range. rewrite Z.sub_0_r.
  rewrite <- read_c_string.
  apply (for_each_fmap
           (λ c bw,
              let c := to_uchar c in
              let idx := read lut c in
              if idx <? 0 then Exit 1 SymbolNotInLUT
              else Ok (bw_put_cycle bw (code_m (read codes idx))
                                       (code_j (read codes idx))))
           (λ i, read text i)).
Qed.

Lemma compress_c_string text :
  compress_cycle_based text = compress_cycle_based (c_string text).
Proof.
  unfold compress_cycle_based, compress_with_freq.
  rewrite !count_character_frequency_c_string, c_string_idemp.
  destruct (collect_symbols _) as [codes K].
  destruct (K =? 0); [done|]. destruct (255 <? K); [done|].
  destruct (generate_cycles_for_codes _ _); simpl; try done.
  by rewrite !write_payload_c_string, c_string_idemp.
Qed.
End text_only.

Section sizes.
Implicit Types (msg syms : list Z) (K : Z).

Lemma length_bind_bounds {A B} (f : A → list B) (l : list A) (lo hi : Z) :
  Forall (λ x, lo ≤ Z.of_nat (length (f x)) ≤ hi) l →
  lo * Z.of_nat (length l) ≤ Z.of_nat (length (l ≫= f))
  ≤ hi * Z.of_nat (length l).
Proof.
  induction 1 as [|x l Hx _ IH]; [simpl; lia|].
  rewrite bind_cons, length_app. simpl length. lia.
Qed.

Lemma rank_before_index msg syms a b :
  StronglySorted (rank_before msg) syms → a ∈ syms → b ∈ syms →
  occurrences b msg < occurrences a msg →
  index_of a syms < index_of b syms.
Proof.
  intros Hss Ha Hb Hocc.
  destruct (index_of_spec a syms Ha) as [Hia Hra].
  destruct (index_of_spec b syms Hb) as [Hib Hrb].
  destruct (Z.lt_trichotomy (index_of a syms) (index_of b syms))
    as [Hlt|[Heq|Hgt]]; [done| |].
  - assert (a = b) by congruence. subst. lia.
  - pose proof (StronglySorted_lookup _ _ (Z.to_nat (index_of b syms))
                  (Z.to_nat (index_of a syms)) _ _ Hss
                  (lookup_read _ _ Hib) (lookup_read _ _ Hia) ltac:(lia)) as Hr.
    rewrite Hra, Hrb in Hr. unfold rank_before in Hr. lia.
Qed.
End sizes.

(** ** Further facts about the decoder *)

Section decode_silence.
Context (codes : list CodeEntry) (K : Z) (payload : list Z)
  (payload_bytes original_len : Z).
Implicit Types (st : DecodeState) (ps : list (Z * Z)) (s m j : Z).

#[local] Abbreviation body := (decode_one codes K payload payload_bytes).
#[local] Abbreviation cond := (decode_cond payload_bytes original_len).

Lemma cycles_at_end s ps :
  0 ≤ s ≤ payload_bytes * 8 → cycles_at payload payload_bytes s ps →
  s + foldr (λ p n, p.1 + p.2 + n) 0 ps ≤ payload_bytes * 8.
Proof.
  revert s. induction ps as [|p ps IH]; intros s Hs Hat; simpl in *; [lia|].
  destruct Hat as [Hp Hat]. pose proof Hp as (? & ? & ? & ? & _).
  pose proof (IH (s + p.1 + p.2) ltac:(lia) Hat). lia.
Qed.

(** After the cycles of the message the payload holds zeros only, and more
    symbols are asked for than it holds: the loop decodes them all and
    stops at the end of the payload, with nothing on [stderr]. *)
Lemma decode_until_zeros ps out0 :
  0 ≤ payload_bytes →
  cycles_at payload payload_bytes 0 ps →
  Forall (λ p, 0 ≤ find_code codes p.1 p.2 (seqZ 0 K)) ps →
  Z.of_nat (length ps) ≤ original_len →
  (length ps ≤ length out0)%nat →
  (∀ i, foldr (λ p n, p.1 + p.2 + n) 0 ps ≤ i < payload_bytes * 8 →
     payload_bit payload i = 0) →
  ∃ bi brk,
    while (Z.to_nat (payload_bytes * 8)) cond body
      (mkDecodeState 0 0 out0 false None)
    = Ok (mkDecodeState bi (Z.of_nat (length ps))
            (symbols_of codes K ps ++ drop (length ps) out0) brk None).
Proof.
  intros Hpb Hat Hfound Hlen Hroom Hzeros.
  destruct (cycles_at_bound payload payload_bytes 0 ps) as [Hb Hsum];
    [lia|done|].
  set (B := foldr (λ p n, p.1 + p.2 + n) 0 ps) in *.
  assert (HB : B ≤ payload_bytes * 8).
  { pose proof (cycles_at_end 0 ps ltac:(lia) Hat). unfold B. lia. }
  destruct (decide (B < payload_bytes * 8)) as [Hlt|Hge].
  - replace (Z.to_nat (payload_bytes * 8))
      with (length ps + S (Z.to_nat (payload_bytes * 8) - length ps - 1))%nat
      by lia.
    rewrite (decode_run _ _ _ _ _ ps _ _ [] out0);
      [|simpl; try done; try lia ..].
    simpl app. simpl ds_bit_index. simpl ds_stderr. fold B.
    destruct (decide (Z.of_nat (length ps) < original_len)) as [Hmore|Hdone].
    + erewrite while_step; cycle 1.
      * unfold decode_cond, symbols_of. simpl. rewrite length_fmap.
        apply andb_true_iff. split; apply Z.ltb_lt; lia.
      * unfold decode_one. simpl ds_bit_index.
        rewrite scan_cycle_zeros; [done|lia|].
        apply Forall_seqZ. intros t Ht. apply Hzeros. lia.
      * eexists _, _. rewrite while_done by done. simpl.
        unfold symbols_of. by rewrite length_fmap.
    + eexists _, _. rewrite while_done.
      * unfold symbols_of. by rewrite length_fmap.
      * unfold decode_cond, symbols_of. simpl. rewrite length_fmap.
        destruct (Z.ltb_spec (Z.of_nat (length ps)) original_len); [lia|done].
  - replace (Z.to_nat (payload_bytes * 8))
      with (length ps + (Z.to_nat (payload_bytes * 8) - length ps))%nat by lia.
    rewrite (decode_run _ _ _ _ _ ps _ _ [] out0);
      [|simpl; try done; try lia ..].
    simpl app. simpl ds_bit_index. fold B.
    eexists _, _. rewrite while_done.
    + unfold symbols_of. by rewrite length_fmap.
    + unfold decode_cond. simpl.
      destruct (Z.ltb_spec (0 + B) (payload_bytes * 8)); [lia|].
      apply andb_false_r.
Qed.
End decode_silence.

Section any_length.
Implicit Types (comp_data syms payload out_text rs : list Z) (K : Z).

Lemma length_bits_of_cycles (ps : list (Z * Z)) :
  Forall (λ p, 1 ≤ p.1 ∧ 1 ≤ p.2) ps →
  Z.of_nat (length (ps ≫= cycle_bits)) = foldr (λ p n, p.1 + p.2 + n) 0 ps.
Proof.
  induction 1 as [|p ps Hp _ IH]; [done|].
  rewrite bind_cons, length_app, Nat2Z.inj_add, IH, length_cycle_bits by lia.
  simpl. lia.
Qed.

(** The payload a writer holds for the ranks [rs], decoded with any symbol
    count [n]: the first [n] of the symbols, all of them when [n] is
    larger. *)
Lemma decode_ranks_any K syms rs bw out_text (n : Z) :
  1 ≤ K ≤ 255 → Z.of_nat (length syms) = K →
  Forall (λ r, 0 ≤ r < K) rs →
  (length (take (Z.to_nat n) rs) < length out_text)%nat →
  bw_holds bw (rs ≫= λ r, cycle_bits (rank_cycle K r)) →
  let payload := take (Z.to_nat (size bw)) (data bw) in
  let rs' := take (Z.to_nat n) rs in
  decompress_cycle_based (K :: syms ++ payload) (1 + K + size bw) n out_text
  = Ok (((λ r, read syms r) <$> rs') ++ 0 :: drop (S (length rs')) out_text,
        None).
Proof.
  intros HK Hlen Hrs Hroom Hbw payload rs'. fold rs' in Hroom.
  destruct (bw_holds_length _ _ Hbw) as (Hbits & Hpl & Hsz).
  destruct (decode_ranks K syms rs bw (replicate (S (length rs)) 0) HK Hlen Hrs
              ltac:(rewrite length_replicate; lia) Hbw) as [Hat _].
  fold payload in Hat.
  set (comp_data := K :: syms ++ payload).
  assert (HK0 : read comp_data 0 = K) by done.
  rewrite decompress_valid_header; rewrite HK0; [|lia..].
  replace (1 + K + size bw - (1 + K)) with (size bw) by lia.
  replace (drop (Z.to_nat (1 + K)) comp_data) with payload.
  2: { unfold comp_data. replace (Z.to_nat (1 + K)) with (S (length syms)) by lia.
       simpl. by rewrite drop_app_length. }
  set (T := decoder_table comp_data K).
  assert (HT : ∀ r, 0 ≤ r < K →
            find_code T (rank_cycle K r).1 (rank_cycle K r).2 (seqZ 0 K) = r).
  { intros r Hr. unfold T, decoder_table.
    rewrite <- (table_cycle (recover_symbols comp_data K))
      by (rewrite ?length_recover_symbols; lia).
    apply table_find_rank; rewrite ?length_recover_symbols; lia. }
  assert (Hrs' : Forall (λ r, 0 ≤ r < K) rs') by (by apply Forall_take).
  assert (Hfound : Forall (λ p, 0 ≤ find_code T p.1 p.2 (seqZ 0 K))
                     (rank_cycle K <$> rs')).
  { apply Forall_fmap. eapply Forall_impl; [exact Hrs'|].
    intros r Hr. simpl in *. rewrite HT; lia. }
  assert (Hsyms : symbols_of T K (rank_cycle K <$> rs')
                  = (λ r, read syms r) <$> rs').
  { unfold symbols_of. rewrite <- list_fmap_compose.
    apply Forall_fmap_ext_1. eapply Forall_impl; [exact Hrs'|].
    intros r Hr. simpl in *. rewrite HT by lia.
    unfold T. by apply decoder_table_symbol. }
  assert (Hat' : cycles_at payload (size bw) 0 (rank_cycle K <$> rs')).
  { rewrite <- (take_drop (Z.to_nat n) rs), fmap_app in Hat.
    by apply cycles_at_app in Hat as [Hat _]. }
  assert (Hend : ∃ bi brk,
    while (Z.to_nat (size bw * 8)) (decode_cond (size bw) n)
      (decode_one T K payload (size bw)) (mkDecodeState 0 0 out_text false None)
    = Ok (mkDecodeState bi (Z.of_nat (length rs'))
            (((λ r, read syms r) <$> rs') ++ drop (length rs') out_text)
            brk None)).
  { destruct (decide (n < 0)) as [Hneg|Hnn].
    { exists 0, false. unfold rs'. replace (Z.to_nat n) with 0%nat by lia.
      rewrite take_0. simpl. rewrite drop_0. apply while_done.
      unfold decode_cond. simpl.
      destruct (Z.ltb_spec (Z.of_nat 0) n); [lia|done]. }
    destruct (decide (Z.to_nat n ≤ length rs)%nat) as [Hle|Hgt].
    - assert (Hn : Z.of_nat (length (rank_cycle K <$> rs')) = n).
      { unfold rs'. rewrite length_fmap, length_take. lia. }
      destruct (decode_all T K payload (size bw) n (rank_cycle K <$> rs')
                  out_text Hsz Hat' Hfound Hn) as [bi Hrun].
      { rewrite length_fmap. lia. }
      exists bi, false. rewrite Hrun, Hsyms, length_fmap. done.
    - assert (Hall : rs' = rs) by (unfold rs'; apply take_ge; lia).
      assert (Hn : Z.of_nat (length (rank_cycle K <$> rs')) ≤ n).
      { rewrite length_fmap, Hall. lia. }
      assert (Hr : (length (rank_cycle K <$> rs') ≤ length out_text)%nat).
      { rewrite length_fmap. lia. }
      destruct (decode_until_zeros T K payload (size bw) n
                  (rank_cycle K <$> rs') out_text Hsz Hat' Hfound Hn Hr)
        as (bi & brk & Hrun).
      { intros i Hi.
        destruct (cycles_at_bound payload (size bw) 0 (rank_cycle K <$> rs')
                    ltac:(lia) Hat') as [_ Hsum].
        unfold payload. rewrite (bw_holds_payload _ _ _ Hbw) by lia.
        apply bit_of_ge.
        replace (rs ≫= λ r, cycle_bits (rank_cycle K r))
          with ((rank_cycle K <$> rs) ≫= cycle_bits)
          by (by rewrite list_fmap_bind).
        rewrite length_bits_of_cycles, <- Hall; [lia|].
        apply Forall_fmap. eapply Forall_impl; [exact Hrs|].
        intros r Hr'. by apply rank_cycle_positive. }
      exists bi, brk. rewrite Hrun, Hsyms, length_fmap. done. }
  destruct Hend as (bi & brk & ->). simpl.
  pose proof (write_next ((λ r, read syms r) <$> rs') out_text 0) as Hw.
  rewrite length_app, !length_fmap in Hw. simpl in Hw.
  rewrite Hw by lia. rewrite <- app_assoc. simpl.
  by rewrite Nat.add_1_r.
Qed.

(** Compressing a text and decompressing the answer with any symbol count
    [n]: the first [n] bytes of the text's C string. *)
Lemma compress_then_decompress_any text out_text (n : Z) :
  Forall is_byte text →
  let msg := take (Z.to_nat n) (c_string text) in
  (length msg < length out_text)%nat →
  ∃ data size,
    compress_cycle_based text = Ok (data, size) ∧
    decompress_cycle_based data size n out_text
    = Ok (msg ++ 0 :: drop (S (length msg)) out_text, None).
Proof.
  intros Hb msg Hroom. destruct (decide (c_string text = [])) as [Hnil|Hne].
  - exists [], 0. rewrite compress_empty by done. split; [done|].
    unfold msg in *. rewrite Hnil, take_nil in *. simpl.
    destruct out_text; simpl in *; [lia|]. by rewrite drop_0.
  - destruct (compress_spec text Hb Hne)
      as (syms & bw & Hcomp & HK & Hperm & Hnd & _ & Hbw).
    set (K := Z.of_nat (length syms)) in *.
    assert (Hin : ∀ c, c ∈ c_string text → c ∈ syms).
    { intros c Hc. rewrite Hperm. by apply elem_of_remove_dups. }
    set (rs := (λ c, index_of c syms) <$> c_string text).
    assert (Hrs : Forall (λ r, 0 ≤ r < K) rs).
    { apply Forall_fmap, Forall_forall. intros c Hc. simpl.
      by destruct (index_of_spec c syms (Hin c Hc)). }
    assert (Hbw' : bw_holds bw (rs ≫= λ r, cycle_bits (rank_cycle K r))).
    { unfold rs. by rewrite list_fmap_bind. }
    pose proof (decode_ranks_any K syms rs bw out_text n HK eq_refl Hrs) as Hdec.
    unfold rs in Hdec. rewrite <- fmap_take, length_fmap in Hdec.
    fold msg in Hdec. specialize (Hdec Hroom Hbw').
    eexists _, _. split; [exact Hcomp|]. simpl in Hdec. rewrite Hdec.
    do 3 f_equal. rewrite <- list_fmap_compose.
    rewrite <- (list_fmap_id msg) at 2. apply Forall_fmap_ext_1.
    apply Forall_forall. intros c Hc. simpl.
    assert (Hc' : c ∈ c_string text).
    { unfold msg in Hc. by apply elem_of_take in Hc as (i & ?%list_elem_of_lookup_2 & _). }
    by destruct (index_of_spec c syms (Hin c Hc')).
Qed.
End any_length.

Section decode_symbols.
Context (codes : list CodeEntry) (K : Z) (payload : list Z)
  (payload_bytes original_len : Z).
Implicit Types (st : DecodeState) (ps : list (Z * Z)) (s m j : Z).

#[local] Abbreviation body := (decode_one codes K payload payload_bytes).
#[local] Abbreviation cond := (decode_cond payload_bytes original_len).

(** Whatever the payload holds, every symbol the loop writes is the symbol
    of a table entry of rank below K. *)
Lemma decode_total_symbols out0 :
  Z.max 0 original_len ≤ Z.of_nat (length out0) →
  ∃ st decoded,
    while (Z.to_nat (payload_bytes * 8)) cond body
      (mkDecodeState 0 0 out0 false None) = Ok st ∧
    ds_out_text st = decoded ++ drop (length decoded) out0 ∧
    ds_out_pos st = Z.of_nat (length decoded) ∧
    Z.of_nat (length decoded) ≤ Z.max 0 original_len ∧
    Forall (λ c, ∃ r, 0 ≤ r < K ∧ c = symbol (read codes r)) decoded.
Proof.
  intros Hroom.
  edestruct (while_rule
    (λ st, 0 ≤ ds_bit_index st ∧
       ∃ decoded,
         ds_out_text st = decoded ++ drop (length decoded) out0 ∧
         ds_out_pos st = Z.of_nat (length decoded) ∧
         Z.of_nat (length decoded) ≤ Z.max 0 original_len ∧
         Forall (λ c, ∃ r, 0 ≤ r < K ∧ c = symbol (read codes r)) decoded)
    (λ st, if ds_break st then 0%nat
           else Z.to_nat (payload_bytes * 8 - ds_bit_index st)))
    as (st & Hrun & (_ & decoded & Hout & Hpos & Hlen & Hall) & _).
  4: { exists st, decoded. by split_and!. }
  - intros st (Hbi & decoded & Hout & Hpos & Hlen & Hall) Hc.
    unfold decode_cond in Hc.
    apply andb_true_iff in Hc as [Hc Hc3].
    apply andb_true_iff in Hc as [Hc1 Hc2].
    apply negb_true_iff in Hc1. apply Z.ltb_lt in Hc2, Hc3.
    destruct (scan_cycle_total payload payload_bytes (ds_bit_index st))
      as (bi & m & j & Hscan & Hbi' & Hj); [lia|].
    destruct Hj as [->|[Hat ->]].
    + unfold decode_one. rewrite Hscan. simpl.
      eexists. split; [done|]. simpl.
      split; [|rewrite Hc1; lia]. split; [lia|]. by exists decoded.
    + destruct (Z.ltb_spec (find_code codes m j (seqZ 0 K)) 0) as [Hf|Hf].
      * rewrite (decode_one_absent _ _ _ _ _ _ _ Hat Hf).
        eexists. split; [done|]. simpl.
        split; [|rewrite Hc1; lia]. split; [lia|]. by exists decoded.
      * rewrite (decode_one_found _ _ _ _ _ _ _ Hat Hf).
        eexists. split; [done|]. simpl.
        split; [|rewrite Hc1; lia]. split; [lia|].
        rewrite Hout, Hpos, write_next by lia.
        eexists. split_and!; try done; rewrite ?length_app; simpl; try lia.
        apply Forall_app. split; [done|]. apply Forall_singleton.
        destruct (find_code_cases codes m j K) as [[Hm1 _]|(Hr & _)]; [lia|].
        eauto.
  - simpl. split; [done|]. exists []. simpl. split_and!; auto with lia.
  - simpl. lia.
Qed.
End decode_symbols.

Section header_symbols.
Implicit Types (comp_data out_text : list Z) (K : Z).

Lemma recover_symbols_read comp_data K r :
  0 ≤ r < K → K ≤ 256 →
  symbol (read (recover_symbols comp_data K) r) = read comp_data (1 + r).
Proof.
  intros Hr HK. unfold recover_symbols, ALPHABET_SIZE.
  rewrite <- (Z2Nat.id K) by lia.
  rewrite (foldl_write_seqZ (λ i, i) _ _ 0)
    by (intros; rewrite ?length_replicate; simpl; lia).
  change (Z.to_nat 0) with 0%nat. rewrite take_0. cbn [app].
  rewrite read_app_l by (rewrite length_fmap, length_seqZ; lia).
  unfold read at 1.
  rewrite (list_lookup_total_fmap (λ i, mkCodeEntry (read comp_data (1 + i)) 0 0 0))
    by (rewrite length_seqZ; lia).
  simpl. rewrite lookup_total_seqZ_lt by lia. do 2 f_equal. lia.
Qed.
End header_symbols.

Section loops_ext.
Context {S : Type}.

(** Two loop bodies that agree on the states an invariant allows run
    alike. *)
Lemma while_ext_inv (Inv : S → Prop) (cond : S → bool)
    (body1 body2 : S → result S) :
  (∀ s, Inv s → cond s = true → body1 s = body2 s) →
  (∀ s s', Inv s → cond s = true → body1 s = Ok s' → Inv s') →
  ∀ fuel s, Inv s → while fuel cond body1 s = while fuel cond body2 s.
Proof.
  intros Hext Hpres fuel. induction fuel as [|fuel IH]; intros s Hs; simpl.
  - done.
  - destruct (cond s) eqn:Hc; [|done].
    rewrite <- (Hext s Hs Hc).
    destruct (body1 s) as [s'| |] eqn:Hb; simpl; try done.
    apply IH. by eapply Hpres.
Qed.

Lemma while_preserves (Inv : S → Prop) (cond : S → bool) (body : S → result S) :
  (∀ s s', Inv s → cond s = true → body s = Ok s' → Inv s') →
  ∀ fuel s s', Inv s → while fuel cond body s = Ok s' → Inv s'.
Proof.
  intros Hpres fuel. induction fuel as [|fuel IH]; intros s s' Hs; simpl.
  - destruct (cond s); [done|]. by intros [= <-].
  - destruct (cond s) eqn:Hc; [|by intros [= <-]].
    destruct (body s) as [s1| |] eqn:Hb; simpl; try done.
    apply IH. by eapply Hpres.
Qed.
End loops_ext.

Section reads.
Implicit Types (comp_data payload out_text : list Z) (K : Z).

Lemma foldl_ext_Forall {A B} (f g : A → B → A) (l : list B) (a : A) :
  Forall (λ x, ∀ a, f a x = g a x) l → foldl f a l = foldl g a l.
Proof.
  intros Hl. revert a. induction Hl as [|x l Hx _ IH]; intros a; simpl; [done|].
  by rewrite Hx, IH.
Qed.

Lemma payload_bit_take payload (n i : Z) :
  0 ≤ i < n * 8 →
  payload_bit (take (Z.to_nat n) payload) i = payload_bit payload i.
Proof.
  intros Hi. apply (payload_bit_ext _ _ _ n); [|lia].
  intros k Hk. unfold read. apply lookup_total_take_lt. lia.
Qed.

Lemma count_zeros_take payload (n s : Z) :
  0 ≤ s →
  count_zeros (take (Z.to_nat n) payload) n s = count_zeros payload n s.
Proof.
  intros Hs. unfold count_zeros.
  apply (while_ext_inv (λ '(bi, _, _, _), 0 ≤ bi)); [| |done].
  - intros [[[bi m] j] brk] Hbi Hc.
    apply andb_true_iff in Hc as [_ Hc]. apply Z.ltb_lt in Hc.
    by rewrite payload_bit_take by lia.
  - intros [[[bi m] j] brk] [[[bi' m'] j'] brk'] Hbi _.
    destruct (_ =? 0); intros [= <- _ _ _]; lia.
Qed.

Lemma count_zeros_index payload (n s : Z) bi m j brk :
  0 ≤ s → count_zeros payload n s = Ok (bi, m, j, brk) → 0 ≤ bi.
Proof.
  intros Hs. unfold count_zeros.
  apply (while_preserves (λ '(bi, _, _, _), 0 ≤ bi)); [|done].
  intros [[[bi0 m0] j0] brk0] [[[bi' m'] j'] brk'] Hbi _.
  destruct (_ =? 0); intros [= <- _ _ _]; lia.
Qed.

Lemma count_ones_take payload (n s j : Z) :
  0 ≤ s →
  count_ones (take (Z.to_nat n) payload) n s j = count_ones payload n s j.
Proof.
  intros Hs. unfold count_ones.
  apply (while_ext_inv (λ '(bi, _, _), 0 ≤ bi)); [| |done].
  - intros [[bi j0] brk] Hbi Hc.
    apply andb_true_iff in Hc as [_ Hc]. apply Z.ltb_lt in Hc.
    by rewrite payload_bit_take by lia.
  - intros [[bi j0] brk] [[bi' j'] brk'] Hbi _.
    destruct (_ =? 1); intros [= <- _ _]; lia.
Qed.

Lemma scan_cycle_take payload (n s : Z) :
  0 ≤ s →
  scan_cycle (take (Z.to_nat n) payload) n s = scan_cycle payload n s.
Proof.
  intros Hs. unfold scan_cycle. rewrite count_zeros_take by done.
  destruct (count_zeros payload n s) as [[[[bi m] j] brk]| |] eqn:Hz;
    simpl; try done.
  destruct (j =? 0); [done|].
  by rewrite count_ones_take by (by eapply count_zeros_index).
Qed.

Lemma decode_loop_take codes K payload (n original_len : Z) fuel st :
  0 ≤ ds_bit_index st →
  while fuel (decode_cond n original_len)
    (decode_one codes K (take (Z.to_nat n) payload) n) st
  = while fuel (decode_cond n original_len) (decode_one codes K payload n) st.
Proof.
  apply (while_ext_inv (λ st, 0 ≤ ds_bit_index st)).
  - intros s Hs _. unfold decode_one. by rewrite scan_cycle_take.
  - intros s s' Hs Hc. unfold decode_cond in Hc.
    apply andb_true_iff in Hc as [_ Hc]. apply Z.ltb_lt in Hc.
    unfold decode_one.
    destruct (scan_cycle_total (take (Z.to_nat n) payload) n (ds_bit_index s))
      as (bi & m & j & -> & Hbi & _); [lia|]. simpl.
    destruct (j =? 0); [intros [= <-]; simpl; lia|].
    destruct (_ <? 0); intros [= <-]; simpl; lia.
Qed.

Lemma recover_symbols_take comp_data (n K : Z) :
  1 + K ≤ n →
  recover_symbols (take (Z.to_nat n) comp_data) K = recover_symbols comp_data K.
Proof.
  intros Hn. unfold recover_symbols. apply foldl_ext_Forall, Forall_seqZ.
  intros i Hi codes. do 2 f_equal. unfold read.
  apply lookup_total_take_lt. lia.
Qed.

(** The decoder reads the first [comp_size] bytes of the buffer only. *)
Lemma decompress_take comp_data comp_size original_len out_text :
  decompress_cycle_based (take (Z.to_nat comp_size) comp_data) comp_size
    original_len out_text
  = decompress_cycle_based comp_data comp_size original_len out_text.
Proof.
  unfold decompress_cycle_based.
  destruct (Z.leb_spec comp_size 0) as [|Hpos]; [done|].
  assert (H0 : read (take (Z.to_nat comp_size) comp_data) 0 = read comp_data 0).
  { unfold read. apply lookup_total_take_lt. lia. }
  rewrite H0. set (K := read comp_data 0).
  destruct (Z.leb_spec K 0) as [|HK]; [done|].
  destruct (Z.ltb_spec comp_size (1 + K)) as [|Hsz]; [done|]. simpl.
  rewrite recover_symbols_take by lia.
  destruct (generate_cycles_for_codes _ K) as [codes| |]; simpl; try done.
  replace (Z.to_nat comp_size)
    with (Z.to_nat (1 + K) + Z.to_nat (comp_size - (1 + K)))%nat by lia.
  rewrite <- take_drop_commute.
  by rewrite decode_loop_take.
Qed.
End reads.

(** ** The driver *)

Section driver.
Implicit Types (text example recovered : list Z) (S : Z) (st : MainState).

Lemma c_string_take_nul text example S :
  Forall (λ c, c ≠ 0) text → 0 ≤ S ≤ Z.of_nat (length text) →
  S < Z.of_nat (length example) →
  c_string (write (memcpy example 0 text S) S 0) = take (Z.to_nat S) text.
Proof.
  intros Hnz HS Hlen. unfold memcpy, write.
  change (Z.to_nat 0) with 0%nat. rewrite take_0, Z.add_0_l. cbn [app].
  assert (Hl : length (take (Z.to_nat S) text) = Z.to_nat S)
    by (rewrite length_take; lia).
  rewrite insert_app_r_alt by lia. rewrite Hl, Nat.sub_diag.
  destruct (drop (Z.to_nat S) example) as [|x rest] eqn:Hd.
  { apply (f_equal length) in Hd. rewrite length_drop in Hd. simpl in Hd. lia. }
  simpl. apply c_string_app_nul. by apply Forall_take.
Qed.

Lemma length_write_memcpy text example S :
  0 ≤ S ≤ Z.of_nat (length text) → S < Z.of_nat (length example) →
  length (write (memcpy example 0 text S) S 0) = length example.
Proof.
  intros HS Hlen. rewrite length_write. unfold memcpy.
  rewrite !length_app, !length_take, length_drop. lia.
Qed.

(** One turn of the driver on a text without zero bytes: the recovered
    string is the truncated original. *)
Lemma main_turn_ok text S st :
  Forall (λ c, 1 ≤ c ≤ 255) text →
  0 ≤ S ≤ Z.of_nat (length text) → S < MAX_SIZE_MESSAGE →
  length (ms_example st) = length (ms_recovered st) →
  Z.of_nat (length (ms_example st)) = MAX_SIZE_MESSAGE →
  ∃ comp_size example recovered,
    main_turn text (Z.of_nat (length text)) S st
    = Ok (mkMainState
            (ms_printed st ++
               [TruncatedTo S; Original S (take (Z.to_nat S) text);
                CompressedSize comp_size; Recovered (take (Z.to_nat S) text)])
            example recovered) ∧
    length example = length (ms_example st) ∧
    length recovered = length (ms_recovered st) ∧
    c_string example = take (Z.to_nat S) text ∧
    c_string recovered = take (Z.to_nat S) text.
Proof.
  intros Htext HS Hmax Hlens Hlen. unfold main_turn.
  destruct (nonzero_bytes text Htext) as [Hb Hnz].
  assert (Hcast : to_size_t S = S)
    by (unfold to_size_t, MAX_SIZE_MESSAGE in *; apply Z.mod_small; lia).
  rewrite Hcast.
  destruct (Z.ltb_spec (Z.of_nat (length text)) S); [lia|].
  destruct (Z.leb_spec MAX_SIZE_MESSAGE S); [lia|].
  set (example := write (memcpy (ms_example st) 0 text S) S 0).
  assert (Hcs : c_string example = take (Z.to_nat S) text)
    by (apply c_string_take_nul; [done|lia|lia]).
  assert (Hmsg : Forall (λ c, 1 ≤ c ≤ 255) (take (Z.to_nat S) text))
    by (by apply Forall_take).
  destruct (nonzero_bytes _ Hmsg) as [Hbm Hnzm].
  destruct (compress_then_decompress (take (Z.to_nat S) text) (ms_recovered st)
              Hbm) as (data & size & Hc & _ & Hd).
  { rewrite c_string_id by done. rewrite length_take. lia. }
  rewrite c_string_id in Hd by done.
  rewrite length_take in Hd.
  replace (Z.of_nat (Z.to_nat S `min` length text)) with S in Hd by lia.
  rewrite (compress_c_string example), Hcs, Hc. simpl. rewrite Hd. simpl.
  rewrite ?Hcs, c_string_app_nul by done.
  eexists _, _, _. split.
  - rewrite <- !app_assoc. simpl. reflexivity.
  - split_and!.
    + unfold example. apply length_write_memcpy; lia.
    + rewrite length_app. simpl. rewrite length_drop, length_take. lia.
    + done.
    + by apply c_string_app_nul.
Qed.
End driver.

Lemma full_text_bytes : Forall (λ c, 1 ≤ c ≤ 255) full_text.
Proof.
  apply Forall_forall. intros c Hc.
  assert (Hall : forallb (λ c, (1 <=? c) && (c <=? 255)) full_text = true)
    by (vm_compute; reflexivity).
  rewrite forallb_forall in Hall.
  apply list_elem_of_In, Hall in Hc.
  apply andb_true_iff in Hc as [H1 H2]. lia.
Qed.

Lemma length_full_text : Z.of_nat (length full_text) = 966.
Proof. vm_compute. reflexivity. Qed.

Section driver_loop.
Implicit Types (text sizes : list Z) (st : MainState).

Lemma main_loop_ok text sizes : ∀ st,
  Forall (λ c, 1 ≤ c ≤ 255) text →
  Forall (λ S, 0 ≤ S ≤ Z.of_nat (length text) ∧ S < MAX_SIZE_MESSAGE) sizes →
  length (ms_example st) = length (ms_recovered st) →
  Z.of_nat (length (ms_example st)) = MAX_SIZE_MESSAGE →
  ∃ comp_sizes example recovered,
    length comp_sizes = length sizes ∧
    for_each (λ S st, main_turn text (Z.of_nat (length text)) S st) sizes st
    = Ok (mkMainState
            (ms_printed st ++ mjoin (zip_with (report text) sizes comp_sizes))
            example recovered).
Proof.
  induction sizes as [|S sizes IH]; intros st Htext Hsizes Hlens Hlen.
  - exists [], (ms_example st), (ms_recovered st). split; [done|].
    simpl. rewrite app_nil_r. by destruct st.
  - apply Forall_cons in Hsizes as [[HS Hmax] Hsizes].
    destruct (main_turn_ok text S st Htext HS Hmax Hlens Hlen)
      as (n & ex & rec & Hturn & Hex & Hrec & _).
    destruct (IH (mkMainState
                    (ms_printed st ++
                       [TruncatedTo S; Original S (take (Z.to_nat S) text);
                        CompressedSize n; Recovered (take (Z.to_nat S) text)])
                    ex rec) Htext Hsizes)
      as (ns & ex' & rec' & Hns & Hrun); simpl; [congruence..|].
    exists (n :: ns), ex', rec'. split; [simpl; lia|].
    cbn [for_each]. rewrite Hturn. simpl. rewrite Hrun. simpl.
    by rewrite <- app_assoc.
Qed.
End driver_loop.

(** ** The range of [int]

    The bounds the theorems carry keep every [int] of a run inside
    [INT_MIN, INT_MAX]: the bit count [payload_bytes * 8] of the decoder,
    the doubled capacity of the bit writer, the counters of the frequency
    table. *)

Section int_range.
Implicit Types (bw : BitWriter) (rs msg syms : list Z) (K M : Z).

(** With at most 255 symbols a code has at most 24 bits: the payload of
    [n] symbols has at most [3 * n] bytes. *)
Lemma ranks_payload_bound K rs bw :
  K ≤ 255 → Forall (λ r, 0 ≤ r < K) rs →
  bw_holds bw (rs ≫= λ r, cycle_bits (rank_cycle K r)) →
  size bw * 8 ≤ 24 * Z.of_nat (length rs).
Proof.
  intros HK Hrs Hbw.
  destruct (length_bind_bounds (λ r, cycle_bits (rank_cycle K r)) rs 2 24)
    as [_ Hhi].
  { eapply Forall_impl; [exact Hrs|]. intros r Hr. simpl in Hr.
    pose proof (rank_cycle_length K r HK Hr).
    pose proof (rank_cycle_positive K r Hr).
    rewrite length_cycle_bits; lia. }
  rewrite (bwh_size _ _ Hbw). Z.div_mod_to_equations. lia.
Qed.

Lemma symbols_payload_bound syms msg bw :
  Z.of_nat (length syms) ≤ 255 → (∀ c, c ∈ msg → c ∈ syms) →
  bw_holds bw (msg ≫= λ c, cycle_bits
                 (rank_cycle (Z.of_nat (length syms)) (index_of c syms))) →
  size bw * 8 ≤ 24 * Z.of_nat (length msg).
Proof.
  intros HK Hin Hbw.
  rewrite <- (length_fmap (λ c, index_of c syms) msg).
  apply (ranks_payload_bound (Z.of_nat (length syms))); [done| |].
  - apply Forall_fmap, Forall_forall. intros c Hc. simpl.
    by destruct (index_of_spec c syms (Hin c Hc)).
  - by rewrite list_fmap_bind.
Qed.

(** The capacity of a writer never exceeds the larger of the capacity it
    started with, 16, and twice the bytes in use before the last one: every
    product [capacity * 2] the writer computes is among these values. *)
Lemma bw_ensure_space_capacity_bound bw M :
  capacity bw ≤ Z.max M (Z.max 16 (2 * (size bw - 1))) →
  capacity (bw_ensure_space bw) ≤ Z.max M (Z.max 16 (2 * size bw)) ∧
  size (bw_ensure_space bw) = size bw ∧
  bit_pos (bw_ensure_space bw) = bit_pos bw.
Proof.
  intros H. unfold bw_ensure_space.
  destruct (Z.leb_spec (capacity bw) (size bw)); simpl; [|lia].
  destruct (Z.ltb_spec (capacity bw * 2) 16); lia.
Qed.

Lemma bw_put_bit_capacity_bound bw bit M :
  capacity bw ≤ Z.max M (Z.max 16 (2 * (size bw - 1))) →
  capacity (bw_put_bit bw bit)
  ≤ Z.max M (Z.max 16 (2 * (size (bw_put_bit bw bit) - 1))).
Proof.
  intros H.
  pose (P := λ b : BitWriter,
          capacity b ≤ Z.max M (Z.max 16 (2 * (size b - 1)))).
  set (bw1 := if (size bw =? 0) && (bit_pos bw =? 0)
              then mkBitWriter (write (data (bw_ensure_space bw)) 0 0)
                     (capacity (bw_ensure_space bw)) 1
                     (bit_pos (bw_ensure_space bw))
              else bw).
  set (bw2 := if bit_pos bw1 =? 8
              then mkBitWriter
                     (write (data (bw_ensure_space bw1))
                        (size (bw_ensure_space bw1)) 0)
                     (capacity (bw_ensure_space bw1))
                     (size (bw_ensure_space bw1) + 1) 0
              else bw1).
  assert (H1 : P bw1).
  { unfold bw1. destruct (Z.eqb_spec (size bw) 0) as [Hs|]; [|done].
    destruct (bit_pos bw =? 0); [|done]. unfold P. cbn.
    destruct (bw_ensure_space_capacity_bound bw M H) as (Hc & _ & _). lia. }
  assert (H2 : P bw2).
  { unfold bw2. destruct (bit_pos bw1 =? 8); [|done]. unfold P. cbn.
    destruct (bw_ensure_space_capacity_bound bw1 M H1) as (Hc & Hs & _). lia. }
  change (P (bw_put_bit bw bit)).
  assert (Hcap : capacity (bw_put_bit bw bit) = capacity bw2)
    by (unfold bw_put_bit; fold bw1; fold bw2; by destruct (negb (bit =? 0))).
  assert (Hsz : size (bw_put_bit bw bit) = size bw2)
    by (unfold bw_put_bit; fold bw1; fold bw2; by destruct (negb (bit =? 0))).
  unfold P in *. rewrite Hcap, Hsz. done.
Qed.

Lemma bw_put_bits_capacity_bound (bs : list Z) M : ∀ bw,
  capacity bw ≤ Z.max M (Z.max 16 (2 * (size bw - 1))) →
  capacity (foldl bw_put_bit bw bs)
  ≤ Z.max M (Z.max 16 (2 * (size (foldl bw_put_bit bw bs) - 1))).
Proof.
  induction bs as [|b bs IH]; intros bw Hbw; simpl; [done|].
  by apply IH, bw_put_bit_capacity_bound.
Qed.

Lemma bw_put_cycle_capacity_bound bw m j M :
  capacity bw ≤ Z.max M (Z.max 16 (2 * (size bw - 1))) →
  capacity (bw_put_cycle bw m j)
  ≤ Z.max M (Z.max 16 (2 * (size (bw_put_cycle bw m j) - 1))).
Proof.
  assert (Hrun : ∀ (bit : Z) (idx : list Z) bw',
    capacity bw' ≤ Z.max M (Z.max 16 (2 * (size bw' - 1))) →
    capacity (foldl (λ bw _, bw_put_bit bw bit) bw' idx)
    ≤ Z.max M (Z.max 16
                 (2 * (size (foldl (λ bw _, bw_put_bit bw bit) bw' idx) - 1)))).
  { intros bit idx. induction idx as [|i idx IH]; intros bw' Hbw'; simpl;
      [done|]. by apply IH, bw_put_bit_capacity_bound. }
  intros Hbw. unfold bw_put_cycle. by apply Hrun, Hrun.
Qed.

Lemma bw_put_cycles_capacity_bound (codes : list CodeEntry) rs M : ∀ bw,
  capacity bw ≤ Z.max M (Z.max 16 (2 * (size bw - 1))) →
  let bw' := foldl (λ bw r, bw_put_cycle bw (code_m (read codes r))
                                           (code_j (read codes r))) bw rs in
  capacity bw' ≤ Z.max M (Z.max 16 (2 * (size bw' - 1))).
Proof.
  induction rs as [|r rs IH]; intros bw Hbw; simpl; [done|].
  by apply IH, bw_put_cycle_capacity_bound.
Qed.
End int_range.

Section int_range_more.
Implicit Types (bw : BitWriter) (msg : list Z) (n M c : Z).

Lemma capacity_fits_int bw n M :
  0 ≤ n ≤ 8 * 2 ^ 30 → M ≤ INT_MAX →
  size bw = (n + 7) / 8 →
  capacity bw ≤ Z.max M (Z.max 16 (2 * (size bw - 1))) →
  capacity bw ≤ INT_MAX.
Proof.
  unfold INT_MAX. change (2 ^ 30) with 1073741824.
  intros Hn HM Hsz Hcap. rewrite Hsz in Hcap.
  Z.div_mod_to_equations. lia.
Qed.

Lemma occurrences_le_length c msg : occurrences c msg ≤ Z.of_nat (length msg).
Proof.
  unfold occurrences. pose proof (length_filter (λ x, x = c) msg). lia.
Qed.
End int_range_more.

(** ** Worked examples *)

Example canonical_cycles_6 :
  canonical_cycles 6 = [(1, 1); (2, 1); (1, 2); (3, 1); (2, 2); (1, 3)].
Proof. reflexivity. Qed.

Example corrupt_header_0 :
  decompress_cycle_based [0] 1 5 [9; 9; 9; 9; 9; 9]
  = Ok ([0; 9; 9; 9; 9; 9], Some InvalidCompressedData).
Proof. reflexivity. Qed.

Example corrupt_pair :
  decompress_cycle_based [1; 97; 88] 3 5 [9; 9; 9; 9; 9; 9]
  = Ok ([97; 0; 9; 9; 9; 9], Some (PairNotFound 1 2)).
Proof. vm_compute. reflexivity. Qed.

(** ** The claims of the specification *)

(** C1, as amended.  For every message that holds no zero byte (it then has
    at most 255 distinct byte values) and is short enough for the program's
    [int] arithmetic (a symbol takes at most 24 bits:
    24 * length <= INT_MAX), decompressing the result of compressing it,
    given its symbol count, yields exactly the message; the compressed
    buffer has at most 256 + 3 * length bytes. *)
Theorem round_trip (msg out_text : list Z) :
  Forall (λ c, 1 ≤ c ≤ 255) msg →
  24 * Z.of_nat (length msg) ≤ INT_MAX →
  (length msg < length out_text)%nat →
  ∃ data size out_text',
    compress_cycle_based msg = Ok (data, size) ∧
    size = Z.of_nat (length data) ∧
    size ≤ 256 + 3 * Z.of_nat (length msg) ∧
    decompress_cycle_based data size (Z.of_nat (length msg)) out_text
    = Ok (out_text', None) ∧
    out_text' = msg ++ 0 :: drop (S (length msg)) out_text ∧
    c_string out_text' = msg.
Proof.
  intros Hmsg Hfit Hroom. destruct (nonzero_bytes msg Hmsg) as [Hb Hnz].
  pose proof (c_string_id msg Hnz) as Hid.
  destruct (compress_then_decompress msg out_text Hb) as (data & size & Hc & Hs & Hd).
  { by rewrite Hid. }
  rewrite Hid in Hd.
  exists data, size, (msg ++ 0 :: drop (S (length msg)) out_text).
  split_and!; try done; [|by apply c_string_app_nul].
  destruct (decide (msg = [])) as [->|Hne].
  - rewrite compress_empty in Hc by done. simplify_eq. simpl. lia.
  - destruct (compress_spec msg Hb) as (syms & bw & Hc' & HK & Hperm & _ & _ & Hbw).
    { by rewrite Hid. }
    rewrite Hid in *. rewrite Hc' in Hc. simplify_eq.
    pose proof (symbols_payload_bound syms msg bw ltac:(lia)) as Hsz.
    specialize (Hsz ltac:(intros c Hc; rewrite Hperm;
                           by apply elem_of_remove_dups) Hbw).
    lia.
Qed.

Lemma round_trip_witness :
  Forall (λ c, 1 ≤ c ≤ 255) [104; 101; 108; 108; 111] ∧
  24 * Z.of_nat (length [104; 101; 108; 108; 111]%Z) ≤ INT_MAX ∧
  (length [104; 101; 108; 108; 111]%Z < length (replicate 8 7%Z))%nat ∧
  ∃ data size out_text',
    compress_cycle_based [104; 101; 108; 108; 111] = Ok (data, size) ∧
    size = Z.of_nat (length data) ∧
    size ≤ 256 + 3 * Z.of_nat (length [104; 101; 108; 108; 111]%Z) ∧
    decompress_cycle_based data size
      (Z.of_nat (length [104; 101; 108; 108; 111])) (replicate 8 7)
    = Ok (out_text', None) ∧
    out_text' = [104; 101; 108; 108; 111]
                  ++ 0 :: drop (S (length [104; 101; 108; 108; 111]))
                               (replicate 8 7) ∧
    c_string out_text' = [104; 101; 108; 108; 111].
Proof.
  assert (H1 : Forall (λ c, 1 ≤ c ≤ 255) [104; 101; 108; 108; 111])
    by (repeat constructor; lia).
  assert (Hfit : 24 * Z.of_nat (length [104; 101; 108; 108; 111]%Z) ≤ INT_MAX)
    by (unfold INT_MAX; simpl; lia).
  assert (H2 : (length [104; 101; 108; 108; 111]%Z
                < length (replicate 8 7%Z))%nat)
    by (simpl; lia).
  split; [exact H1|]. split; [exact Hfit|]. split; [exact H2|].
  exact (round_trip [104; 101; 108; 108; 111] (replicate 8 7) H1 Hfit H2).
Defined.

(** C1 as stated fails on a message with a zero byte: "a\0b" has three
    distinct byte values; the compressor sees "a" only, and the decoder,
    asked for 3 symbols, gives back "a". *)
Lemma round_trip_counterexample :
  Z.of_nat (length (distinct_bytes [97; 0; 98])) ≤ 255 ∧
  compress_cycle_based [97; 0; 98] = Ok ([1; 97; 64], 3) ∧
  decompress_cycle_based [1; 97; 64] 3 (Z.of_nat (length [97; 0; 98]%Z))
    [9; 9; 9; 9] = Ok ([97; 0; 9; 9], None) ∧
  c_string [97; 0; 9; 9] = [97] ∧
  take (length [97; 0; 98]%Z) [97; 0; 9; 9] ≠ [97; 0; 98].
Proof. split_and!; [simpl; lia|by vm_compute|by vm_compute|done|done]. Qed.

(** C2, as amended.  Compression leaves through the oversized-alphabet
    branch exactly when more than 255 symbols were collected from the
    frequency table, and it then ends the process with exit status 1 and
    the message "more than 255 distinct symbols": nothing is returned to
    the caller.  On a NUL-terminated input at most 255 symbols are
    collected, so the branch is never taken, and the text is compressed
    exactly as its bytes before the first zero byte are. *)
Theorem too_many_symbols_exit :
  (∀ text freq_table,
     compress_with_freq text freq_table = Exit 1 MoreThan255Symbols
     ↔ 255 < (collect_symbols freq_table).2)
  ∧ (∀ text,
       Forall is_byte text →
       (collect_symbols
          (count_character_frequency text
             (replicate (Z.to_nat ALPHABET_SIZE) 0))).2 ≤ 255 ∧
       compress_cycle_based text ≠ Exit 1 MoreThan255Symbols ∧
       compress_cycle_based text = compress_cycle_based (c_string text)).
Proof.
  split.
  - apply compress_with_freq_exit.
  - intros text Hb. pose proof (collected_le_255 text Hb) as Hle.
    split_and!; [done| |apply compress_c_string].
    unfold compress_cycle_based. rewrite compress_with_freq_exit. lia.
Qed.

Lemma too_many_symbols_exit_witness :
  Forall is_byte [97; 98; 0; 99] ∧
  (collect_symbols
     (count_character_frequency [97; 98; 0; 99]
        (replicate (Z.to_nat ALPHABET_SIZE) 0))).2 ≤ 255 ∧
  compress_cycle_based [97; 98; 0; 99] ≠ Exit 1 MoreThan255Symbols ∧
  compress_cycle_based [97; 98; 0; 99]
  = compress_cycle_based (c_string [97; 98; 0; 99]).
Proof.
  assert (H : Forall is_byte [97; 98; 0; 99])
    by (repeat constructor; unfold is_byte; lia).
  split; [exact H|].
  exact (proj2 too_many_symbols_exit [97; 98; 0; 99] H).
Defined.

(** C2 as stated fails: a message that holds all 256 byte values, 1 .. 255
    then 0, is compressed without any failure (as its 255 bytes before the
    zero byte). *)
Lemma too_many_symbols_counterexample :
  Z.of_nat (length (distinct_bytes (seqZ 1 255 ++ [0]))) = 256 ∧
  ∃ out_data out_size,
    compress_cycle_based (seqZ 1 255 ++ [0]) = Ok (out_data, out_size) ∧
    out_data !! 0%nat = Some 255.
Proof.
  split; [by vm_compute|].
  eexists _, _. split; [by vm_compute|reflexivity].
Qed.

(** C3. A buffer whose header is invalid (first byte K <= 0, or fewer than
    1 + K bytes) gives the empty message and the invalid-data report.  A
    buffer in which, after cycles that are in the table, the scan meets a
    pair (m, j) with no table entry makes the decoding stop at once: the
    symbols decoded so far are returned (possibly none) and the pair is
    reported; this for every payload whose bit count is an [int]
    (payload_bytes * 8 <= INT_MAX).  And on every buffer the decoder
    returns: a terminated string of at most [original_len] symbols inside
    the caller's buffer. *)
Theorem decoder_corrupt_stream :
  (∀ comp_data comp_size original_len out_text,
     0 < comp_size ≤ Z.of_nat (length comp_data) →
     read comp_data 0 ≤ 0 ∨ comp_size < 1 + read comp_data 0 →
     out_text ≠ [] →
     ∃ out_text',
       decompress_cycle_based comp_data comp_size original_len out_text
       = Ok (out_text', Some InvalidCompressedData) ∧
       c_string out_text' = [])
  ∧ (∀ K syms payload rs m j original_len out_text,
       1 ≤ K ≤ 255 → Z.of_nat (length syms) = K →
       Forall (λ r, 0 ≤ r < K) rs →
       Z.of_nat (length payload) * 8 ≤ INT_MAX →
       cycles_at payload (Z.of_nat (length payload)) 0
                 ((rank_cycle K <$> rs) ++ [(m, j)]) →
       (m, j) ∉ canonical_cycles K →
       Z.of_nat (length rs) < original_len →
       (length rs < length out_text)%nat →
       decompress_cycle_based (K :: syms ++ payload)
         (1 + K + Z.of_nat (length payload)) original_len out_text
       = Ok (((λ r, read syms r) <$> rs)
               ++ 0 :: drop (S (length rs)) out_text,
             Some (PairNotFound m j)))
  ∧ (∀ comp_data comp_size original_len out_text,
       Forall is_byte comp_data →
       comp_size ≤ Z.of_nat (length comp_data) →
       Z.max 0 original_len < Z.of_nat (length out_text) →
       ∃ decoded err,
         decompress_cycle_based comp_data comp_size original_len out_text
         = Ok (decoded ++ 0 :: drop (S (length decoded)) out_text, err) ∧
         Z.of_nat (length decoded) ≤ Z.max 0 original_len).
Proof.
  split_and!.
  - intros comp_data comp_size original_len out_text Hsize Hbad Hout.
    eexists. split; [apply decompress_invalid_header; [lia|done]|].
    by apply c_string_write_0.
  - intros K syms payload rs m j original_len out_text HK Hlen Hrs _.
    by apply decompress_pair_not_found.
  - apply decompress_total.
Qed.

Lemma decoder_corrupt_stream_witness :
  (0 < 1 ≤ Z.of_nat (length [0%Z]) ∧
   (read [0] 0 ≤ 0 ∨ 1 < 1 + read [0] 0) ∧
   (replicate 4 9 : list Z) ≠ [] ∧
   ∃ out_text',
     decompress_cycle_based [0] 1 5 (replicate 4 9)
     = Ok (out_text', Some InvalidCompressedData) ∧
     c_string out_text' = [])
  ∧ (1 ≤ 1 ≤ 255 ∧ Z.of_nat (length [97%Z]) = 1 ∧
     Forall (λ r, 0 ≤ r < 1) [0] ∧
     Z.of_nat (length [88%Z]) * 8 ≤ INT_MAX ∧
     cycles_at [88] (Z.of_nat (length [88%Z])) 0
               ((rank_cycle 1 <$> [0]) ++ [(1, 2)]) ∧
     ((1, 2) ∉ canonical_cycles 1) ∧
     Z.of_nat (length [0%Z]) < 5 ∧
     (length [0%Z] < length (replicate 4 9%Z))%nat ∧
     decompress_cycle_based (1 :: [97] ++ [88])
       (1 + 1 + Z.of_nat (length [88%Z])) 5 (replicate 4 9)
     = Ok (((λ r, read [97] r) <$> [0])
             ++ 0 :: drop (S (length [0%Z])) (replicate 4 9),
           Some (PairNotFound 1 2)))
  ∧ (Forall is_byte [1; 97; 88] ∧
     3 ≤ Z.of_nat (length [1; 97; 88]%Z) ∧
     Z.max 0 5 < Z.of_nat (length (replicate 6 9%Z)) ∧
     ∃ decoded err,
       decompress_cycle_based [1; 97; 88] 3 5 (replicate 6 9)
       = Ok (decoded ++ 0 :: drop (S (length decoded)) (replicate 6 9), err) ∧
       Z.of_nat (length decoded) ≤ Z.max 0 5).
Proof.
  destruct decoder_corrupt_stream as (Hheader & Hpair & Htotal).
  assert (A1 : 0 < 1 ≤ Z.of_nat (length [0%Z])) by (simpl; lia).
  assert (A2 : read [0] 0 ≤ 0 ∨ 1 < 1 + read [0] 0) by (left; reflexivity).
  assert (A3 : (replicate 4 9 : list Z) ≠ []) by discriminate.
  assert (B1 : 1 ≤ 1 ≤ 255) by lia.
  assert (B2 : Z.of_nat (length [97%Z]) = 1) by reflexivity.
  assert (B3 : Forall (λ r, 0 ≤ r < 1) [0]) by (repeat constructor; lia).
  assert (B0 : Z.of_nat (length [88%Z]) * 8 ≤ INT_MAX)
    by (unfold INT_MAX; simpl; lia).
  assert (B4 : cycles_at [88] (Z.of_nat (length [88%Z])) 0
                 ((rank_cycle 1 <$> [0]) ++ [(1, 2)])).
  { unfold cycles_at, cycle_at. simpl. split_and!; try lia; try done;
      repeat constructor. }
  assert (B5 : (1, 2) ∉ canonical_cycles 1).
  { intros Hin. apply list_elem_of_singleton in Hin. discriminate. }
  assert (B6 : Z.of_nat (length [0%Z]) < 5) by (simpl; lia).
  assert (B7 : (length [0%Z] < length (replicate 4 9%Z))%nat) by (simpl; lia).
  assert (C1 : Forall is_byte [1; 97; 88])
    by (repeat constructor; unfold is_byte; lia).
  assert (C2 : 3 ≤ Z.of_nat (length [1; 97; 88]%Z)) by (simpl; lia).
  assert (C3 : Z.max 0 5 < Z.of_nat (length (replicate 6 9%Z))) by (simpl; lia).
  exact
    (conj
       (conj A1 (conj A2 (conj A3
          (Hheader [0] 1 5 (replicate 4 9) A1 A2 A3))))
       (conj
          (conj B1 (conj B2 (conj B3 (conj B0 (conj B4 (conj B5 (conj B6
            (conj B7
             (Hpair 1 [97] [88] [0] 1 2 5 (replicate 4 9)
                B1 B2 B3 B0 B4 B5 B6 B7)))))))))
          (conj C1 (conj C2 (conj C3
             (Htotal [1; 97; 88] 3 5 (replicate 6 9) C1 C2 C3)))))).
Defined.

(** C4. For 1 <= K <= 255 the builder gives the ranks 0 .. K-1 exactly the
    first K pairs of the canonical enumeration (L = 2, 3, ...; within L the
    pairs (L-1, 1), ..., (1, L-1)); every pair has m >= 1 and j >= 1 and the
    K pairs are pairwise distinct. *)
Theorem generate_cycles_canonical codes K :
  1 ≤ K ≤ 255 → K ≤ Z.of_nat (length codes) →
  ∃ codes',
    generate_cycles_for_codes codes K = Ok codes' ∧
    cycle_of <$> take (Z.to_nat K) codes' = canonical_cycles K ∧
    Z.of_nat (length (canonical_cycles K)) = K ∧
    Forall (λ e, 1 ≤ code_m e ∧ 1 ≤ code_j e) (take (Z.to_nat K) codes') ∧
    NoDup (cycle_of <$> take (Z.to_nat K) codes').
Proof.
  intros HK Hlen. eexists. split; [by apply generate_cycles_for_codes_spec|].
  pose proof (length_canonical_cycles K ltac:(lia)) as HlenK.
  assert (Hcyc : cycle_of <$> take (Z.to_nat K)
            (assign_cycles (canonical_cycles K) codes) = canonical_cycles K).
  { replace (Z.to_nat K) with (length (canonical_cycles K)) by lia.
    apply cycles_of_assign_cycles. lia. }
  split_and!; [done|done| |].
  - apply Forall_forall. intros e He.
    apply (canonical_cycles_positive K (cycle_of e)).
    rewrite <- Hcyc. by apply list_elem_of_fmap_2.
  - rewrite Hcyc. apply canonical_cycles_NoDup.
Qed.

Lemma generate_cycles_canonical_witness :
  1 ≤ 3 ≤ 255 ∧ 3 ≤ Z.of_nat (length (replicate 256 blank_entry)) ∧
  ∃ codes',
    generate_cycles_for_codes (replicate 256 blank_entry) 3 = Ok codes' ∧
    cycle_of <$> take (Z.to_nat 3) codes' = canonical_cycles 3 ∧
    Z.of_nat (length (canonical_cycles 3)) = 3 ∧
    Forall (λ e, 1 ≤ code_m e ∧ 1 ≤ code_j e) (take (Z.to_nat 3) codes') ∧
    NoDup (cycle_of <$> take (Z.to_nat 3) codes').
Proof.
  assert (H1 : 1 ≤ 3 ≤ 255) by lia.
  assert (H2 : 3 ≤ Z.of_nat (length (replicate 256 blank_entry)))
    by (rewrite length_replicate; lia).
  split; [exact H1|]. split; [exact H2|].
  exact (generate_cycles_canonical (replicate 256 blank_entry) 3 H1 H2).
Defined.

(** C5. "aab" compresses to exactly [0x02, 0x61, 0x62, 0x52], and that
    buffer with original length 3 decompresses to "aab". *)
Theorem example_aab :
  compress_cycle_based [97; 97; 98] = Ok ([2; 97; 98; 82], 4) ∧
  [2; 97; 98; 82] = [0x02; 0x61; 0x62; 0x52] ∧
  ∀ c0 c1 c2 c3 out_text,
    decompress_cycle_based [2; 97; 98; 82] 4 3
      (c0 :: c1 :: c2 :: c3 :: out_text)
    = Ok (97 :: 97 :: 98 :: 0 :: out_text, None) ∧
    c_string (97 :: 97 :: 98 :: 0 :: out_text) = [97; 97; 98].
Proof.
  split_and!; [by vm_compute|done|]. intros c0 c1 c2 c3 out_text.
  split; [by vm_compute|done].
Qed.

(** C6, as amended.  For every non-empty message that holds no zero byte
    and is short enough for the program's [int] arithmetic
    (24 * length <= INT_MAX), the compressed buffer begins with one byte
    holding K, the number of distinct byte values of the message, followed
    by exactly K symbol bytes in rank order (more occurrences first, ties by
    increasing symbol value); the payload starts at offset 1 + K and holds,
    bit by bit, the cycles of the message's symbols, padded with zero bits;
    its bit count is an [int]. *)
Theorem header_shape (msg : list Z) :
  msg ≠ [] → Forall (λ c, 1 ≤ c ≤ 255) msg →
  24 * Z.of_nat (length msg) ≤ INT_MAX →
  ∃ syms payload,
    let K := Z.of_nat (length (distinct_bytes msg)) in
    let bits := msg ≫= λ c, cycle_bits (rank_cycle K (index_of c syms)) in
    compress_cycle_based msg
    = Ok (K :: syms ++ payload, 1 + K + Z.of_nat (length payload)) ∧
    Z.of_nat (length syms) = K ∧
    syms ≡ₚ distinct_bytes msg ∧
    StronglySorted (rank_before msg) syms ∧
    drop (Z.to_nat (1 + K)) (K :: syms ++ payload) = payload ∧
    Z.of_nat (length payload) = (Z.of_nat (length bits) + 7) / 8 ∧
    Z.of_nat (length payload) * 8 ≤ INT_MAX ∧
    ∀ i, 0 ≤ i < Z.of_nat (length payload) * 8 →
      payload_bit payload i = bit_of bits i.
Proof.
  intros Hne Hmsg Hfit. destruct (nonzero_bytes msg Hmsg) as [Hb Hnz].
  pose proof (c_string_id msg Hnz) as Hid.
  destruct (compress_spec msg Hb) as (syms & bw & Hc & HK & Hperm & _ & Hss & Hbw).
  { by rewrite Hid. }
  rewrite Hid in *.
  destruct (bw_holds_length _ _ Hbw) as (_ & Hlen & Hsz).
  pose proof (Permutation_length Hperm) as HlenK.
  pose proof (symbols_payload_bound syms msg bw ltac:(lia)) as Hbound.
  specialize (Hbound ltac:(intros c Hc'; rewrite Hperm;
                            by apply elem_of_remove_dups) Hbw).
  exists syms, (take (Z.to_nat (size bw)) (data bw)).
  cbv zeta. rewrite <- HlenK, Hlen, Z2Nat.id by lia.
  split_and!; try done.
  - replace (Z.to_nat (1 + Z.of_nat (length syms))) with (S (length syms)) by lia.
    simpl. by rewrite drop_app_length.
  - apply (bwh_size _ _ Hbw).
  - lia.
  - intros i Hi. by apply bw_holds_payload.
Qed.

Lemma header_shape_witness :
  ([97; 97; 98] : list Z) ≠ [] ∧
  Forall (λ c, 1 ≤ c ≤ 255) [97; 97; 98] ∧
  24 * Z.of_nat (length [97; 97; 98]%Z) ≤ INT_MAX ∧
  ∃ syms payload,
    let K := Z.of_nat (length (distinct_bytes [97; 97; 98])) in
    let bits :=
      [97; 97; 98] ≫= λ c, cycle_bits (rank_cycle K (index_of c syms)) in
    compress_cycle_based [97; 97; 98]
    = Ok (K :: syms ++ payload, 1 + K + Z.of_nat (length payload)) ∧
    Z.of_nat (length syms) = K ∧
    syms ≡ₚ distinct_bytes [97; 97; 98] ∧
    StronglySorted (rank_before [97; 97; 98]) syms ∧
    drop (Z.to_nat (1 + K)) (K :: syms ++ payload) = payload ∧
    Z.of_nat (length payload) = (Z.of_nat (length bits) + 7) / 8 ∧
    Z.of_nat (length payload) * 8 ≤ INT_MAX ∧
    ∀ i, 0 ≤ i < Z.of_nat (length payload) * 8 →
      payload_bit payload i = bit_of bits i.
Proof.
  assert (H1 : ([97; 97; 98] : list Z) ≠ []) by discriminate.
  assert (H2 : Forall (λ c, 1 ≤ c ≤ 255) [97; 97; 98])
    by (repeat constructor; lia).
  assert (H3 : 24 * Z.of_nat (length [97; 97; 98]%Z) ≤ INT_MAX)
    by (unfold INT_MAX; simpl; lia).
  split; [exact H1|]. split; [exact H2|]. split; [exact H3|].
  exact (header_shape [97; 97; 98] H1 H2 H3).
Defined.

(** C6 as stated fails on a message with a zero byte: the non-empty message
    "\0a" has two distinct byte values, and its compressed buffer is empty,
    with no header at all. *)
Lemma header_shape_counterexample :
  ([0; 97] : list Z) ≠ [] ∧
  Z.of_nat (length (distinct_bytes [0; 97])) = 2 ∧
  compress_cycle_based [0; 97] = Ok ([], 0).
Proof. split_and!; [done|done|by vm_compute]. Qed.

(** C7. For 1 <= K <= 255 the code length m + j of the built table does not
    decrease as the rank goes from 0 to K-1. *)
Theorem code_length_monotone codes K :
  1 ≤ K ≤ 255 → K ≤ Z.of_nat (length codes) →
  ∃ codes',
    generate_cycles_for_codes codes K = Ok codes' ∧
    ∀ r1 r2, 0 ≤ r1 → r1 ≤ r2 → r2 < K →
      code_m (read codes' r1) + code_j (read codes' r1)
      ≤ code_m (read codes' r2) + code_j (read codes' r2).
Proof.
  intros HK Hlen. eexists. split; [by apply generate_cycles_for_codes_spec|].
  intros r1 r2 Hr0 Hr Hr2. destruct (decide (r1 = r2)) as [->|Hne]; [lia|].
  pose proof (canonical_cycles_read codes K r1 Hlen ltac:(lia)) as H1.
  pose proof (canonical_cycles_read codes K r2 Hlen ltac:(lia)) as H2.
  pose proof (canonical_cycles_lookup_lt K _ _ _ _ H1 H2 ltac:(lia)) as Hlt.
  unfold cycle_lt, cycle_of in Hlt. simpl in Hlt. lia.
Qed.

Lemma code_length_monotone_witness :
  1 ≤ 5 ≤ 255 ∧ 5 ≤ Z.of_nat (length (replicate 256 blank_entry)) ∧
  ∃ codes',
    generate_cycles_for_codes (replicate 256 blank_entry) 5 = Ok codes' ∧
    ∀ r1 r2, 0 ≤ r1 → r1 ≤ r2 → r2 < 5 →
      code_m (read codes' r1) + code_j (read codes' r1)
      ≤ code_m (read codes' r2) + code_j (read codes' r2).
Proof.
  assert (H1 : 1 ≤ 5 ≤ 255) by lia.
  assert (H2 : 5 ≤ Z.of_nat (length (replicate 256 blank_entry)))
    by (rewrite length_replicate; lia).
  split; [exact H1|]. split; [exact H2|].
  exact (code_length_monotone (replicate 256 blank_entry) 5 H1 H2).
Defined.

(** C8. For every K-entry table (1 <= K <= 255) and every sequence of ranks
    below K, in any order, whose codes fit in an [int] number of bits
    (24 * length <= INT_MAX): the two-phase scan of the bit-packed
    concatenation of their cycles recovers exactly their (m, j) pairs, the
    table search turns each pair back into its rank, and the decoder
    returns the symbols the header lists at these ranks; the bit count of
    the payload and the capacity of the writer are [int]s. *)
Theorem self_synchronization K (syms rs out_text : list Z) :
  1 ≤ K ≤ 255 → Z.of_nat (length syms) = K →
  Forall (λ r, 0 ≤ r < K) rs →
  24 * Z.of_nat (length rs) ≤ INT_MAX →
  (length rs < length out_text)%nat →
  ∃ codes,
    generate_cycles_for_codes (recover_symbols (K :: syms) K) K = Ok codes ∧
    let bw :=
      foldl (λ bw r, bw_put_cycle bw (code_m (read codes r))
                                     (code_j (read codes r)))
            (bw_init 64) rs in
    let payload := take (Z.to_nat (size bw)) (data bw) in
    size bw * 8 ≤ INT_MAX ∧ capacity bw ≤ INT_MAX ∧
    scan_cycles (length rs) payload (size bw) 0
      = Ok ((λ r, cycle_of (read codes r)) <$> rs) ∧
    (λ p, find_code codes p.1 p.2 (seqZ 0 K))
      <$> ((λ r, cycle_of (read codes r)) <$> rs) = rs ∧
    decompress_cycle_based (K :: syms ++ payload) (1 + K + size bw)
      (Z.of_nat (length rs)) out_text
    = Ok (((λ r, read syms r) <$> rs) ++ 0 :: drop (S (length rs)) out_text,
          None).
Proof.
  intros HK Hlen Hrs Hfit Hroom.
  assert (Hlen0 : length (recover_symbols (K :: syms) K) = 256%nat)
    by (apply length_recover_symbols; lia).
  eexists. split; [apply generate_cycles_for_codes_spec; lia|].
  set (codes := assign_cycles _ _). intros bw payload.
  assert (Hcyc : Forall (λ r, cycle_of (read codes r) = rank_cycle K r) rs).
  { eapply Forall_impl; [exact Hrs|]. intros r Hr. simpl in Hr.
    apply table_cycle; lia. }
  assert (Hbw : bw_holds bw (rs ≫= λ r, cycle_bits (rank_cycle K r))).
  { rewrite <- (Forall_bind_ext (λ r, cycle_bits (cycle_of (read codes r)))).
    - apply (bw_put_cycles_holds codes rs _ []), bw_init_holds. lia.
    - eapply Forall_impl; [exact Hcyc|]. intros r Hr. simpl in Hr.
      by rewrite Hr. }
  destruct (decode_ranks K syms rs bw out_text HK Hlen Hrs Hroom Hbw)
    as [Hat Hdec].
  pose proof (ranks_payload_bound K rs bw ltac:(lia) Hrs Hbw) as Hsize.
  pose proof (bw_put_cycles_capacity_bound codes rs 64 (bw_init 64)
                ltac:(simpl; lia)) as Hcap.
  fold bw in Hcap.
  rewrite (Forall_fmap_ext_1 _ _ _ Hcyc).
  split_and!.
  - lia.
  - unfold INT_MAX in *. lia.
  - rewrite <- (length_fmap (rank_cycle K) rs). by apply scan_cycles_at.
  - rewrite <- list_fmap_compose. rewrite <- (list_fmap_id rs) at 2.
    apply Forall_fmap_ext_1.
    eapply Forall_impl; [exact Hrs|]. intros r Hr. simpl in *.
    rewrite <- (table_cycle (recover_symbols (K :: syms) K)) by lia.
    apply table_find_rank; lia.
  - exact Hdec.
Qed.

Lemma self_synchronization_witness :
  1 ≤ 2 ≤ 255 ∧ Z.of_nat (length [97; 98]%Z) = 2 ∧
  Forall (λ r, 0 ≤ r < 2) [1; 0; 1; 1] ∧
  24 * Z.of_nat (length [1; 0; 1; 1]%Z) ≤ INT_MAX ∧
  (length [1; 0; 1; 1]%Z < length (replicate 6 7%Z))%nat ∧
  ∃ codes,
    generate_cycles_for_codes (recover_symbols (2 :: [97; 98]) 2) 2
      = Ok codes ∧
    let bw :=
      foldl (λ bw r, bw_put_cycle bw (code_m (read codes r))
                                     (code_j (read codes r)))
            (bw_init 64) [1; 0; 1; 1] in
    let payload := take (Z.to_nat (size bw)) (data bw) in
    size bw * 8 ≤ INT_MAX ∧ capacity bw ≤ INT_MAX ∧
    scan_cycles (length [1; 0; 1; 1]%Z) payload (size bw) 0
      = Ok ((λ r, cycle_of (read codes r)) <$> [1; 0; 1; 1]) ∧
    (λ p, find_code codes p.1 p.2 (seqZ 0 2))
      <$> ((λ r, cycle_of (read codes r)) <$> [1; 0; 1; 1]) = [1; 0; 1; 1] ∧
    decompress_cycle_based (2 :: [97; 98] ++ payload) (1 + 2 + size bw)
      (Z.of_nat (length [1; 0; 1; 1]%Z)) (replicate 6 7)
    = Ok (((λ r, read [97; 98] r) <$> [1; 0; 1; 1])
            ++ 0 :: drop (S (length [1; 0; 1; 1]%Z)) (replicate 6 7),
          None).
Proof.
  assert (H1 : 1 ≤ 2 ≤ 255) by lia.
  assert (H2 : Z.of_nat (length [97; 98]%Z) = 2) by reflexivity.
  assert (H3 : Forall (λ r, 0 ≤ r < 2) [1; 0; 1; 1])
    by (repeat constructor; lia).
  assert (Hfit : 24 * Z.of_nat (length [1; 0; 1; 1]%Z) ≤ INT_MAX)
    by (unfold INT_MAX; simpl; lia).
  assert (H4 : (length [1; 0; 1; 1]%Z < length (replicate 6 7%Z))%nat)
    by (simpl; lia).
  split; [exact H1|]. split; [exact H2|]. split; [exact H3|].
  split; [exact Hfit|]. split; [exact H4|].
  exact (self_synchronization 2 [97; 98] [1; 0; 1; 1] (replicate 6 7)
           H1 H2 H3 Hfit H4).
Defined.

(** C9. The empty message compresses to a zero-length buffer, and a
    zero-length buffer with original length 0 decompresses to the empty
    message; neither is an error. *)
Theorem empty_input :
  compress_cycle_based [] = Ok ([], 0) ∧
  ∀ c out_text,
    decompress_cycle_based [] 0 0 (c :: out_text) = Ok (0 :: out_text, None) ∧
    c_string (0 :: out_text) = [].
Proof. split; [by vm_compute|]. intros c out_text. by split. Qed.



(** ** Further properties of the code *)

(** X1. Bits put one by one into a fresh writer are stored most significant
    bit first.  For an initial capacity [cap] that is a non-negative [int]
    and at most 2^33 bits (2^30 bytes, so that no capacity the writer
    doubles leaves the [int] range): after [n] calls of [bw_put_bit] the
    writer uses ceil(n/8) bytes, [bit_pos] counts the bits of the last
    byte (1 to 8 once a bit was put), the buffer is as long as [capacity]
    says and holds the used bytes, the capacity is an [int], the i-th bit
    the decoder reads is 1 exactly when the i-th argument was not 0, and
    the unused bits of the last byte are 0. *)
Theorem bw_put_bit_sequence (cap : Z) (bs : list Z) :
  0 ≤ cap ≤ INT_MAX → Z.of_nat (length bs) ≤ 8 * 2 ^ 30 →
  let bw := foldl bw_put_bit (bw_init cap) bs in
  let n := Z.of_nat (length bs) in
  size bw = (n + 7) / 8 ∧
  bit_pos bw = (if n =? 0 then 0 else n - 8 * (size bw - 1)) ∧
  size bw ≤ capacity bw ∧ capacity bw = Z.of_nat (length (data bw)) ∧
  capacity bw ≤ INT_MAX ∧
  (∀ i, 0 ≤ i < n →
     payload_bit (data bw) i = if read bs i =? 0 then 0 else 1) ∧
  (∀ i, n ≤ i < 8 * size bw → payload_bit (data bw) i = 0).
Proof.
  intros Hcap Hn bw n.
  pose proof (bw_holds_view bw bs) as Hv. cbv zeta in Hv.
  destruct Hv as (Hsz & Hpos & Hfit & Hlen & Hbits & Hpad).
  { apply (bw_put_bit_list_holds bs _ []), bw_init_holds. lia. }
  pose proof (bw_put_bits_capacity_bound bs cap (bw_init cap)
                ltac:(simpl; lia)) as Hc.
  split_and!; try done.
  apply (capacity_fits_int bw (Z.of_nat (length bs)) cap); (done || lia).
Qed.

Lemma bw_put_bit_sequence_witness :
  0 ≤ 1 ≤ INT_MAX ∧
  Z.of_nat (length [0; 1; 1; 0; 0; 0; 5; 0; 1; 0]%Z) ≤ 8 * 2 ^ 30 ∧
  let bs := [0; 1; 1; 0; 0; 0; 5; 0; 1; 0] in
  let bw := foldl bw_put_bit (bw_init 1) bs in
  let n := Z.of_nat (length bs) in
  size bw = (n + 7) / 8 ∧
  bit_pos bw = (if n =? 0 then 0 else n - 8 * (size bw - 1)) ∧
  size bw ≤ capacity bw ∧ capacity bw = Z.of_nat (length (data bw)) ∧
  capacity bw ≤ INT_MAX ∧
  (∀ i, 0 ≤ i < n →
     payload_bit (data bw) i = if read bs i =? 0 then 0 else 1) ∧
  (∀ i, n ≤ i < 8 * size bw → payload_bit (data bw) i = 0).
Proof.
  assert (H : 0 ≤ 1 ≤ INT_MAX) by (unfold INT_MAX; lia).
  assert (Hn : Z.of_nat (length [0; 1; 1; 0; 0; 0; 5; 0; 1; 0]%Z) ≤ 8 * 2 ^ 30)
    by (vm_compute; discriminate).
  split; [exact H|]. split; [exact Hn|].
  exact (bw_put_bit_sequence 1 [0; 1; 1; 0; 0; 0; 5; 0; 1; 0] H Hn).
Defined.

(** X2. [bw_ensure_space] leaves room for one more byte: on a writer whose
    buffer is as long as [capacity] says, and whose capacity, when the
    writer is full, can be doubled within the [int] range, the new capacity
    exceeds [size]; a writer that had room is left as it is; a full one
    gets the capacity max(16, 2 * capacity); [size] and [bit_pos] do not
    change, the old bytes are kept, the new bytes are 0, and a capacity
    that was an [int] is one still. *)
Theorem bw_ensure_space_grows (bw : BitWriter) :
  capacity bw = Z.of_nat (length (data bw)) → 0 ≤ size bw ≤ capacity bw →
  (capacity bw ≤ size bw → capacity bw * 2 ≤ INT_MAX) →
  let bw' := bw_ensure_space bw in
  size bw < capacity bw' ∧
  capacity bw' = Z.of_nat (length (data bw')) ∧
  (size bw < capacity bw → bw' = bw) ∧
  (size bw = capacity bw → capacity bw' = Z.max 16 (2 * capacity bw)) ∧
  size bw' = size bw ∧ bit_pos bw' = bit_pos bw ∧
  take (length (data bw)) (data bw') = data bw ∧
  Forall (λ b, b = 0) (drop (length (data bw)) (data bw')) ∧
  (capacity bw ≤ INT_MAX → capacity bw' ≤ INT_MAX).
Proof.
  intros Hcap Hsz Hint. unfold bw_ensure_space.
  destruct (Z.leb_spec (capacity bw) (size bw)) as [Hle|Hlt]; simpl.
  - assert (Hnew : (if capacity bw * 2 <? 16 then 16 else capacity bw * 2)
                   = Z.max 16 (2 * capacity bw))
      by (destruct (Z.ltb_spec (capacity bw * 2) 16); lia).
    rewrite Hnew. specialize (Hint Hle).
    split_and!; try done; try lia.
    + rewrite length_app, length_replicate. lia.
    + by rewrite take_app_length.
    + rewrite drop_app_length. by apply Forall_replicate.
    + unfold INT_MAX in *. lia.
  - split_and!; try done; try lia.
    + by rewrite firstn_all.
    + by rewrite drop_all.
Qed.

Lemma bw_ensure_space_grows_witness :
  let bw := mkBitWriter [7; 9] 2 2 8 in
  capacity bw = Z.of_nat (length (data bw)) ∧ 0 ≤ size bw ≤ capacity bw ∧
  (capacity bw ≤ size bw → capacity bw * 2 ≤ INT_MAX) ∧
  let bw' := bw_ensure_space bw in
  size bw < capacity bw' ∧
  capacity bw' = Z.of_nat (length (data bw')) ∧
  (size bw < capacity bw → bw' = bw) ∧
  (size bw = capacity bw → capacity bw' = Z.max 16 (2 * capacity bw)) ∧
  size bw' = size bw ∧ bit_pos bw' = bit_pos bw ∧
  take (length (data bw)) (data bw') = data bw ∧
  Forall (λ b, b = 0) (drop (length (data bw)) (data bw')) ∧
  (capacity bw ≤ INT_MAX → capacity bw' ≤ INT_MAX).
Proof.
  intros bw.
  assert (H1 : capacity bw = Z.of_nat (length (data bw))) by reflexivity.
  assert (H2 : 0 ≤ size bw ≤ capacity bw) by (simpl; lia).
  assert (H3 : capacity bw ≤ size bw → capacity bw * 2 ≤ INT_MAX)
    by (intros _; vm_compute; discriminate).
  split; [exact H1|]. split; [exact H2|]. split; [exact H3|].
  exact (bw_ensure_space_grows bw H1 H2 H3).
Defined.

(** X3. The initial capacity of a writer has no effect on what is written:
    the same bits, at most 2^33 of them, put into fresh writers of two
    capacities that are non-negative [int]s give the same [size], the same
    [bit_pos] and the same used bytes, and both capacities stay [int]s. *)
Theorem bw_capacity_irrelevant (cap1 cap2 : Z) (bs : list Z) :
  0 ≤ cap1 ≤ INT_MAX → 0 ≤ cap2 ≤ INT_MAX →
  Z.of_nat (length bs) ≤ 8 * 2 ^ 30 →
  let bw1 := foldl bw_put_bit (bw_init cap1) bs in
  let bw2 := foldl bw_put_bit (bw_init cap2) bs in
  size bw1 = size bw2 ∧ bit_pos bw1 = bit_pos bw2 ∧
  take (Z.to_nat (size bw1)) (data bw1) = take (Z.to_nat (size bw2)) (data bw2) ∧
  capacity bw1 ≤ INT_MAX ∧ capacity bw2 ≤ INT_MAX.
Proof.
  intros H1 H2 Hn bw1 bw2.
  assert (Hh1 : bw_holds bw1 ([] ++ ((λ b, negb (b =? 0)) <$> bs)))
    by (apply bw_put_bit_list_holds, bw_init_holds; lia).
  assert (Hh2 : bw_holds bw2 ([] ++ ((λ b, negb (b =? 0)) <$> bs)))
    by (apply bw_put_bit_list_holds, bw_init_holds; lia).
  destruct (bw_holds_same_bytes _ _ _ Hh1 Hh2) as (Hs & Hp & Hd).
  { apply bw_put_bits_bytes. simpl. apply Forall_replicate. unfold is_byte. lia. }
  { apply bw_put_bits_bytes. simpl. apply Forall_replicate. unfold is_byte. lia. }
  pose proof (bwh_size _ _ Hh1) as Hsz1. pose proof (bwh_size _ _ Hh2) as Hsz2.
  simpl in Hsz1, Hsz2. rewrite length_fmap in Hsz1, Hsz2.
  split_and!; try done.
  - apply (capacity_fits_int bw1 (Z.of_nat (length bs)) cap1); try (done || lia).
    apply bw_put_bits_capacity_bound. simpl. lia.
  - apply (capacity_fits_int bw2 (Z.of_nat (length bs)) cap2); try (done || lia).
    apply bw_put_bits_capacity_bound. simpl. lia.
Qed.

Lemma bw_capacity_irrelevant_witness :
  0 ≤ 0 ≤ INT_MAX ∧ 0 ≤ 64 ≤ INT_MAX ∧
  Z.of_nat (length [0; 0; 1; 1; 0; 1; 0; 1; 1]%Z) ≤ 8 * 2 ^ 30 ∧
  let bs := [0; 0; 1; 1; 0; 1; 0; 1; 1] in
  let bw1 := foldl bw_put_bit (bw_init 0) bs in
  let bw2 := foldl bw_put_bit (bw_init 64) bs in
  size bw1 = size bw2 ∧ bit_pos bw1 = bit_pos bw2 ∧
  take (Z.to_nat (size bw1)) (data bw1) = take (Z.to_nat (size bw2)) (data bw2) ∧
  capacity bw1 ≤ INT_MAX ∧ capacity bw2 ≤ INT_MAX.
Proof.
  assert (H1 : 0 ≤ 0 ≤ INT_MAX) by (unfold INT_MAX; lia).
  assert (H2 : 0 ≤ 64 ≤ INT_MAX) by (unfold INT_MAX; lia).
  assert (Hn : Z.of_nat (length [0; 0; 1; 1; 0; 1; 0; 1; 1]%Z) ≤ 8 * 2 ^ 30)
    by (vm_compute; discriminate).
  split; [exact H1|]. split; [exact H2|]. split; [exact Hn|].
  exact (bw_capacity_irrelevant 0 64 [0; 0; 1; 1; 0; 1; 0; 1; 1] H1 H2 Hn).
Defined.

(** X4. A writer that went through [bw_free] can be used again: whatever
    it held before, bits put into it (at most 2^33) give the same [size],
    [bit_pos] and used bytes as the same bits put into a fresh writer of
    any capacity that is a non-negative [int]; its buffer is as long as
    [capacity] says, its capacity is an [int], and at least 16 as soon as
    a bit was put. *)
Theorem bw_free_reusable (bw : BitWriter) (cap : Z) (bs : list Z) :
  0 ≤ cap ≤ INT_MAX → Z.of_nat (length bs) ≤ 8 * 2 ^ 30 →
  let bw1 := foldl bw_put_bit (bw_free bw) bs in
  let bw2 := foldl bw_put_bit (bw_init cap) bs in
  size bw1 = size bw2 ∧ bit_pos bw1 = bit_pos bw2 ∧
  take (Z.to_nat (size bw1)) (data bw1) = take (Z.to_nat (size bw2)) (data bw2) ∧
  capacity bw1 = Z.of_nat (length (data bw1)) ∧
  capacity bw1 ≤ INT_MAX ∧
  (bs ≠ [] → 16 ≤ capacity bw1).
Proof.
  intros Hcap Hn bw1 bw2.
  assert (H1 : bw_holds bw1 ([] ++ ((λ b, negb (b =? 0)) <$> bs)))
    by apply bw_put_bit_list_holds, bw_free_holds.
  assert (H2 : bw_holds bw2 ([] ++ ((λ b, negb (b =? 0)) <$> bs)))
    by (apply bw_put_bit_list_holds, bw_init_holds; lia).
  destruct (bw_holds_same_bytes _ _ _ H1 H2) as (Hs & Hp & Hd).
  { by apply bw_put_bits_bytes. }
  { apply bw_put_bits_bytes. simpl. apply Forall_replicate. unfold is_byte. lia. }
  pose proof (bwh_size _ _ H1) as Hsz1.
  simpl in Hsz1. rewrite length_fmap in Hsz1.
  split_and!; try done.
  - apply (bwh_capacity _ _ H1).
  - apply (capacity_fits_int bw1 (Z.of_nat (length bs)) 0);
      try (done || lia || (unfold INT_MAX; lia)).
    apply bw_put_bits_capacity_bound. simpl. lia.
  - intros Hne. unfold bw1. destruct bs as [|b bs]; [done|]. simpl.
    etrans; [|apply bw_put_bits_capacity].
    unfold bw_put_bit, bw_free. simpl. by destruct (b =? 0).
Qed.

Lemma bw_free_reusable_witness :
  0 ≤ 64 ≤ INT_MAX ∧
  Z.of_nat (length [0; 0; 1; 1; 0; 1; 0; 1; 1]%Z) ≤ 8 * 2 ^ 30 ∧
  let bw := foldl bw_put_bit (bw_init 64) [1; 0; 1] in
  let bs := [0; 0; 1; 1; 0; 1; 0; 1; 1] in
  let bw1 := foldl bw_put_bit (bw_free bw) bs in
  let bw2 := foldl bw_put_bit (bw_init 64) bs in
  size bw1 = size bw2 ∧ bit_pos bw1 = bit_pos bw2 ∧
  take (Z.to_nat (size bw1)) (data bw1) = take (Z.to_nat (size bw2)) (data bw2) ∧
  capacity bw1 = Z.of_nat (length (data bw1)) ∧
  capacity bw1 ≤ INT_MAX ∧
  (bs ≠ [] → 16 ≤ capacity bw1).
Proof.
  assert (H : 0 ≤ 64 ≤ INT_MAX) by (unfold INT_MAX; lia).
  assert (Hn : Z.of_nat (length [0; 0; 1; 1; 0; 1; 0; 1; 1]%Z) ≤ 8 * 2 ^ 30)
    by (vm_compute; discriminate).
  split; [exact H|]. split; [exact Hn|].
  exact (bw_free_reusable (foldl bw_put_bit (bw_init 64) [1; 0; 1]) 64
           [0; 0; 1; 1; 0; 1; 0; 1; 1] H Hn).
Defined.

(** X5. [count_character_frequency] adds to the table it is given.  For a
    text whose length is an [int] and a table of 256 entries each of which
    can take that many increments within the [int] range: each entry grows
    by the number of times its byte occurs in the text before the first
    zero byte, every entry stays an [int], and the table keeps its 256
    entries. *)
Theorem count_character_frequency_adds (text freq_table : list Z) :
  Forall is_byte text → length freq_table = 256%nat →
  strlen text ≤ INT_MAX →
  Forall (λ f, INT_MIN ≤ f ∧ f + strlen text ≤ INT_MAX) freq_table →
  let freq_table' := count_character_frequency text freq_table in
  length freq_table' = 256%nat ∧
  ∀ c, is_byte c →
    read freq_table' c = read freq_table c + occurrences c (c_string text) ∧
    INT_MIN ≤ read freq_table' c ≤ INT_MAX.
Proof.
  intros Hb Hlen _ Hint. unfold count_character_frequency.
  rewrite <- (foldl_fmap (λ ft c, write ft (to_uchar c)
                                   (read ft (to_uchar c) + 1))
                _ _ (λ i, read text i)).
  rewrite read_c_string.
  destruct (count_frequency (c_string text) freq_table Hlen
              (c_string_bytes text Hb)) as [Hlen' Hrd].
  split; [done|]. intros c Hc. rewrite Hrd by done. split; [done|].
  pose proof (occurrences_nonneg c (c_string text)).
  pose proof (occurrences_le_length c (c_string text)) as Hocc.
  rewrite <- strlen_c_string in Hocc.
  rewrite Forall_lookup in Hint.
  unfold is_byte in Hc.
  pose proof (Hint (Z.to_nat c) (read freq_table c)
                (lookup_read freq_table c ltac:(lia))) as Hf.
  simpl in Hf. lia.
Qed.

Lemma count_character_frequency_adds_witness :
  let text := [97; 98; 97; 0; 97] in
  let freq_table := replicate 256 5 in
  Forall is_byte text ∧ length freq_table = 256%nat ∧
  strlen text ≤ INT_MAX ∧
  Forall (λ f, INT_MIN ≤ f ∧ f + strlen text ≤ INT_MAX) freq_table ∧
  let freq_table' := count_character_frequency text freq_table in
  length freq_table' = 256%nat ∧
  ∀ c, is_byte c →
    read freq_table' c = read freq_table c + occurrences c (c_string text) ∧
    INT_MIN ≤ read freq_table' c ≤ INT_MAX.
Proof.
  intros text freq_table.
  assert (H1 : Forall is_byte text)
    by (repeat constructor; unfold is_byte; lia).
  assert (H2 : length freq_table = 256%nat) by reflexivity.
  assert (H3 : strlen text ≤ INT_MAX) by (vm_compute; discriminate).
  assert (H4 : Forall (λ f, INT_MIN ≤ f ∧ f + strlen text ≤ INT_MAX)
                 freq_table).
  { apply Forall_replicate. split; vm_compute; discriminate. }
  split; [exact H1|]. split; [exact H2|]. split; [exact H3|].
  split; [exact H4|].
  exact (count_character_frequency_adds text freq_table H1 H2 H3 H4).
Defined.

(** X6. [compare_codeentry] is a consistent comparison, as [qsort]
    requires: it answers -1, 0 or 1; swapping the arguments negates the
    answer; it answers 0 exactly when frequency and symbol agree; it
    answers a negative number exactly when the first entry is more frequent,
    or as frequent with the smaller symbol; and "not after" is
    transitive. *)
Theorem compare_codeentry_order (a b c : CodeEntry) :
  (compare_codeentry a b = -1 ∨ compare_codeentry a b = 0
   ∨ compare_codeentry a b = 1) ∧
  compare_codeentry b a = - compare_codeentry a b ∧
  (compare_codeentry a b = 0 ↔ freq a = freq b ∧ symbol a = symbol b) ∧
  (compare_codeentry a b < 0
   ↔ freq b < freq a ∨ (freq a = freq b ∧ symbol a < symbol b)) ∧
  (compare_codeentry a b ≤ 0 → compare_codeentry b c ≤ 0 →
   compare_codeentry a c ≤ 0).
Proof.
  unfold compare_codeentry.
  repeat match goal with
  | |- context [?x <? ?y] => destruct (Z.ltb_spec x y)
  end; lia.
Qed.

(** X7. [generate_cycles_for_codes] ends for every K up to the length of
    the table, and writes nothing but the pairs of the first K entries:
    the table keeps its length, every symbol and every frequency, the
    entries from K on are untouched, and with K <= 0 the table is
    unchanged. *)
Theorem generate_cycles_keeps_rest (codes : list CodeEntry) (K : Z) :
  K ≤ Z.of_nat (length codes) →
  ∃ codes',
    generate_cycles_for_codes codes K = Ok codes' ∧
    length codes' = length codes ∧
    symbol <$> codes' = symbol <$> codes ∧
    freq <$> codes' = freq <$> codes ∧
    drop (Z.to_nat K) codes' = drop (Z.to_nat K) codes ∧
    (K ≤ 0 → codes' = codes).
Proof.
  intros HK. eexists. split; [by apply generate_cycles_for_codes_spec|].
  split_and!.
  - apply length_assign_cycles.
  - apply symbols_of_assign_cycles.
  - apply freqs_of_assign_cycles.
  - destruct (decide (0 ≤ K)) as [H0|H0].
    + pose proof (length_canonical_cycles K H0) as Hlen.
      replace (Z.to_nat K) with (length (canonical_cycles K)) by lia.
      apply drop_assign_cycles.
    + unfold canonical_cycles. by replace (Z.to_nat K) with 0%nat by lia.
  - intros H0. unfold canonical_cycles.
    by replace (Z.to_nat K) with 0%nat by lia.
Qed.

Lemma generate_cycles_keeps_rest_witness :
  let codes := [mkCodeEntry 97 5 0 0; mkCodeEntry 98 3 7 7; mkCodeEntry 99 1 9 9] in
  2 ≤ Z.of_nat (length codes) ∧
  ∃ codes',
    generate_cycles_for_codes codes 2 = Ok codes' ∧
    length codes' = length codes ∧
    symbol <$> codes' = symbol <$> codes ∧
    freq <$> codes' = freq <$> codes ∧
    drop (Z.to_nat 2) codes' = drop (Z.to_nat 2) codes ∧
    (2 ≤ 0 → codes' = codes).
Proof.
  intros codes.
  assert (H : 2 ≤ Z.of_nat (length codes)) by (simpl; lia).
  split; [exact H|]. exact (generate_cycles_keeps_rest codes 2 H).
Defined.

(** X8. The pair of a rank in closed form: the ranks of code length L
    (L >= 2) are (L-1)(L-2)/2 + d for d = 0 .. L-2, and the generator gives
    the rank (L-1)(L-2)/2 + d the pair (m, j) = (L - 1 - d, 1 + d),
    whatever K (above the rank) it was called with. *)
Theorem generate_cycles_closed_form (codes : list CodeEntry) (K L d : Z) :
  K ≤ Z.of_nat (length codes) →
  2 ≤ L → 0 ≤ d < L - 1 → (L - 1) * (L - 2) / 2 + d < K →
  ∃ codes',
    generate_cycles_for_codes codes K = Ok codes' ∧
    cycle_of (read codes' ((L - 1) * (L - 2) / 2 + d)) = (L - 1 - d, 1 + d).
Proof.
  intros HK HL Hd Hr. eexists. split; [by apply generate_cycles_for_codes_spec|].
  assert (0 ≤ (L - 1) * (L - 2) / 2) by (apply Z.div_pos; nia).
  rewrite table_cycle by lia. by apply rank_cycle_closed_form.
Qed.

Lemma generate_cycles_closed_form_witness :
  let codes := replicate 256 blank_entry in
  200 ≤ Z.of_nat (length codes) ∧ 2 ≤ 5 ∧ 0 ≤ 2 < 5 - 1 ∧
  (5 - 1) * (5 - 2) / 2 + 2 < 200 ∧
  ∃ codes',
    generate_cycles_for_codes codes 200 = Ok codes' ∧
    cycle_of (read codes' ((5 - 1) * (5 - 2) / 2 + 2)) = (5 - 1 - 2, 1 + 2).
Proof.
  intros codes.
  assert (H1 : 200 ≤ Z.of_nat (length codes)) by (vm_compute; discriminate).
  assert (H2 : 2 ≤ 5) by lia.
  assert (H3 : 0 ≤ 2 < 5 - 1) by lia.
  assert (H4 : (5 - 1) * (5 - 2) / 2 + 2 < 200) by (vm_compute; reflexivity).
  split; [exact H1|]. split; [exact H2|]. split; [exact H3|].
  split; [exact H4|].
  exact (generate_cycles_closed_form codes 200 5 2 H1 H2 H3 H4).
Defined.

(** X9. The loop that builds the table of symbols, on any frequency
    table: K is between 0 and 256, the 256 entries of [codes] are never
    overrun, the first K entries list exactly the byte values with a
    positive frequency, in increasing order of the symbol, each with its
    frequency and with m = j = 0. *)
Theorem collect_symbols_present (freq_table : list Z) :
  let codes := (collect_symbols freq_table).1 in
  let K := (collect_symbols freq_table).2 in
  0 ≤ K ≤ 256 ∧ length codes = 256%nat ∧
  symbol <$> take (Z.to_nat K) codes
  = filter (λ c, 0 < read freq_table c) (seqZ 0 256) ∧
  (∀ r, 0 ≤ r < K →
     freq (read codes r) = read freq_table (symbol (read codes r)) ∧
     0 < freq (read codes r) ∧
     code_m (read codes r) = 0 ∧ code_j (read codes r) = 0) ∧
  (∀ r1 r2, 0 ≤ r1 → r1 < r2 → r2 < K →
     symbol (read codes r1) < symbol (read codes r2)).
Proof.
  rewrite collect_symbols_spec. cbn [fst snd].
  set (ents := entries_of freq_table (seqZ 0 256)).
  pose proof (length_entries_of freq_table (seqZ 0 256)) as Hlen.
  rewrite length_seqZ in Hlen. fold ents in Hlen.
  rewrite Nat2Z.id, take_app_length.
  assert (Hrd : ∀ r, 0 ≤ r < Z.of_nat (length ents) →
            read (ents ++ replicate (256 - length ents) blank_entry) r ∈ ents).
  { intros r Hr. rewrite read_app_l by lia.
    apply list_elem_of_lookup_total_2. lia. }
  split_and!.
  - lia.
  - lia.
  - rewrite length_app, length_replicate. lia.
  - apply symbols_entries_of.
  - intros r Hr. apply Hrd, entries_of_elem in Hr as (He & _ & Hpos).
    destruct (read _ r) as [s f m j]. simpl in *. by simplify_eq.
  - intros r1 r2 H0 H12 H2.
    rewrite !read_app_l by lia. unfold read.
    rewrite <- !(list_lookup_total_fmap symbol) by lia.
    unfold ents. rewrite symbols_entries_of.
    assert (Hs : StronglySorted Z.lt
              (filter (λ c, 0 < read freq_table c) (seqZ 0 256))).
    { apply StronglySorted_filter, (seqZ_sorted 0 256). }
    assert (Hl : length (filter (λ c, 0 < read freq_table c) (seqZ 0 256))
                 = length ents).
    { unfold ents. by rewrite <- symbols_entries_of, length_fmap. }
    eapply (StronglySorted_lookup Z.lt _ (Z.to_nat r1) (Z.to_nat r2)); 
      [exact Hs| | |lia]; apply list_lookup_lookup_total_lt; lia.
Qed.

(** X10. The lookup table is the inverse of the code table: when the first
    K entries carry distinct byte symbols, [lut] maps the symbol of rank r
    to r, and every other byte value to -1. *)
Theorem build_lut_inverse (codes : list CodeEntry) (K : Z) :
  (∀ r, 0 ≤ r < K → is_byte (symbol (read codes r))) →
  (∀ r1 r2, 0 ≤ r1 < K → 0 ≤ r2 < K →
     symbol (read codes r1) = symbol (read codes r2) → r1 = r2) →
  let lut := build_lut codes K in
  length lut = 256%nat ∧
  (∀ r, 0 ≤ r < K → read lut (symbol (read codes r)) = r) ∧
  (∀ c, is_byte c →
     (∀ r, 0 ≤ r < K → symbol (read codes r) ≠ c) → read lut c = -1).
Proof.
  intros Hb Hinj. unfold build_lut, ALPHABET_SIZE.
  destruct (decide (0 ≤ K)) as [HK|HK].
  - pose proof (build_lut_steps codes (Z.to_nat K)) as H.
    rewrite Z2Nat.id in H by lia. by apply H.
  - rewrite seqZ_nil by lia.
    pose proof (build_lut_steps codes 0) as H. simpl in H.
    destruct H as (H1 & _ & H3); [lia|lia|].
    split_and!; [done|lia|]. intros c Hc _. apply H3; [done|lia].
Qed.

Lemma build_lut_inverse_witness :
  let codes := [mkCodeEntry 98 3 1 1; mkCodeEntry 97 1 2 1] in
  (∀ r, 0 ≤ r < 2 → is_byte (symbol (read codes r))) ∧
  (∀ r1 r2, 0 ≤ r1 < 2 → 0 ≤ r2 < 2 →
     symbol (read codes r1) = symbol (read codes r2) → r1 = r2) ∧
  let lut := build_lut codes 2 in
  length lut = 256%nat ∧
  (∀ r, 0 ≤ r < 2 → read lut (symbol (read codes r)) = r) ∧
  (∀ c, is_byte c →
     (∀ r, 0 ≤ r < 2 → symbol (read codes r) ≠ c) → read lut c = -1).
Proof.
  intros codes.
  assert (Hcase : ∀ r, 0 ≤ r < 2 → r = 0 ∨ r = 1) by lia.
  assert (H1 : ∀ r, 0 ≤ r < 2 → is_byte (symbol (read codes r))).
  { intros r Hr. unfold is_byte. destruct (Hcase r Hr) as [->| ->]; simpl; lia. }
  assert (H2 : ∀ r1 r2, 0 ≤ r1 < 2 → 0 ≤ r2 < 2 →
            symbol (read codes r1) = symbol (read codes r2) → r1 = r2).
  { intros r1 r2 Hr1 Hr2.
    destruct (Hcase r1 Hr1) as [->| ->], (Hcase r2 Hr2) as [->| ->];
      simpl; intros; lia. }
  split; [exact H1|]. split; [exact H2|].
  exact (build_lut_inverse codes 2 H1 H2).
Defined.

(** X11. [compress_cycle_based] reads its text up to the first zero byte
    only: two buffers that hold the same C string are compressed to the
    same result. *)
Theorem compress_reads_c_string (text1 text2 : list Z) :
  c_string text1 = c_string text2 →
  compress_cycle_based text1 = compress_cycle_based text2.
Proof.
  intros Heq. by rewrite (compress_c_string text1), (compress_c_string text2), Heq.
Qed.

Lemma compress_reads_c_string_witness :
  c_string [104; 105; 0; 120; 121] = c_string [104; 105] ∧
  compress_cycle_based [104; 105; 0; 120; 121]
  = compress_cycle_based [104; 105].
Proof.
  assert (H : c_string [104; 105; 0; 120; 121] = c_string [104; 105])
    by reflexivity.
  split; [exact H|].
  exact (compress_reads_c_string [104; 105; 0; 120; 121] [104; 105] H).
Defined.

(** X12. The size of the compressed buffer of a non-empty message of n
    bytes without zero byte, with K distinct byte values and 24 * n within
    the [int] range: the size the call answers is the length of the buffer,
    and it lies between 1 + K + ceil(2n/8) and 1 + K + 3n (a code is 2 to
    24 bits long), so it never exceeds 256 + 3n and is an [int]. *)
Theorem compressed_size_bounds (msg : list Z) :
  msg ≠ [] → Forall (λ c, 1 ≤ c ≤ 255) msg →
  24 * Z.of_nat (length msg) ≤ INT_MAX →
  ∃ data size,
    let n := Z.of_nat (length msg) in
    let K := Z.of_nat (length (distinct_bytes msg)) in
    compress_cycle_based msg = Ok (data, size) ∧
    size = Z.of_nat (length data) ∧
    1 + K + (2 * n + 7) / 8 ≤ size ∧ size ≤ 1 + K + 3 * n ∧
    size ≤ 256 + 3 * n ∧ size ≤ INT_MAX.
Proof.
  intros Hne Hmsg Hfit. destruct (nonzero_bytes msg Hmsg) as [Hb Hnz].
  pose proof (c_string_id msg Hnz) as Hid.
  destruct (compress_spec msg Hb) as (syms & bw & Hc & HK & Hperm & _ & _ & Hbw).
  { by rewrite Hid. }
  rewrite Hid in *.
  destruct (bw_holds_length _ _ Hbw) as (_ & Hlen & Hsz).
  pose proof (Permutation_length Hperm) as HlenK.
  eexists _, _. cbv zeta. split; [exact Hc|]. rewrite <- HlenK.
  set (K := Z.of_nat (length syms)) in *.
  set (n := Z.of_nat (length msg)) in *.
  pose proof (length_bind_bounds
    (λ c, cycle_bits (rank_cycle K (index_of c syms))) msg 2 24) as Hbits.
  destruct Hbits as [Hlo Hhi].
  { apply Forall_forall. intros c Hc'.
    assert (Hin : c ∈ syms) by (rewrite Hperm; by apply elem_of_remove_dups).
    destruct (index_of_spec c syms Hin) as [Hi _].
    pose proof (rank_cycle_length K (index_of c syms) ltac:(lia) Hi).
    pose proof (rank_cycle_positive K (index_of c syms) Hi).
    rewrite length_cycle_bits; lia. }
  fold n in Hlo, Hhi.
  pose proof (bwh_size _ _ Hbw) as Hsize.
  split; [simpl; rewrite length_app, Hlen; lia|].
  unfold INT_MAX in *.
  split_and!; rewrite Hsize; Z.div_mod_to_equations; lia.
Qed.

Lemma compressed_size_bounds_witness :
  ([97; 97; 98] : list Z) ≠ [] ∧ Forall (λ c, 1 ≤ c ≤ 255) [97; 97; 98] ∧
  24 * Z.of_nat (length [97; 97; 98]%Z) ≤ INT_MAX ∧
  ∃ data size,
    let n := Z.of_nat (length [97; 97; 98]%Z) in
    let K := Z.of_nat (length (distinct_bytes [97; 97; 98])) in
    compress_cycle_based [97; 97; 98] = Ok (data, size) ∧
    size = Z.of_nat (length data) ∧
    1 + K + (2 * n + 7) / 8 ≤ size ∧ size ≤ 1 + K + 3 * n ∧
    size ≤ 256 + 3 * n ∧ size ≤ INT_MAX.
Proof.
  assert (H1 : ([97; 97; 98] : list Z) ≠ []) by discriminate.
  assert (H2 : Forall (λ c, 1 ≤ c ≤ 255) [97; 97; 98])
    by (repeat constructor; lia).
  assert (H3 : 24 * Z.of_nat (length [97; 97; 98]%Z) ≤ INT_MAX)
    by (vm_compute; discriminate).
  split; [exact H1|]. split; [exact H2|]. split; [exact H3|].
  exact (compressed_size_bounds [97; 97; 98] H1 H2 H3).
Defined.

(** X13. In the payload of a non-empty message of n bytes without zero
    byte, with 24 * n within the [int] range, every symbol is written with
    the cycle of its rank in the header, a symbol that occurs more often
    than another never has the longer code, and a symbol that occurs more
    often than every other one has the two-bit code 01, the pair (1, 1);
    the number of payload bits is an [int]. *)
Theorem frequent_symbols_short_codes (msg : list Z) :
  msg ≠ [] → Forall (λ c, 1 ≤ c ≤ 255) msg →
  24 * Z.of_nat (length msg) ≤ INT_MAX →
  ∃ syms payload,
    let K := Z.of_nat (length syms) in
    let code := λ c, rank_cycle K (index_of c syms) in
    let bits := msg ≫= λ c, cycle_bits (code c) in
    compress_cycle_based msg
    = Ok (K :: syms ++ payload, 1 + K + Z.of_nat (length payload)) ∧
    Z.of_nat (length payload) * 8 ≤ INT_MAX ∧
    (∀ i, 0 ≤ i < Z.of_nat (length payload) * 8 →
       payload_bit payload i = bit_of bits i) ∧
    (∀ a b, a ∈ msg → b ∈ msg →
       occurrences b msg < occurrences a msg →
       (code a).1 + (code a).2 ≤ (code b).1 + (code b).2) ∧
    (∀ a, a ∈ msg →
       (∀ b, b ∈ msg → b ≠ a → occurrences b msg < occurrences a msg) →
       code a = (1, 1)).
Proof.
  intros Hne Hmsg Hfit. destruct (nonzero_bytes msg Hmsg) as [Hb Hnz].
  pose proof (c_string_id msg Hnz) as Hid.
  destruct (compress_spec msg Hb) as (syms & bw & Hc & HK & Hperm & Hnd & Hss & Hbw).
  { by rewrite Hid. }
  rewrite Hid in *.
  destruct (bw_holds_length _ _ Hbw) as (_ & Hlen & Hsz).
  assert (Hin : ∀ c, c ∈ msg ↔ c ∈ syms).
  { intros c. rewrite Hperm. unfold distinct_bytes.
    by rewrite elem_of_remove_dups. }
  pose proof (symbols_payload_bound syms msg bw ltac:(lia)
                (λ c Hc', proj1 (Hin c) Hc') Hbw) as Hbound.
  exists syms, (take (Z.to_nat (size bw)) (data bw)).
  cbv zeta. rewrite Hlen, Z2Nat.id by lia.
  set (K := Z.of_nat (length syms)) in *.
  split_and!; [done|lia| | |].
  - intros i Hi. by apply bw_holds_payload.
  - intros a b Ha Hb' Hocc. apply Hin in Ha, Hb'.
    pose proof (rank_before_index msg syms a b Hss Ha Hb' Hocc).
    destruct (index_of_spec a syms Ha) as [Hia _].
    destruct (index_of_spec b syms Hb') as [Hib _].
    apply rank_cycle_mono; lia.
  - intros a Ha Hmax. pose proof Ha as Ha'. apply Hin in Ha'.
    destruct (index_of_spec a syms Ha') as [Hia Hra].
    assert (Hi0 : index_of a syms = 0).
    { destruct (decide (index_of a syms = 0)) as [|Hpos]; [done|]. exfalso.
      assert (H0 : read syms 0 ∈ syms)
        by (apply list_elem_of_lookup_total_2; lia).
      destruct (index_of_spec _ _ H0) as [Hi0 _].
      assert (Hne0 : read syms 0 ≠ a).
      { intros Heq. apply Hpos. rewrite <- Heq.
        apply index_of_read; [done|lia]. }
      pose proof (Hmax _ (proj2 (Hin _) H0) Hne0) as Hocc.
      pose proof (rank_before_index msg syms a _ Hss Ha' H0 Hocc) as Hlt.
      rewrite (index_of_read syms 0) in Hlt by (done || lia). lia. }
    rewrite Hi0.
    apply (rank_cycle_closed_form K 2 0); [lia|lia|].
    change ((2 - 1) * (2 - 2) / 2 + 0) with 0. lia.
Qed.

Lemma frequent_symbols_short_codes_witness :
  ([97; 97; 98] : list Z) ≠ [] ∧ Forall (λ c, 1 ≤ c ≤ 255) [97; 97; 98] ∧
  24 * Z.of_nat (length [97; 97; 98]%Z) ≤ INT_MAX ∧
  ∃ syms payload,
    let K := Z.of_nat (length syms) in
    let code := λ c, rank_cycle K (index_of c syms) in
    let bits := [97; 97; 98] ≫= λ c, cycle_bits (code c) in
    compress_cycle_based [97; 97; 98]
    = Ok (K :: syms ++ payload, 1 + K + Z.of_nat (length payload)) ∧
    Z.of_nat (length payload) * 8 ≤ INT_MAX ∧
    (∀ i, 0 ≤ i < Z.of_nat (length payload) * 8 →
       payload_bit payload i = bit_of bits i) ∧
    (∀ a b, a ∈ [97; 97; 98] → b ∈ [97; 97; 98] →
       occurrences b [97; 97; 98] < occurrences a [97; 97; 98] →
       (code a).1 + (code a).2 ≤ (code b).1 + (code b).2) ∧
    (∀ a, a ∈ [97; 97; 98] →
       (∀ b, b ∈ [97; 97; 98] → b ≠ a →
          occurrences b [97; 97; 98] < occurrences a [97; 97; 98]) →
       code a = (1, 1)).
Proof.
  assert (H1 : ([97; 97; 98] : list Z) ≠ []) by discriminate.
  assert (H2 : Forall (λ c, 1 ≤ c ≤ 255) [97; 97; 98])
    by (repeat constructor; lia).
  assert (H3 : 24 * Z.of_nat (length [97; 97; 98]%Z) ≤ INT_MAX)
    by (vm_compute; discriminate).
  split; [exact H1|]. split; [exact H2|]. split; [exact H3|].
  exact (frequent_symbols_short_codes [97; 97; 98] H1 H2 H3).
Defined.

(** X14. Two different messages without zero byte, each of n bytes with
    24 * n within the [int] range, are never compressed to the same buffer
    and size. *)
Theorem compress_injective (msg1 msg2 : list Z) :
  Forall (λ c, 1 ≤ c ≤ 255) msg1 → Forall (λ c, 1 ≤ c ≤ 255) msg2 →
  24 * Z.of_nat (length msg1) ≤ INT_MAX →
  24 * Z.of_nat (length msg2) ≤ INT_MAX →
  msg1 ≠ msg2 →
  compress_cycle_based msg1 ≠ compress_cycle_based msg2.
Proof.
  intros H1 H2 _ _ Hne Heq. apply Hne.
  destruct (nonzero_bytes msg1 H1) as [Hb1 Hnz1].
  destruct (nonzero_bytes msg2 H2) as [Hb2 Hnz2].
  set (n := Z.of_nat (length msg1 + length msg2)).
  set (out := replicate (S (length msg1 + length msg2)) 0).
  assert (Ht1 : take (Z.to_nat n) msg1 = msg1) by (apply take_ge; lia).
  assert (Ht2 : take (Z.to_nat n) msg2 = msg2) by (apply take_ge; lia).
  destruct (compress_then_decompress_any msg1 out n Hb1)
    as (d1 & s1 & Hc1 & Hd1).
  { rewrite c_string_id, Ht1 by done. unfold out. rewrite length_replicate. lia. }
  destruct (compress_then_decompress_any msg2 out n Hb2)
    as (d2 & s2 & Hc2 & Hd2).
  { rewrite c_string_id, Ht2 by done. unfold out. rewrite length_replicate. lia. }
  rewrite Hc1, Hc2 in Heq. simplify_eq.
  rewrite Hd1 in Hd2. rewrite !c_string_id, Ht1, Ht2 in Hd2 by done.
  injection Hd2 as Hd2. apply (f_equal c_string) in Hd2.
  by rewrite !c_string_app_nul in Hd2.
Qed.

Lemma compress_injective_witness :
  Forall (λ c, 1 ≤ c ≤ 255) [97; 98] ∧ Forall (λ c, 1 ≤ c ≤ 255) [98; 97] ∧
  24 * Z.of_nat (length [97; 98]%Z) ≤ INT_MAX ∧
  24 * Z.of_nat (length [98; 97]%Z) ≤ INT_MAX ∧
  ([97; 98] : list Z) ≠ [98; 97] ∧
  compress_cycle_based [97; 98] ≠ compress_cycle_based [98; 97].
Proof.
  assert (H1 : Forall (λ c, 1 ≤ c ≤ 255) [97; 98])
    by (repeat constructor; lia).
  assert (H2 : Forall (λ c, 1 ≤ c ≤ 255) [98; 97])
    by (repeat constructor; lia).
  assert (H3 : 24 * Z.of_nat (length [97; 98]%Z) ≤ INT_MAX)
    by (vm_compute; discriminate).
  assert (H4 : 24 * Z.of_nat (length [98; 97]%Z) ≤ INT_MAX)
    by (vm_compute; discriminate).
  assert (H5 : ([97; 98] : list Z) ≠ [98; 97]) by discriminate.
  split; [exact H1|]. split; [exact H2|]. split; [exact H3|].
  split; [exact H4|]. split; [exact H5|].
  exact (compress_injective [97; 98] [98; 97] H1 H2 H3 H4 H5).
Defined.

(** X15. The decoder with any symbol count [n]: for a message without
    zero byte, of a length whose 24-fold is within the [int] range,
    decompressing its compressed buffer with the count [n] writes the
    first [n] bytes of the message and the terminating NUL, and reports
    nothing; with [n] at or above the length of the message it writes the
    whole message (the padding bits end the decoding), with [n <= 0] the
    empty string.  The number of payload bits the decoder computes is an
    [int]. *)
Theorem decompress_any_length (msg out_text : list Z) (n : Z) :
  Forall (λ c, 1 ≤ c ≤ 255) msg →
  24 * Z.of_nat (length msg) ≤ INT_MAX →
  (length (take (Z.to_nat n) msg) < length out_text)%nat →
  ∃ data size out_text',
    compress_cycle_based msg = Ok (data, size) ∧
    (size - (1 + read data 0)) * 8 ≤ INT_MAX ∧
    decompress_cycle_based data size n out_text = Ok (out_text', None) ∧
    out_text' = take (Z.to_nat n) msg
                  ++ 0 :: drop (S (length (take (Z.to_nat n) msg))) out_text ∧
    c_string out_text' = take (Z.to_nat n) msg ∧
    (Z.of_nat (length msg) ≤ n → c_string out_text' = msg).
Proof.
  intros Hmsg Hfit Hroom. destruct (nonzero_bytes msg Hmsg) as [Hb Hnz].
  pose proof (c_string_id msg Hnz) as Hid.
  destruct (compress_then_decompress_any msg out_text n Hb)
    as (data & size & Hc & Hd).
  { by rewrite Hid. }
  rewrite Hid in Hd.
  eexists _, _, _. split; [exact Hc|].
  assert (Hcs : c_string (take (Z.to_nat n) msg
                  ++ 0 :: drop (S (length (take (Z.to_nat n) msg))) out_text)
                = take (Z.to_nat n) msg)
    by (by apply c_string_app_nul, Forall_take).
  split_and!; try done.
  - destruct (decide (msg = [])) as [->|Hne].
    + rewrite compress_empty in Hc by done. simplify_eq. vm_compute. discriminate.
    + destruct (compress_spec msg Hb)
        as (syms & bw & Hc' & HK & Hperm & _ & _ & Hbw).
      { by rewrite Hid. }
      rewrite Hid in *. rewrite Hc in Hc'. simplify_eq.
      assert (Hin : ∀ c, c ∈ msg → c ∈ syms).
      { intros c Hc'. rewrite Hperm. by apply elem_of_remove_dups. }
      pose proof (symbols_payload_bound syms msg bw ltac:(lia) Hin Hbw).
      change (read (_ :: _) 0) with (Z.of_nat (length syms)). lia.
  - intros Hn. rewrite Hcs. apply take_ge. lia.
Qed.

Lemma decompress_any_length_witness :
  Forall (λ c, 1 ≤ c ≤ 255) [104; 101; 108; 108; 111] ∧
  24 * Z.of_nat (length [104; 101; 108; 108; 111]%Z) ≤ INT_MAX ∧
  (length (take (Z.to_nat 9) [104; 101; 108; 108; 111]%Z)
   < length (replicate 10 7%Z))%nat ∧
  ∃ data size out_text',
    compress_cycle_based [104; 101; 108; 108; 111] = Ok (data, size) ∧
    (size - (1 + read data 0)) * 8 ≤ INT_MAX ∧
    decompress_cycle_based data size 9 (replicate 10 7) = Ok (out_text', None) ∧
    out_text' = take (Z.to_nat 9) [104; 101; 108; 108; 111]
                  ++ 0 :: drop (S (length (take (Z.to_nat 9)
                                             [104; 101; 108; 108; 111]%Z)))
                               (replicate 10 7) ∧
    c_string out_text' = take (Z.to_nat 9) [104; 101; 108; 108; 111] ∧
    (Z.of_nat (length [104; 101; 108; 108; 111]%Z) ≤ 9 →
     c_string out_text' = [104; 101; 108; 108; 111]).
Proof.
  assert (H1 : Forall (λ c, 1 ≤ c ≤ 255) [104; 101; 108; 108; 111])
    by (repeat constructor; lia).
  assert (H0 : 24 * Z.of_nat (length [104; 101; 108; 108; 111]%Z) ≤ INT_MAX)
    by (vm_compute; discriminate).
  assert (H2 : (length (take (Z.to_nat 9) [104; 101; 108; 108; 111]%Z)
                < length (replicate 10 7%Z))%nat) by (simpl; lia).
  split; [exact H1|]. split; [exact H0|]. split; [exact H2|].
  exact (decompress_any_length [104; 101; 108; 108; 111] (replicate 10 7) 9
           H1 H0 H2).
Defined.

(** X16. The two-phase scan on any payload whose number of bits is an
    [int], from any bit [s] inside it: it ends, past [s] and not past the
    end of the payload; it answers the number m of zero bits it skipped and
    the number j of one bits that follow; j = 0 happens exactly when no 1
    is left (the scan is then at the end of the payload); otherwise the
    scan stops at the first bit after the ones, which is a 0 unless the
    payload ends there. *)
Theorem scan_cycle_correct (payload : list Z) (payload_bytes s : Z) :
  0 ≤ s < payload_bytes * 8 → payload_bytes * 8 ≤ INT_MAX →
  ∃ bi m j,
    scan_cycle payload payload_bytes s = Ok (bi, m, j) ∧
    s < bi ≤ payload_bytes * 8 ∧ 0 ≤ m ∧ 0 ≤ j ∧
    (∀ t, 0 ≤ t < m → payload_bit payload (s + t) = 0) ∧
    (∀ t, m ≤ t < m + j → payload_bit payload (s + t) = 1) ∧
    (j = 0 → bi = payload_bytes * 8 ∧ m = payload_bytes * 8 - s) ∧
    (1 ≤ j → bi = s + m + j ∧
             (bi < payload_bytes * 8 → payload_bit payload bi = 0)).
Proof.
  intros Hs _. destruct (scan_cycle_cases payload payload_bytes s Hs)
    as [(m & j & Hat)|Hzeros].
  - exists (s + m + j), m, j. split; [by apply scan_cycle_at|].
    destruct Hat as (_ & Hm & Hj & Hle & Hz & Ho & Hend).
    rewrite Forall_seqZ in Hz, Ho.
    split_and!; try lia.
    + intros t Ht. apply Hz. lia.
    + intros t Ht. apply Ho. lia.
  - eexists _, _, 0. split; [apply scan_cycle_zeros; [lia|done]|].
    rewrite Forall_seqZ in Hzeros.
    split_and!; try lia.
    intros t Ht. apply Hzeros. lia.
Qed.

Lemma scan_cycle_correct_witness :
  0 ≤ 3 < 2 * 8 ∧ 2 * 8 ≤ INT_MAX ∧
  ∃ bi m j,
    scan_cycle [82; 96] 2 3 = Ok (bi, m, j) ∧
    3 < bi ≤ 2 * 8 ∧ 0 ≤ m ∧ 0 ≤ j ∧
    (∀ t, 0 ≤ t < m → payload_bit [82; 96] (3 + t) = 0) ∧
    (∀ t, m ≤ t < m + j → payload_bit [82; 96] (3 + t) = 1) ∧
    (j = 0 → bi = 2 * 8 ∧ m = 2 * 8 - 3) ∧
    (1 ≤ j → bi = 3 + m + j ∧ (bi < 2 * 8 → payload_bit [82; 96] bi = 0)).
Proof.
  assert (H : 0 ≤ 3 < 2 * 8) by lia.
  assert (H' : 2 * 8 ≤ INT_MAX) by (vm_compute; discriminate).
  split; [exact H|]. split; [exact H'|].
  exact (scan_cycle_correct [82; 96] 2 3 H H').
Defined.

(** X17. The search of the code table answers the first rank below K whose
    pair is (m, j), and -1 when no rank below K has this pair. *)
Theorem find_code_first_match (codes : list CodeEntry) (m j K : Z) :
  let found := find_code codes m j (seqZ 0 K) in
  (found = -1 ∧
   ∀ r, 0 ≤ r < K → ¬ (code_m (read codes r) = m ∧ code_j (read codes r) = j))
  ∨ (0 ≤ found < K ∧
     code_m (read codes found) = m ∧ code_j (read codes found) = j ∧
     ∀ r, 0 ≤ r < found →
       ¬ (code_m (read codes r) = m ∧ code_j (read codes r) = j)).
Proof.
  destruct (find_code_cases codes m j K) as [[Hf Hno]|(Hf & Heq & Hno)].
  - left. split; [done|]. intros r Hr [<- <-]. by apply (Hno r Hr).
  - right. injection Heq as Hm Hj. split_and!; try done; try lia.
    intros r Hr [<- <-]. by apply (Hno r Hr).
Qed.

(** X18. Whatever bytes the buffer holds, every symbol the decoder writes
    is one of the K symbols listed in the header of the buffer. *)
Theorem decoded_symbols_from_header
    (comp_data : list Z) (comp_size original_len : Z) (out_text : list Z) :
  Forall is_byte comp_data →
  comp_size ≤ Z.of_nat (length comp_data) →
  Z.max 0 original_len < Z.of_nat (length out_text) →
  ∃ decoded err,
    decompress_cycle_based comp_data comp_size original_len out_text
    = Ok (decoded ++ 0 :: drop (S (length decoded)) out_text, err) ∧
    Forall (λ c, ∃ r, 0 ≤ r < read comp_data 0 ∧ c = read comp_data (1 + r))
           decoded.
Proof.
  intros Hbytes Hsize Hroom.
  assert (Hw0 : write out_text 0 0 = [] ++ 0 :: drop 1 out_text).
  { destruct out_text; simpl in *; [lia|]. by rewrite drop_0. }
  destruct (decide (comp_size ≤ 0)) as [Hle|Hgt].
  { exists [], None. split; [|constructor]. unfold decompress_cycle_based.
    destruct (Z.leb_spec comp_size 0); [|lia]. by rewrite Hw0. }
  set (K := read comp_data 0).
  destruct (decide (K ≤ 0 ∨ comp_size < 1 + K)) as [Hbad|Hok].
  { exists [], (Some InvalidCompressedData). split; [|constructor].
    rewrite decompress_invalid_header by (done || lia). by rewrite Hw0. }
  assert (HK : is_byte K).
  { unfold K, read. eapply Forall_lookup_1; [exact Hbytes|].
    apply list_lookup_lookup_total_lt. lia. }
  unfold is_byte in HK.
  rewrite decompress_valid_header; fold K; [|lia..].
  destruct (decode_total_symbols (decoder_table comp_data K) K
              (drop (Z.to_nat (1 + K)) comp_data) (comp_size - (1 + K))
              original_len out_text ltac:(lia))
    as (st & decoded & -> & Hout & Hpos & Hlen & Hall).
  exists decoded, (ds_stderr st). simpl. split.
  - rewrite Hout, Hpos, write_next by lia.
    rewrite <- app_assoc, length_app. simpl. by rewrite Nat.add_1_r.
  - eapply Forall_impl; [exact Hall|]. intros c (r & Hr & ->). exists r.
    split; [done|]. unfold decoder_table.
    rewrite table_symbol by (rewrite ?length_recover_symbols; lia).
    apply recover_symbols_read; lia.
Qed.

Lemma decoded_symbols_from_header_witness :
  Forall is_byte [2; 97; 98; 82; 200] ∧
  4 ≤ Z.of_nat (length [2; 97; 98; 82; 200]%Z) ∧
  Z.max 0 7 < Z.of_nat (length (replicate 8 9%Z)) ∧
  ∃ decoded err,
    decompress_cycle_based [2; 97; 98; 82; 200] 4 7 (replicate 8 9)
    = Ok (decoded ++ 0 :: drop (S (length decoded)) (replicate 8 9), err) ∧
    Forall (λ c, ∃ r, 0 ≤ r < read [2; 97; 98; 82; 200] 0
                      ∧ c = read [2; 97; 98; 82; 200] (1 + r))
           decoded.
Proof.
  assert (H1 : Forall is_byte [2; 97; 98; 82; 200])
    by (repeat constructor; unfold is_byte; lia).
  assert (H2 : 4 ≤ Z.of_nat (length [2; 97; 98; 82; 200]%Z)) by (simpl; lia).
  assert (H3 : Z.max 0 7 < Z.of_nat (length (replicate 8 9%Z))) by (simpl; lia).
  split; [exact H1|]. split; [exact H2|]. split; [exact H3|].
  exact (decoded_symbols_from_header [2; 97; 98; 82; 200] 4 7 (replicate 8 9)
           H1 H2 H3).
Defined.

(** X19. [decompress_cycle_based] reads the first [comp_size] bytes of the
    buffer only: two buffers that agree on these bytes give the same
    output and the same report. *)
Theorem decompress_reads_comp_size
    (data1 data2 : list Z) (comp_size original_len : Z) (out_text : list Z) :
  take (Z.to_nat comp_size) data1 = take (Z.to_nat comp_size) data2 →
  decompress_cycle_based data1 comp_size original_len out_text
  = decompress_cycle_based data2 comp_size original_len out_text.
Proof.
  intros Heq.
  by rewrite <- (decompress_take data1), <- (decompress_take data2), Heq.
Qed.

Lemma decompress_reads_comp_size_witness :
  take (Z.to_nat 4) [2; 97; 98; 82; 255; 255]
  = take (Z.to_nat 4) [2; 97; 98; 82] ∧
  decompress_cycle_based [2; 97; 98; 82; 255; 255] 4 5 (replicate 6 9)
  = decompress_cycle_based [2; 97; 98; 82] 4 5 (replicate 6 9).
Proof.
  assert (H : take (Z.to_nat 4) [2; 97; 98; 82; 255; 255]
              = take (Z.to_nat 4) [2; 97; 98; 82]) by reflexivity.
  split; [exact H|].
  exact (decompress_reads_comp_size [2; 97; 98; 82; 255; 255] [2; 97; 98; 82]
           4 5 (replicate 6 9) H).
Defined.

(** X20. One turn of the loop of [main], for any text without zero byte
    and any target size [S]: a size above the length of the text is
    skipped without a line of output; a size of [MAX_SIZE_MESSAGE] or more
    gives the error line only and leaves the arrays alone; any other size
    from 0 on prints the truncated text, the compressed size and, as the
    recovered text, the truncated text again, and nothing on [stderr]. *)
Theorem main_turn_recovers (text : list Z) (S : Z) (st : MainState) :
  Forall (λ c, 1 ≤ c ≤ 255) text →
  length (ms_example st) = length (ms_recovered st) →
  Z.of_nat (length (ms_example st)) = MAX_SIZE_MESSAGE →
  (strlen text < to_size_t S → main_turn text (strlen text) S st = Ok st) ∧
  (to_size_t S ≤ strlen text → MAX_SIZE_MESSAGE ≤ S →
   main_turn text (strlen text) S st
   = Ok (mkMainState (ms_printed st ++ [TargetTooLarge S MAX_SIZE_MESSAGE])
           (ms_example st) (ms_recovered st))) ∧
  (0 ≤ S ≤ strlen text → S < MAX_SIZE_MESSAGE →
   ∃ comp_size example recovered,
     main_turn text (strlen text) S st
     = Ok (mkMainState (ms_printed st ++ report text S comp_size)
             example recovered) ∧
     length example = length (ms_example st) ∧
     length recovered = length (ms_recovered st) ∧
     c_string example = take (Z.to_nat S) text ∧
     c_string recovered = take (Z.to_nat S) text).
Proof.
  intros Htext Hlens Hlen. destruct (nonzero_bytes _ Htext) as [_ Hnz].
  assert (Hstr : strlen text = Z.of_nat (length text))
    by (by rewrite strlen_c_string, c_string_id).
  rewrite Hstr. split_and!.
  - intros HS. unfold main_turn.
    by destruct (Z.ltb_spec (Z.of_nat (length text)) (to_size_t S)); [|lia].
  - intros HS Hmax. unfold main_turn.
    destruct (Z.ltb_spec (Z.of_nat (length text)) (to_size_t S)); [lia|].
    by destruct (Z.leb_spec MAX_SIZE_MESSAGE S); [|lia].
  - intros HS Hmax. by apply main_turn_ok.
Qed.

Lemma main_turn_recovers_witness :
  let text := [104; 101; 108; 108; 111] in
  let st := mkMainState [] (replicate 1024 7) (replicate 1024 9) in
  Forall (λ c, 1 ≤ c ≤ 255) text ∧
  length (ms_example st) = length (ms_recovered st) ∧
  Z.of_nat (length (ms_example st)) = MAX_SIZE_MESSAGE ∧
  0 ≤ 4 ≤ strlen text ∧ 4 < MAX_SIZE_MESSAGE ∧
  ∃ comp_size example recovered,
    main_turn text (strlen text) 4 st
    = Ok (mkMainState (ms_printed st ++ report text 4 comp_size)
            example recovered) ∧
    length example = length (ms_example st) ∧
    length recovered = length (ms_recovered st) ∧
    c_string example = take (Z.to_nat 4) text ∧
    c_string recovered = take (Z.to_nat 4) text.
Proof.
  intros text st.
  assert (H1 : Forall (λ c, 1 ≤ c ≤ 255) text) by (repeat constructor; lia).
  assert (H2 : length (ms_example st) = length (ms_recovered st))
    by reflexivity.
  assert (H3 : Z.of_nat (length (ms_example st)) = MAX_SIZE_MESSAGE)
    by reflexivity.
  assert (H4 : 0 ≤ 4 ≤ strlen text) by (simpl; lia).
  assert (H5 : 4 < MAX_SIZE_MESSAGE) by reflexivity.
  split; [exact H1|]. split; [exact H2|]. split; [exact H3|].
  split; [exact H4|]. split; [exact H5|].
  exact (proj2 (proj2 (main_turn_recovers text 4 st H1 H2 H3)) H4 H5).
Defined.

(** X21. [main] ends with status 0 whatever the arrays [example] and
    [recovered] hold on entry: it prints the length 966 of the full text
    and then, for each of the target sizes 32, 64, 128, 256 and 512, the
    truncated text, a compressed size and a recovered text equal to the
    truncated text; it prints nothing on [stderr]. *)
Theorem main_prints_recovered_texts (example recovered : list Z) :
  Z.of_nat (length example) = MAX_SIZE_MESSAGE →
  Z.of_nat (length recovered) = MAX_SIZE_MESSAGE →
  ∃ comp_sizes,
    length comp_sizes = length target_sizes ∧
    main example recovered
    = Ok (FullOriginalLength 966
            :: mjoin (zip_with (report full_text) target_sizes comp_sizes),
          0).
Proof.
  intros Hex Hrec. pose proof full_text_bytes as Hb.
  pose proof length_full_text as Hlen.
  destruct (nonzero_bytes _ Hb) as [_ Hnz].
  assert (Hstr : strlen full_text = Z.of_nat (length full_text))
    by (by rewrite strlen_c_string, c_string_id).
  unfold main, for_range. rewrite Hstr, Z.sub_0_r.
  set (h := λ S st, main_turn full_text (Z.of_nat (length full_text)) S st).
  assert (Hidx : (λ t, read target_sizes t)
                   <$> seqZ 0 (Z.of_nat (length target_sizes)) = target_sizes).
  { reflexivity. }
  rewrite (for_each_fmap h (λ t, read target_sizes t)), Hidx.
  destruct (main_loop_ok full_text target_sizes
              (mkMainState [FullOriginalLength (Z.of_nat (length full_text))]
                 example recovered) Hb)
    as (ns & ex' & rec' & Hns & Hrun); simpl ms_example; simpl ms_recovered;
    [|lia|done|].
  { rewrite Hlen. unfold target_sizes, MAX_SIZE_MESSAGE.
    repeat constructor; lia. }
  exists ns. split; [done|]. unfold h. rewrite Hrun.
  cbn [mbind result_bind ms_printed app]. by rewrite Hlen.
Qed.

Lemma main_prints_recovered_texts_witness :
  Z.of_nat (length (replicate 1024 0%Z)) = MAX_SIZE_MESSAGE ∧
  Z.of_nat (length (replicate 1024 255%Z)) = MAX_SIZE_MESSAGE ∧
  ∃ comp_sizes,
    length comp_sizes = length target_sizes ∧
    main (replicate 1024 0) (replicate 1024 255)
    = Ok (FullOriginalLength 966
            :: mjoin (zip_with (report full_text) target_sizes comp_sizes),
          0).
Proof.
  assert (H1 : Z.of_nat (length (replicate 1024 0%Z)) = MAX_SIZE_MESSAGE)
    by reflexivity.
  assert (H2 : Z.of_nat (length (replicate 1024 255%Z)) = MAX_SIZE_MESSAGE)
    by reflexivity.
  split; [exact H1|]. split; [exact H2|].
  exact (main_prints_recovered_texts (replicate 1024 0) (replicate 1024 255) H1 H2).
Defined.
